(** * singlecache: a time-bounded call-coalescing group (timesf.go)

    A shallow embedding of [Group.Do], [Group.DoChan], [Group.doCall],
    [Group.Forget] and [getValidTime].

    The mutex [g.mu] is modelled by atomicity: every critical section of
    the source is one function on the shared state, and goroutines
    interleave at the granularity of these sections and of the unlocked
    statements of [doCall] and [Do].  Pointers to [call] objects are
    addresses into a heap, channels are addresses into a store of
    buffers, and every reading of [time.Now().Unix()] is an input of the
    step that takes it. *)

From stdpp Require Import gmap strings list.
From Stdlib Require Import ZArith Lia.

Set Warnings "-clear-no-such-hyp".

(** ** Machine integers *)

Definition MaxInt64 : Z := 9223372036854775807.
Definition MinInt64 : Z := -9223372036854775808.

Definition is_int64 (z : Z) : Prop := (MinInt64 ≤ z ≤ MaxInt64)%Z.

(** Two's complement wrap-around of a 64-bit signed result. *)
Definition wrap64 (z : Z) : Z := ((z + 2 ^ 63) mod 2 ^ 64 - 2 ^ 63)%Z.

(** [time.Second], a [time.Duration] counted in nanoseconds. *)
Definition Second : Z := 1000000000.

(** ** The validity clock *)

(** [getValidTime validTime], with [now] the reading of
    [time.Now().Unix()] taken in its else branch.  Go's integer division
    truncates toward zero ([Z.quot]); the int64 addition wraps. *)
Definition getValidTime (now validTime : Z) : Z :=
  if (validTime =? 0)%Z then MaxInt64
  else wrap64 (now + validTime ÷ Second).

(** ** Data model *)

(** Values of type [interface{}] and of type [error]. *)
Inductive any : Type :=
  | Nil
  | Str (s : string)
  | Int (z : Z).

Definition error : Type := option string.

Record Result : Type := MkResult { Val : any; Err : error; Shared : bool }.

(** The [call] struct.  [wg] is the counter of the wait group, [chans]
    holds channel addresses in the order of the appends. *)
Record call : Type := MkCall {
  wg : nat;
  val : any;
  err : error;
  forgotten : bool;
  dups : Z;
  chans : list nat
}.

(** The [Group] struct without its mutex.  A Go map is [nil] ([None])
    or allocated. *)
Record Group : Type := MkGroup {
  m : option (gmap string nat);
  t : option (gmap string Z)
}.

(** Program points of [doCall(c, key, fn)]:
    line 111 ([AtFn]), line 112 ([AtDone]), lines 114-122 ([AtLock]),
    then back in [Do] at line 76 ([AtReturn]) or finished ([Ended]). *)
Inductive stage : Type := AtFn | AtDone | AtLock | AtReturn | Ended.

(** One cell of the heap: the [call] object at that address, together
    with the control state of the goroutines that hold the address: the
    activation of [doCall] for it ([key], [pc], and whether it runs
    inline in [Do] or in the goroutine spawned by [DoChan]) and the
    number of [Do] callers blocked in [c.wg.Wait()]. *)
Record task : Type := MkTask {
  obj : call;
  key : string;
  pc : stage;
  inline : bool;
  waiting : nat
}.

Record world : Type := MkWorld {
  grp : Group;
  tasks : list task;
  bufs : list (list Result)
}.

(** [var g Group]: both maps nil, nothing allocated. *)
Definition zeroGroup : Group := {| m := None; t := None |}.
Definition init : world := {| grp := zeroGroup; tasks := []; bufs := [] |}.

(** Outcome of running a piece of code: normal completion, a run-time
    panic, or no progress (a blocked goroutine, or a step that is not
    the next statement of any goroutine). *)
Inductive outcome (A : Type) : Type :=
  | Ok (a : A)
  | Panic
  | Stuck.
Arguments Ok {A} a.
Arguments Panic {A}.
Arguments Stuck {A}.

Definition obind {A B} (x : outcome A) (f : A → outcome B) : outcome B :=
  match x with
  | Ok a => f a
  | Panic => Panic
  | Stuck => Stuck
  end.

Notation "x ←! e1 ;; e2" := (obind e1 (λ x, e2))
  (at level 100, e1 at next level, right associativity, only parsing).

(** What an execution makes observable. *)
Inductive event : Type :=
  | EvDo (c : nat) (joined : bool)              (* [Do] joined or created [c] *)
  | EvChan (c : nat) (joined : bool) (ch : nat) (* [DoChan] did, and returns [ch] *)
  | EvCall (c : nat) (v : any) (e : error)      (* [fn()] ran for [c], returning [(v, e)] *)
  | EvSend (c ch : nat) (r : Result)            (* [ch <- r] in [doCall] of [c] *)
  | EvReturn (c : nat) (joined : bool) (r : Result)  (* [Do] returns [r] *)
  | EvRecv (ch : nat) (r : Result).             (* a receive from [ch] yields [r] *)

(** ** Field updates *)

Definition set_obj (o : call) (k : task) : task :=
  {| obj := o; key := key k; pc := pc k; inline := inline k; waiting := waiting k |}.
Definition set_pc (p : stage) (k : task) : task :=
  {| obj := obj k; key := key k; pc := p; inline := inline k; waiting := waiting k |}.
Definition set_waiting (n : nat) (k : task) : task :=
  {| obj := obj k; key := key k; pc := pc k; inline := inline k; waiting := n |}.

(** [c.dups++] on a 64-bit [int]. *)
Definition inc_dups (o : call) : call :=
  {| wg := wg o; val := val o; err := err o; forgotten := forgotten o;
     dups := wrap64 (dups o + 1); chans := chans o |}.
(** [c.chans = append(c.chans, ch)] *)
Definition add_chan (ch : nat) (o : call) : call :=
  {| wg := wg o; val := val o; err := err o; forgotten := forgotten o;
     dups := dups o; chans := chans o ++ [ch] |}.
(** [c.forgotten = true] *)
Definition mark_forgotten (o : call) : call :=
  {| wg := wg o; val := val o; err := err o; forgotten := true;
     dups := dups o; chans := chans o |}.
(** [c.val, c.err = v, e] *)
Definition set_result (v : any) (e : error) (o : call) : call :=
  {| wg := wg o; val := v; err := e; forgotten := forgotten o;
     dups := dups o; chans := chans o |}.
Definition set_wg (n : nat) (o : call) : call :=
  {| wg := n; val := val o; err := err o; forgotten := forgotten o;
     dups := dups o; chans := chans o |}.

(** [new(call)] followed by [c.wg.Add(1)], with the initial [chans]. *)
Definition new_call (cs : list nat) : call :=
  {| wg := 1; val := Nil; err := None; forgotten := false; dups := 0; chans := cs |}.

(** ** Go maps *)

(** [if g.m == nil { g.m = make(...); g.t = make(...) }] *)
Definition lazy_init (g : Group) : Group :=
  match m g with
  | None => {| m := Some ∅; t := Some ∅ |}
  | Some _ => g
  end.

(** [c, ok := g.m[key]]: reading a nil map finds nothing. *)
Definition get_call (g : Group) (k : string) : option nat :=
  mm ← m g; mm !! k.

(** [t, ok := g.t[key]] *)
Definition get_exp (g : Group) (k : string) : option Z :=
  tm ← t g; tm !! k.

(** [t, _ := g.t[key]]: a missing key reads as the zero value. *)
Definition get_time (g : Group) (k : string) : Z :=
  default 0%Z (get_exp g k).

(** [g.m[key] = c; g.t[key] = x]: assignment to an entry of a nil map
    panics. *)
Definition put_entry (g : Group) (k : string) (c : nat) (x : Z) : outcome Group :=
  match m g, t g with
  | Some mm, Some tm => Ok {| m := Some (<[k := c]> mm); t := Some (<[k := x]> tm) |}
  | _, _ => Panic
  end.

(** [delete(g.m, key); delete(g.t, key)]: a no-op on a nil map. *)
Definition del_entry (g : Group) (k : string) : Group :=
  {| m := delete k <$> m g; t := delete k <$> t g |}.

(** ** The critical section of [Do] (lines 51-72) *)

Inductive decision : Type :=
  | Joined (c : nat)
  | Created (c : nat).

(** The join test of lines 56-60: the address to join, if any.  [now]
    is the reading of the clock at line 58. *)
Definition joinable (g : Group) (k : string) (now : Z) : option nat :=
  match get_call g k with
  | Some c => if (get_time g k >? now)%Z then Some c else None
  | None => None
  end.

(** Lines 67-72 (and 98-102): allocate the call, register it, store its
    expiry.  [now'] is the clock reading inside [getValidTime]. *)
Definition create (k : string) (validTime now' : Z) (isinline : bool)
    (cs : list nat) (g : Group) (w : world) : outcome (world * decision) :=
  let c := length (tasks w) in
  g' ←! put_entry g k c (getValidTime now' validTime) ;;
  Ok ({| grp := g';
         tasks := tasks w ++ [{| obj := new_call cs; key := k; pc := AtFn;
                                 inline := isinline; waiting := 0 |}];
         bufs := bufs w |}, Created c).

Definition Do_lock (k : string) (validTime now now' : Z) (w : world)
    : outcome (world * decision) :=
  let g := lazy_init (grp w) in
  match joinable g k now with
  | Some c =>
      match tasks w !! c with
      | Some tk =>
          Ok ({| grp := g;
                 tasks := <[c := set_waiting (S (waiting tk)) (set_obj (inc_dups (obj tk)) tk)]> (tasks w);
                 bufs := bufs w |}, Joined c)
      | None => Stuck
      end
  | None => create k validTime now' true [] g w
  end.

(** ** The critical section of [DoChan] (lines 81-102) *)

(** [ch := make(chan Result, 1)] allocates the next buffer; the returned
    channel is its address. *)
Definition DoChan_lock (k : string) (validTime now now' : Z) (w : world)
    : outcome (world * decision * nat) :=
  let ch := length (bufs w) in
  let w1 := {| grp := grp w; tasks := tasks w; bufs := bufs w ++ [[]] |} in
  let g := lazy_init (grp w) in
  match joinable g k now with
  | Some c =>
      match tasks w !! c with
      | Some tk =>
          Ok ({| grp := g;
                 tasks := <[c := set_obj (add_chan ch (inc_dups (obj tk))) tk]> (tasks w);
                 bufs := bufs w1 |}, Joined c, ch)
      | None => Stuck
      end
  | None =>
      r ←! create k validTime now' false [ch] g w1 ;;
      Ok (r, ch)
  end.

(** ** [Forget] (lines 127-135) *)

Definition Forget (k : string) (w : world) : world :=
  let ts :=
    match get_call (grp w) k with
    | Some c => alter (λ tk, set_obj (mark_forgotten (obj tk)) tk) c (tasks w)
    | None => tasks w
    end in
  {| grp := del_entry (grp w) k; tasks := ts; bufs := bufs w |}.

(** ** [doCall] (lines 110-123) *)

(** A send on a channel of capacity 1 blocks while the buffer is full. *)
Definition send (ch : nat) (r : Result) (bs : list (list Result))
    : option (list (list Result)) :=
  match bs !! ch with
  | Some b => if decide (length b < 1) then Some (<[ch := b ++ [r]]> bs) else None
  | None => None
  end.

(** The loop of lines 119-121, run by [doCall] of [c]: one send per
    channel of the list, from its head on, each observable as it
    happens. *)
Fixpoint deliver (c : nat) (r : Result) (cs : list nat) (bs : list (list Result))
    : option (list (list Result) * list event) :=
  match cs with
  | [] => Some (bs, [])
  | ch :: cs' =>
      match send ch r bs with
      | Some bs' =>
          match deliver c r cs' bs' with
          | Some (bs'', es) => Some (bs'', EvSend c ch r :: es)
          | None => None
          end
      | None => None
      end
  end.

(** The value sent at line 120. *)
Definition result_of (o : call) : Result :=
  {| Val := val o; Err := err o; Shared := (dups o >? 0)%Z |}.

(** Line 111: [fn] returns [(v, e)], stored in the call. *)
Definition doCall_fn (c : nat) (v : any) (e : error) (w : world)
    : outcome (world * list event) :=
  match tasks w !! c with
  | Some tk =>
      match pc tk with
      | AtFn =>
          Ok ({| grp := grp w;
                 tasks := <[c := set_pc AtDone (set_obj (set_result v e (obj tk)) tk)]> (tasks w);
                 bufs := bufs w |}, [EvCall c v e])
      | _ => Stuck
      end
  | None => Stuck
  end.

(** Line 112: [c.wg.Done()]; a negative counter panics. *)
Definition doCall_done (c : nat) (w : world) : outcome (world * list event) :=
  match tasks w !! c with
  | Some tk =>
      match pc tk with
      | AtDone =>
          match wg (obj tk) with
          | O => Panic
          | S n =>
              Ok ({| grp := grp w;
                     tasks := <[c := set_pc AtLock (set_obj (set_wg n (obj tk)) tk)]> (tasks w);
                     bufs := bufs w |}, [])
          end
      | _ => Stuck
      end
  | None => Stuck
  end.

(** Lines 114-122: the critical section of [doCall]. *)
Definition doCall_lock (c : nat) (w : world) : outcome (world * list event) :=
  match tasks w !! c with
  | Some tk =>
      match pc tk with
      | AtLock =>
          let o := obj tk in
          let g := if forgotten o then grp w else del_entry (grp w) (key tk) in
          match deliver c (result_of o) (chans o) (bufs w) with
          | Some (bs, es) =>
              Ok ({| grp := g;
                     tasks := <[c := set_pc (if inline tk then AtReturn else Ended) tk]> (tasks w);
                     bufs := bs |}, es)
          | None => Stuck
          end
      | _ => Stuck
      end
  | None => Stuck
  end.

(** Line 76: the originator's [return c.val, c.err, c.dups > 0]. *)
Definition Do_return (c : nat) (w : world) : outcome (world * list event) :=
  match tasks w !! c with
  | Some tk =>
      match pc tk with
      | AtReturn =>
          Ok ({| grp := grp w; tasks := <[c := set_pc Ended tk]> (tasks w); bufs := bufs w |},
              [EvReturn c false (result_of (obj tk))])
      | _ => Stuck
      end
  | None => Stuck
  end.

(** Lines 63-64: a joiner's [c.wg.Wait(); return c.val, c.err, true]. *)
Definition Do_wake (c : nat) (w : world) : outcome (world * list event) :=
  match tasks w !! c with
  | Some tk =>
      match waiting tk, wg (obj tk) with
      | S n, O =>
          Ok ({| grp := grp w; tasks := <[c := set_waiting n tk]> (tasks w); bufs := bufs w |},
              [EvReturn c true {| Val := val (obj tk); Err := err (obj tk); Shared := true |}])
      | _, _ => Stuck
      end
  | None => Stuck
  end.

(** A receive from the channel returned by [DoChan]. *)
Definition recv (ch : nat) (w : world) : outcome (world * list event) :=
  match bufs w !! ch with
  | Some (r :: b) =>
      Ok ({| grp := grp w; tasks := tasks w; bufs := <[ch := b]> (bufs w) |}, [EvRecv ch r])
  | _ => Stuck
  end.

(** ** Interleavings *)

Inductive action : Type :=
  | ADo (k : string) (validTime now now' : Z)
  | ADoChan (k : string) (validTime now now' : Z)
  | AForget (k : string)
  | AFn (c : nat) (v : any) (e : error)
  | AWgDone (c : nat)
  | AComplete (c : nat)
  | AReturn (c : nat)
  | AWake (c : nat)
  | ARecv (ch : nat).

Definition step (a : action) (w : world) : outcome (world * list event) :=
  match a with
  | ADo k d now now' =>
      r ←! Do_lock k d now now' w ;;
      Ok (r.1, [match r.2 with
                | Joined c => EvDo c true
                | Created c => EvDo c false
                end])
  | ADoChan k d now now' =>
      r ←! DoChan_lock k d now now' w ;;
      Ok (r.1.1, [match r.1.2 with
                  | Joined c => EvChan c true r.2
                  | Created c => EvChan c false r.2
                  end])
  | AForget k => Ok (Forget k w, [])
  | AFn c v e => doCall_fn c v e w
  | AWgDone c => doCall_done c w
  | AComplete c => doCall_lock c w
  | AReturn c => Do_return c w
  | AWake c => Do_wake c w
  | ARecv ch => recv ch w
  end.

(** Running a schedule: the final state and the events in order. *)
Fixpoint run (acts : list action) (w : world) : outcome (world * list event) :=
  match acts with
  | [] => Ok (w, [])
  | a :: rest =>
      r ←! step a w ;;
      r' ←! run rest r.1 ;;
      Ok (r'.1, r.2 ++ r'.2)
  end.

(** ** Well-formed states *)

(** The call's completion handling has not run yet. *)
Definition live (p : stage) : bool :=
  match p with
  | AtFn | AtDone | AtLock => true
  | AtReturn | Ended => false
  end.

(** [c.wg.Done()] has run. *)
Definition signalled (p : stage) : bool :=
  match p with
  | AtFn | AtDone => false
  | AtLock | AtReturn | Ended => true
  end.

Record wf (w : world) : Prop := MkWf {
  wf_maps : m (grp w) = None ↔ t (grp w) = None;
  wf_dom : ∀ k, get_call (grp w) k = None ↔ get_exp (grp w) k = None;
  wf_reg : ∀ k c, get_call (grp w) k = Some c →
    ∃ tk, tasks w !! c = Some tk ∧ key tk = k ∧
          forgotten (obj tk) = false ∧ live (pc tk) = true;
  wf_wg : ∀ c tk, tasks w !! c = Some tk →
    wg (obj tk) = if signalled (pc tk) then 0 else 1;
  wf_chan_lt : ∀ c tk ch, tasks w !! c = Some tk →
    ch ∈ chans (obj tk) → ch < length (bufs w);
  wf_chan_inj : ∀ c1 c2 tk1 tk2 i j ch,
    tasks w !! c1 = Some tk1 → tasks w !! c2 = Some tk2 →
    chans (obj tk1) !! i = Some ch → chans (obj tk2) !! j = Some ch →
    c1 = c2 ∧ i = j;
  wf_chan_empty : ∀ c tk ch, tasks w !! c = Some tk → live (pc tk) = true →
    ch ∈ chans (obj tk) → bufs w !! ch = Some []
}.

(** ** Executions and what they make observable *)

(** The call an event is about. *)
Definition ev_call (e : event) : option nat :=
  match e with
  | EvDo c _ | EvChan c _ _ | EvCall c _ _ | EvSend c _ _ | EvReturn c _ _ => Some c
  | EvRecv _ _ => None
  end.

Definition is_join (c : nat) (e : event) : bool :=
  match e with
  | EvDo c' true | EvChan c' true _ => bool_decide (c' = c)
  | _ => false
  end.

Definition is_call (c : nat) (e : event) : bool :=
  match e with
  | EvCall c' _ _ => bool_decide (c' = c)
  | _ => false
  end.

Definition is_send (ch : nat) (e : event) : bool :=
  match e with
  | EvSend _ ch' _ => bool_decide (ch' = ch)
  | _ => false
  end.

Definition count (f : event → bool) (evs : list event) : nat :=
  length (List.filter f evs).

(** The number of callers that joined call [c]. *)
Definition joins (c : nat) (evs : list event) : nat := count (is_join c) evs.

(** [fn] has been called. *)
Definition started (p : stage) : bool :=
  match p with
  | AtFn => false
  | _ => true
  end.

(** What the events of an execution say about one call. *)
Record hist_task (c : nat) (tk : task) (evs : list event) : Prop := MkHistTask {
  h_dups : dups (obj tk) = wrap64 (Z.of_nat (joins c evs));
  h_calls : count (is_call c) evs = if started (pc tk) then 1 else 0;
  h_call : ∀ v e, EvCall c v e ∈ evs → v = val (obj tk) ∧ e = err (obj tk);
  h_ret : ∀ j r, EvReturn c j r ∈ evs →
    signalled (pc tk) = true ∧ Val r = val (obj tk) ∧ Err r = err (obj tk) ∧
    if j : bool then Shared r = true
    else pc tk = Ended ∧ Shared r = (dups (obj tk) >? 0)%Z;
  h_send : ∀ ch r, EvSend c ch r ∈ evs →
    live (pc tk) = false ∧ ch ∈ chans (obj tk) ∧ r = result_of (obj tk);
  h_sent : ∀ ch, ch ∈ chans (obj tk) →
    count (is_send ch) evs = if live (pc tk) then 0 else 1;
  h_chan : ∀ j ch, EvChan c j ch ∈ evs → ch ∈ chans (obj tk)
}.

Record hist (w : world) (evs : list event) : Prop := MkHist {
  hist_task_of : ∀ c tk, tasks w !! c = Some tk → hist_task c tk evs;
  hist_alloc : ∀ e c, e ∈ evs → ev_call e = Some c → c < length (tasks w);
  hist_buf : ∀ ch b r, bufs w !! ch = Some b → r ∈ b → ∃ c, EvSend c ch r ∈ evs;
  hist_recv : ∀ ch r, EvRecv ch r ∈ evs → ∃ c, EvSend c ch r ∈ evs
}.

(** ** Auxiliary notions *)

Ltac mem_snoc H :=
  apply elem_of_app in H as [H|H];
  [|apply list_elem_of_singleton in H; try discriminate H; simplify_eq].

Definition decision_event (d : decision) : event :=
  match d with
  | Joined c => EvDo c true
  | Created c => EvDo c false
  end.

Definition chan_event (d : decision) (ch : nat) : event :=
  match d with
  | Joined c => EvChan c true ch
  | Created c => EvChan c false ch
  end.

(** The state after the create branch of [Do] or [DoChan]. *)
Definition created (k : string) (x : Z) (isinline : bool) (cs : list nat)
    (w w1 : world) : Prop :=
  tasks w1 = tasks w ++ [{| obj := new_call cs; key := k; pc := AtFn;
                            inline := isinline; waiting := 0 |}] ∧
  get_call (grp w1) k = Some (length (tasks w)) ∧
  get_exp (grp w1) k = Some x ∧
  ∀ k', k' ≠ k → get_call (grp w1) k' = get_call (grp w) k' ∧
                 get_exp (grp w1) k' = get_exp (grp w) k'.

(** ** How a call evolves along an execution *)

Definition rank (p : stage) : nat :=
  match p with
  | AtFn => 0
  | AtDone => 1
  | AtLock => 2
  | AtReturn => 3
  | Ended => 4
  end.

Record evolves (tk tk' : task) : Prop := MkEvolves {
  ev_key : key tk' = key tk;
  ev_inline : inline tk' = inline tk;
  ev_rank : rank (pc tk) ≤ rank (pc tk');
  ev_forgotten : forgotten (obj tk) = true → forgotten (obj tk') = true;
  ev_chans : chans (obj tk) `prefix_of` chans (obj tk');
  ev_result : started (pc tk) = true →
    val (obj tk') = val (obj tk) ∧ err (obj tk') = err (obj tk)
}.

(** The statements of [doCall] and [Do] that move a call from one
    program point to the next. *)
Inductive moves (c : nat) : action → stage → stage → Prop :=
  | moves_fn v e : moves c (AFn c v e) AtFn AtDone
  | moves_done : moves c (AWgDone c) AtDone AtLock
  | moves_lock p : live p = false → moves c (AComplete c) AtLock p
  | moves_return : moves c (AReturn c) AtReturn Ended.

(** Forgotten or completed: the call is out of the registry for good. *)
Definition retired (tk : task) : Prop :=
  forgotten (obj tk) = true ∨ live (pc tk) = false.

(** ** Sample executions *)

(** Two [Do] calls on one key; the second joins the first, and returns
    as soon as the wait group is released. *)
Definition share_schedule : list action :=
  [ADo "k" 0 100 100; ADo "k" 0 100 100; AFn 0 (Str "bar") None; AWgDone 0;
   AWake 0; AComplete 0; AReturn 0].
Definition share_world : world :=
  Eval vm_compute in
    match run share_schedule init with Ok r => r.1 | _ => init end.
Definition share_events : list event :=
  Eval vm_compute in
    match run share_schedule init with Ok r => r.2 | _ => [] end.

(** An operation that returns a value together with an error, to its
    originator and to one joiner. *)
Definition partial_schedule : list action :=
  [ADo "key" 0 0 0; ADo "key" 0 0 0; AFn 0 (Str "partial") (Some "E"); AWgDone 0;
   AWake 0; AComplete 0; AReturn 0].
Definition partial_world : world :=
  Eval vm_compute in
    match run partial_schedule init with Ok r => r.1 | _ => init end.
Definition partial_events : list event :=
  Eval vm_compute in
    match run partial_schedule init with Ok r => r.2 | _ => [] end.

(** [TestDoErr] through [DoChan]: the operation fails. *)
Definition failing_schedule : list action :=
  [ADoChan "key" 0 0 0; AFn 0 Nil (Some "some error"); AWgDone 0;
   AComplete 0; ARecv 0].
Definition failing_world : world :=
  Eval vm_compute in
    match run failing_schedule init with Ok r => r.1 | _ => init end.
Definition failing_events : list event :=
  Eval vm_compute in
    match run failing_schedule init with Ok r => r.2 | _ => [] end.

(** A call about to run its completion handling, and the state after. *)
Definition done_schedule : list action :=
  [ADo "k" 0 3 3; AFn 0 (Int 2) None; AWgDone 0].
Definition done_world : world :=
  Eval vm_compute in
    match run done_schedule init with Ok r => r.1 | _ => init end.
Definition done_events : list event :=
  Eval vm_compute in
    match run done_schedule init with Ok r => r.2 | _ => [] end.
Definition evicted_world : world :=
  Eval vm_compute in
    match doCall_lock 0 done_world with Ok r => r.1 | _ => init end.

(** Two [DoChan] calls on one key, the operation returned and
    signalled. *)
Definition sinks_schedule : list action :=
  [ADoChan "k" 0 1 1; ADoChan "k" 0 1 1; AFn 0 (Str "bar") None; AWgDone 0].
Definition sinks_world : world :=
  Eval vm_compute in
    match run sinks_schedule init with Ok r => r.1 | _ => init end.
Definition sinks_events : list event :=
  Eval vm_compute in
    match run sinks_schedule init with Ok r => r.2 | _ => [] end.

(** [TestForget], first step: a call registered for 100 seconds. *)
Definition forget_schedule : list action := [ADo "key" 100000000000 0 0].
Definition forget_world : world :=
  Eval vm_compute in
    match run forget_schedule init with Ok r => r.1 | _ => init end.
Definition forget_events : list event :=
  Eval vm_compute in
    match run forget_schedule init with Ok r => r.2 | _ => [] end.

(** The schedule on which C1 fails: a call created under ["k"] with a
    validity of one second at second 0; a second [Do] at second 1, when
    the first call has expired, which replaces it; then the first call's
    operation returns and releases the wait group.  The completion
    handling of the first call is next. *)
Definition stale_schedule : list action :=
  [ADo "k" Second 0 0; ADo "k" Second 1 1; AFn 0 (Str "old") None; AWgDone 0].
Definition stale_world : world :=
  Eval vm_compute in
    match run stale_schedule init with Ok r => r.1 | _ => init end.
Definition stale_events : list event :=
  Eval vm_compute in
    match run stale_schedule init with Ok r => r.2 | _ => [] end.
Definition stale_after : world :=
  Eval vm_compute in
    match doCall_lock 0 stale_world with Ok r => r.1 | _ => init end.

(** ** Further notions *)

(** [n] callers entering [Do] on key [k], each with its duration and its
    two clock readings. *)
Definition do_calls (k : string) (args : list (Z * Z * Z)) : list action :=
  (λ a, ADo k a.1.1 a.1.2 a.2) <$> args.

(** [c.dups++], [n] times. *)
Definition bump (n : nat) (x : Z) : Z := Nat.iter n (λ z, wrap64 (z + 1)) x.

(** What the join branch of [Do] does to the call it joins. *)
Definition join_task (tk : task) : task :=
  set_waiting (S (waiting tk)) (set_obj (inc_dups (obj tk)) tk).

(** One caller of [Do] originates call [c] on key [k], the callers
    [args] join it, the operation returns [(v, e)], the joiners are
    released and return, then the originator completes and returns. *)
Definition coalesced_schedule (k : string) (d0 now0 now0' : Z)
    (args : list (Z * Z * Z)) (c : nat) (v : any) (e : error) : list action :=
  ADo k d0 now0 now0' :: do_calls k args ++ [AFn c v e; AWgDone c] ++
  replicate (length args) (AWake c) ++ [AComplete c; AReturn c].

Definition coalesced_events (c n : nat) (v : any) (e : error) : list event :=
  EvDo c false :: replicate n (EvDo c true) ++ [EvCall c v e] ++
  replicate n (EvReturn c true {| Val := v; Err := e; Shared := true |}) ++
  [EvReturn c false {| Val := v; Err := e; Shared := (bump n 0 >? 0)%Z |}].

(** The state in which the last call allocated is [tk]. *)
Definition with_last (l : list task) (b : list (list Result)) (g : Group)
    (tk : task) : world :=
  {| grp := g; tasks := l ++ [tk]; bufs := b |}.

Definition is_recv (ch : nat) (e : event) : bool :=
  match e with
  | EvRecv ch' _ => bool_decide (ch' = ch)
  | _ => false
  end.

(** The length of the buffer of channel [ch] (0 if not allocated). *)
Definition buffered (w : world) (ch : nat) : nat :=
  length (default [] (bufs w !! ch)).

(** ** Accounting for callers *)

(** A [Do] caller joined [c]. *)
Definition is_do_join (c : nat) (e : event) : bool :=
  match e with
  | EvDo c' true => bool_decide (c' = c)
  | _ => false
  end.

(** A [Do] joiner of [c] returned. *)
Definition is_wake (c : nat) (e : event) : bool :=
  match e with
  | EvReturn c' true _ => bool_decide (c' = c)
  | _ => false
  end.

(** The originating [Do] of [c] returned. *)
Definition is_orig_ret (c : nat) (e : event) : bool :=
  match e with
  | EvReturn c' false _ => bool_decide (c' = c)
  | _ => false
  end.

(** [c] was created, by [Do] ([byDo = true]) or by [DoChan]. *)
Definition is_born (c : nat) (byDo : bool) (e : event) : bool :=
  match e with
  | EvDo c' false => byDo && bool_decide (c' = c)
  | EvChan c' false _ => negb byDo && bool_decide (c' = c)
  | _ => false
  end.

(** The channels that [DoChan] returned to the callers of [c], in the
    order of their arrival. *)
Definition chan_of (c : nat) (e : event) : option nat :=
  match e with
  | EvChan c' _ ch => if bool_decide (c' = c) then Some ch else None
  | _ => None
  end.
Definition handed (c : nat) (evs : list event) : list nat := omap (chan_of c) evs.

Record acct_task (c : nat) (tk : task) (evs : list event) : Prop := MkAcct {
  a_wait : waiting tk + count (is_wake c) evs = count (is_do_join c) evs;
  a_chans : chans (obj tk) = handed c evs;
  a_born_do : count (is_born c true) evs = if inline tk then 1 else 0;
  a_born_chan : count (is_born c false) evs = if inline tk then 0 else 1;
  a_ret_inline : pc tk = AtReturn → inline tk = true;
  a_orig : count (is_orig_ret c) evs =
           match pc tk with
           | Ended => if inline tk then 1 else 0
           | _ => 0
           end
}.

(** What one step does to the call it works on. *)
Inductive change : action → nat → task → task → list event → Prop :=
  | change_join_do k d now now' c tk :
      change (ADo k d now now') c tk (join_task tk) [EvDo c true]
  | change_join_chan k d now now' c tk ch :
      change (ADoChan k d now now') c tk
        (set_obj (add_chan ch (inc_dups (obj tk))) tk) [EvChan c true ch]
  | change_forget k c tk :
      change (AForget k) c tk (set_obj (mark_forgotten (obj tk)) tk) []
  | change_fn c v e tk :
      pc tk = AtFn →
      change (AFn c v e) c tk
        (set_pc AtDone (set_obj (set_result v e (obj tk)) tk)) [EvCall c v e]
  | change_done c tk n :
      pc tk = AtDone →
      change (AWgDone c) c tk (set_pc AtLock (set_obj (set_wg n (obj tk)) tk)) []
  | change_lock c tk :
      pc tk = AtLock →
      change (AComplete c) c tk (set_pc (if inline tk then AtReturn else Ended) tk)
        ((λ ch, EvSend c ch (result_of (obj tk))) <$> chans (obj tk))
  | change_return c tk :
      pc tk = AtReturn →
      change (AReturn c) c tk (set_pc Ended tk)
        [EvReturn c false (result_of (obj tk))]
  | change_wake c tk n :
      waiting tk = S n →
      change (AWake c) c tk (set_waiting n tk)
        [EvReturn c true {| Val := val (obj tk); Err := err (obj tk); Shared := true |}].

(** The call that the create branch allocates, and its event. *)
Definition born (c : nat) (tk : task) (e : event) : Prop :=
  pc tk = AtFn ∧ waiting tk = 0 ∧
  ((inline tk = true ∧ e = EvDo c false ∧ chans (obj tk) = []) ∨
   (∃ ch, inline tk = false ∧ e = EvChan c false ch ∧ chans (obj tk) = [ch])).

Definition acct (w : world) (evs : list event) : Prop :=
  ∀ c tk, tasks w !! c = Some tk → acct_task c tk evs.

(** ** What a join and a completed call look like *)

(** The call [tk'] is [tk] after one caller joined it: [c.dups++] has
    run, the channels [cs] have been appended to [c.chans], [n] more
    callers are blocked in [c.wg.Wait()], and nothing else has changed;
    in particular the call is at the program point where it was. *)
Definition attached (cs : list nat) (n : nat) (tk tk' : task) : Prop :=
  dups (obj tk') = wrap64 (dups (obj tk) + 1) ∧
  chans (obj tk') = chans (obj tk) ++ cs ∧
  waiting tk' = waiting tk + n ∧
  wg (obj tk') = wg (obj tk) ∧ val (obj tk') = val (obj tk) ∧
  err (obj tk') = err (obj tk) ∧ forgotten (obj tk') = forgotten (obj tk) ∧
  key tk' = key tk ∧ pc tk' = pc tk ∧ inline tk' = inline tk.

(** The state after the join branch of [Do] or [DoChan]: the registry
    is as it was, no call has been allocated, and the one call joined
    has changed as [attached] says. *)
Definition joined (c : nat) (cs : list nat) (n : nat) (w w1 : world) : Prop :=
  grp w1 = grp w ∧ length (tasks w1) = length (tasks w) ∧
  (∀ c', c' ≠ c → tasks w1 !! c' = tasks w !! c') ∧
  ∃ tk tk', tasks w !! c = Some tk ∧ tasks w1 !! c = Some tk' ∧
            attached cs n tk tk'.

(** The state [w] with the call at address [c] replaced by [tk]. *)
Definition with_task (c : nat) (tk : task) (w : world) : world :=
  {| grp := grp w; tasks := <[c := tk]> (tasks w); bufs := bufs w |}.

(** The state [w] after a receive has emptied the buffer of [ch]. *)
Definition received (ch : nat) (w : world) : world :=
  {| grp := grp w; tasks := tasks w; bufs := <[ch := []]> (bufs w) |}.

(** A call at line 111 served to its end: the operation returns
    [(v, e)], the wait group is released, the [Do] callers blocked on it
    return, the critical section of [doCall] runs, the originating [Do]
    (if any) returns, and every channel of the call is received from. *)
Definition settle (c : nat) (tk : task) (v : any) (e : error) : list action :=
  [AFn c v e; AWgDone c] ++ replicate (waiting tk) (AWake c) ++ [AComplete c] ++
  (if inline tk then [AReturn c] else []) ++ (ARecv <$> chans (obj tk)).

Definition settle_events (c : nat) (tk : task) (v : any) (e : error) : list event :=
  [EvCall c v e] ++
  replicate (waiting tk) (EvReturn c true {| Val := v; Err := e; Shared := true |}) ++
  ((λ ch, EvSend c ch {| Val := v; Err := e; Shared := (dups (obj tk) >? 0)%Z |})
     <$> chans (obj tk)) ++
  (if inline tk
   then [EvReturn c false {| Val := v; Err := e; Shared := (dups (obj tk) >? 0)%Z |}]
   else []) ++
  ((λ ch, EvRecv ch {| Val := v; Err := e; Shared := (dups (obj tk) >? 0)%Z |})
     <$> chans (obj tk)).

(** ** Further sample executions *)


(** A call created by [DoChan] and joined by a [Do]; the operation has
    not returned. *)
Definition pending_schedule : list action :=
  [ADoChan "key" 0 0 0; ADo "key" 0 0 0].
Definition pending_world : world :=
  Eval vm_compute in
    match run pending_schedule init with Ok r => r.1 | _ => init end.
Definition pending_events : list event :=
  Eval vm_compute in
    match run pending_schedule init with Ok r => r.2 | _ => [] end.


(** * Properties *)

(** ** Basic facts *)

Lemma lookup_upd {A} (l : list A) c x c' y :
  <[c := x]> l !! c' = Some y →
  (c' = c ∧ y = x ∧ c < length l) ∨ (c' ≠ c ∧ l !! c' = Some y).
Proof.
  intros H. apply list_lookup_insert_Some in H. naive_solver.
Qed.

Lemma lookup_snoc_inv {A} (l : list A) x c y :
  (l ++ [x]) !! c = Some y →
  (c = length l ∧ y = x) ∨ (c < length l ∧ l !! c = Some y).
Proof.
  intros H. apply lookup_snoc_Some in H.
  destruct H as [[? ?]|[? ?]]; [right|left]; auto.
Qed.

Lemma get_call_lazy_init g k : get_call (lazy_init g) k = get_call g k.
Proof. unfold get_call, lazy_init. destruct (m g) eqn:E; simpl; rewrite ?E; done. Qed.

Lemma get_exp_lazy_init g k :
  (m g = None ↔ t g = None) → get_exp (lazy_init g) k = get_exp g k.
Proof.
  unfold get_exp, lazy_init. intros [H1 H2].
  destruct (m g) eqn:E; simpl; [done|]. by rewrite H1.
Qed.

Lemma lazy_init_maps g :
  (m g = None ↔ t g = None) → is_Some (m (lazy_init g)) ∧ is_Some (t (lazy_init g)).
Proof.
  unfold lazy_init. intros [H1 H2].
  destruct (m g) eqn:E; simpl; [|eauto].
  rewrite E. split; [eauto|]. destruct (t g) eqn:E'; [eauto|]. by specialize (H2 eq_refl).
Qed.

Lemma put_entry_ok g k c x :
  is_Some (m g) → is_Some (t g) → ∃ g', put_entry g k c x = Ok g'.
Proof. intros [mm E1] [tm E2]. unfold put_entry. rewrite E1, E2. eauto. Qed.

Lemma put_entry_call g k c x g' k' :
  put_entry g k c x = Ok g' →
  get_call g' k' = if decide (k = k') then Some c else get_call g k'.
Proof.
  unfold put_entry, get_call. destruct (m g), (t g); try done.
  intros [= <-]. simpl. by rewrite lookup_insert.
Qed.

Lemma put_entry_exp g k c x g' k' :
  put_entry g k c x = Ok g' →
  get_exp g' k' = if decide (k = k') then Some x else get_exp g k'.
Proof.
  unfold put_entry, get_exp. destruct (m g), (t g); try done.
  intros [= <-]. simpl. by rewrite lookup_insert.
Qed.

Lemma put_entry_maps g k c x g' :
  put_entry g k c x = Ok g' → is_Some (m g') ∧ is_Some (t g').
Proof.
  unfold put_entry. destruct (m g), (t g); try done. intros [= <-]. simpl. eauto.
Qed.

Lemma del_entry_call g k k' :
  get_call (del_entry g k) k' = if decide (k = k') then None else get_call g k'.
Proof.
  unfold del_entry, get_call. simpl. destruct (m g); simpl.
  - by rewrite lookup_delete.
  - by case_decide.
Qed.

Lemma del_entry_exp g k k' :
  get_exp (del_entry g k) k' = if decide (k = k') then None else get_exp g k'.
Proof.
  unfold del_entry, get_exp. simpl. destruct (t g); simpl.
  - by rewrite lookup_delete.
  - by case_decide.
Qed.

Lemma del_entry_maps g k :
  (m g = None ↔ t g = None) → (m (del_entry g k) = None ↔ t (del_entry g k) = None).
Proof. unfold del_entry. simpl. destruct (m g), (t g); simpl; naive_solver. Qed.

Lemma joinable_Some g k now c :
  joinable g k now = Some c ↔ get_call g k = Some c ∧ (get_time g k > now)%Z.
Proof.
  unfold joinable. destruct (get_call g k) as [c'|]; [|by intuition].
  destruct (Z.gtb_spec (get_time g k) now); split.
  - intros [= ->]. split; [done|lia].
  - by intros [? _].
  - done.
  - intros [_ ?]. lia.
Qed.

(** ** Preservation of well-formedness *)

Lemma wf_init : wf init.
Proof.
  split; simpl; done.
Qed.

Lemma wf_lazy_init w :
  wf w → wf {| grp := lazy_init (grp w); tasks := tasks w; bufs := bufs w |}.
Proof.
  intros [Hm Hd Hr Hw Hl Hi He]. split; simpl; try done.
  - unfold lazy_init. destruct (m (grp w)) eqn:E; simpl; [by rewrite E|]. split; done.
  - intros k. rewrite get_call_lazy_init, get_exp_lazy_init; done.
  - intros k c. rewrite get_call_lazy_init. apply Hr.
Qed.

(** One task changes, keeping its key and channels and staying
    completed if it was; the registry may lose entries. *)
Lemma wf_update w c tk tk' g' :
  wf w → tasks w !! c = Some tk →
  key tk' = key tk → chans (obj tk') = chans (obj tk) →
  (live (pc tk') = true → live (pc tk) = true) →
  wg (obj tk') = (if signalled (pc tk') then 0 else 1) →
  (m g' = None ↔ t g' = None) →
  (∀ k, get_call g' k = None ↔ get_exp g' k = None) →
  (∀ k c', get_call g' k = Some c' →
     get_call (grp w) k = Some c' ∧
     (c' = c → forgotten (obj tk') = false ∧ live (pc tk') = true)) →
  wf {| grp := g'; tasks := <[c := tk']> (tasks w); bufs := bufs w |}.
Proof.
  intros [Hm Hd Hr Hw Hl Hi He] Hc Hkey Hch Hlive Hwg Hm' Hd' Hreg.
  split; simpl; try done.
  - intros k c' Hk. destruct (Hreg _ _ Hk) as [Hk0 Hc'].
    destruct (Hr _ _ Hk0) as (tk0 & H0 & Hk1 & Hf & Hl0).
    destruct (decide (c' = c)) as [->|Hne].
    + exists tk'. rewrite list_lookup_insert_eq by eauto using lookup_lt_Some.
      destruct (Hc' eq_refl). simplify_eq. rewrite Hkey. done.
    + exists tk0. rewrite list_lookup_insert_ne by done. done.
  - intros c' x Hx. apply lookup_upd in Hx as [(-> & -> & _)|[_ Hx]]; eauto.
  - intros c' x ch Hx Hin. apply lookup_upd in Hx as [(-> & -> & _)|[_ Hx]]; [|eauto].
    rewrite Hch in Hin. eauto.
  - intros c1 c2 x1 x2 i j ch H1 H2 Hi1 Hi2.
    apply lookup_upd in H1 as [(-> & -> & _)|[N1 H1]];
      apply lookup_upd in H2 as [(-> & -> & _)|[N2 H2]];
      rewrite ?Hch in *; eauto.
  - intros c' x ch Hx Hlv Hin. apply lookup_upd in Hx as [(-> & -> & _)|[_ Hx]]; [|eauto].
    rewrite Hch in Hin. eauto.
Qed.

(** The buffers change, but not those of channels of live calls. *)
Lemma wf_bufs w bs :
  wf w → length (bufs w) ≤ length bs →
  (∀ c tk ch, tasks w !! c = Some tk → live (pc tk) = true →
     ch ∈ chans (obj tk) → bs !! ch = bufs w !! ch) →
  wf {| grp := grp w; tasks := tasks w; bufs := bs |}.
Proof.
  intros [Hm Hd Hr Hw Hl Hi He] Hlen Hsame. split; simpl; try done.
  - intros c tk ch Hc Hin. specialize (Hl _ _ _ Hc Hin). lia.
  - intros c tk ch Hc Hlv Hin. rewrite (Hsame _ _ _ Hc Hlv Hin). eauto.
Qed.

(** A new call is allocated and registered under [k]. *)
Lemma wf_create w k x isinline cs g' :
  wf w → is_Some (m (grp w)) →
  put_entry (grp w) k (length (tasks w)) x = Ok g' →
  (∀ ch, ch ∈ cs → ch < length (bufs w) ∧ bufs w !! ch = Some [] ∧
     ∀ c tk, tasks w !! c = Some tk → ch ∉ chans (obj tk)) →
  NoDup cs →
  wf {| grp := g';
        tasks := tasks w ++ [{| obj := new_call cs; key := k; pc := AtFn;
                                inline := isinline; waiting := 0 |}];
        bufs := bufs w |}.
Proof.
  intros [Hm Hd Hr Hw Hl Hi He] Hsm Hput Hcs Hnd. split; simpl.
  - destruct (put_entry_maps _ _ _ _ _ Hput) as [[? E1] [? E2]].
    rewrite E1, E2. split; done.
  - intros k'. rewrite (put_entry_call _ _ _ _ _ k' Hput), (put_entry_exp _ _ _ _ _ k' Hput).
    case_decide; [split; done|apply Hd].
  - intros k' c. rewrite (put_entry_call _ _ _ _ _ k' Hput). case_decide.
    + intros [= <-]. eexists. rewrite lookup_app_r, Nat.sub_diag by done. simpl.
      split; [done|]. done.
    + intros Hk. destruct (Hr _ _ Hk) as (tk & H0 & ?). exists tk.
      split; [|done]. by apply lookup_app_l_Some.
  - intros c tk Hc. apply lookup_snoc_inv in Hc as [[-> ->]|[_ Hc]]; [done|eauto].
  - intros c tk ch Hc Hin. apply lookup_snoc_inv in Hc as [[-> ->]|[_ Hc]]; [|eauto].
    simpl in Hin. by apply Hcs.
  - intros c1 c2 x1 x2 i j ch H1 H2 Hi1 Hi2.
    apply lookup_snoc_inv in H1 as [[-> ->]|[L1 H1]];
      apply lookup_snoc_inv in H2 as [[-> ->]|[L2 H2]]; simpl in *.
    + split; [done|]. eapply NoDup_lookup; eauto.
    + exfalso. destruct (Hcs ch) as (_ & _ & Hno); [by eapply list_elem_of_lookup_2|].
      eapply Hno; [done|]. by eapply list_elem_of_lookup_2.
    + exfalso. destruct (Hcs ch) as (_ & _ & Hno); [by eapply list_elem_of_lookup_2|].
      eapply Hno; [done|]. by eapply list_elem_of_lookup_2.
    + eauto.
  - intros c tk ch Hc Hlv Hin. apply lookup_snoc_inv in Hc as [[-> ->]|[_ Hc]]; [|eauto].
    simpl in Hin. by apply Hcs.
Qed.

(** A channel is allocated. *)
Lemma wf_make_chan w :
  wf w → wf {| grp := grp w; tasks := tasks w; bufs := bufs w ++ [[]] |}.
Proof.
  intros Hwf. apply (wf_bufs w); [done| |].
  - rewrite length_app. simpl. lia.
  - intros c tk ch Hc _ Hin. apply lookup_app_l. eapply wf_chan_lt; eauto.
Qed.

(** A fresh, empty channel is appended to the channels of a live call. *)
Lemma wf_add_chan w c tk o' ch :
  wf w → tasks w !! c = Some tk →
  wg o' = wg (obj tk) → forgotten o' = forgotten (obj tk) →
  chans o' = chans (obj tk) ++ [ch] →
  ch < length (bufs w) → bufs w !! ch = Some [] →
  (∀ c' tk', tasks w !! c' = Some tk' → ch ∉ chans (obj tk')) →
  wf {| grp := grp w; tasks := <[c := set_obj o' tk]> (tasks w); bufs := bufs w |}.
Proof.
  intros [Hm Hd Hr Hw Hl Hi He] Hc Hwg Hfg Hch Hlt Hemp Hfresh.
  split; simpl; try done.
  - intros k c' Hk. destruct (Hr _ _ Hk) as (tk0 & H0 & Hk1 & Hf & Hl0).
    destruct (decide (c' = c)) as [->|Hne].
    + eexists. rewrite list_lookup_insert_eq by eauto using lookup_lt_Some.
      simplify_eq. split; [done|]. simpl. rewrite Hfg. done.
    + exists tk0. rewrite list_lookup_insert_ne by done. done.
  - intros c' x Hx. apply lookup_upd in Hx as [(-> & -> & _)|[_ Hx]]; [|eauto].
    simpl. rewrite Hwg. eauto.
  - intros c' x ch' Hx Hin. apply lookup_upd in Hx as [(-> & -> & _)|[_ Hx]]; [|eauto].
    simpl in Hin. rewrite Hch in Hin. apply elem_of_app in Hin as [Hin|Hin]; [eauto|].
    apply list_elem_of_singleton in Hin as ->. done.
  - assert (Hsnoc : ∀ i ch', (chans (obj tk) ++ [ch]) !! i = Some ch' →
        (i = length (chans (obj tk)) ∧ ch' = ch) ∨ chans (obj tk) !! i = Some ch').
    { intros i ch' H. apply lookup_snoc_inv in H. tauto. }
    intros c1 c2 x1 x2 i j ch' H1 H2 Hi1 Hi2.
    apply lookup_upd in H1 as [(-> & -> & _)|[N1 H1]];
      apply lookup_upd in H2 as [(-> & -> & _)|[N2 H2]]; simpl in *;
      rewrite ?Hch in *.
    + split; [done|].
      apply Hsnoc in Hi1 as [[-> ->]|Hi1]; apply Hsnoc in Hi2 as [[-> ?]|Hi2];
        simplify_eq; try done.
      * exfalso. eapply Hfresh; [exact Hc|]. by eapply list_elem_of_lookup_2.
      * exfalso. eapply Hfresh; [exact Hc|]. by eapply list_elem_of_lookup_2.
      * by destruct (Hi _ _ _ _ _ _ _ Hc Hc Hi1 Hi2).
    + apply Hsnoc in Hi1 as [[-> ->]|Hi1]; [|eauto].
      exfalso. eapply Hfresh; [exact H2|]. by eapply list_elem_of_lookup_2.
    + apply Hsnoc in Hi2 as [[-> ->]|Hi2]; [|eauto].
      exfalso. eapply Hfresh; [exact H1|]. by eapply list_elem_of_lookup_2.
    + eauto.
  - intros c' x ch' Hx Hlv Hin. apply lookup_upd in Hx as [(-> & -> & _)|[_ Hx]]; [|eauto].
    simpl in *. rewrite Hch in Hin. apply elem_of_app in Hin as [Hin|Hin]; [eauto|].
    apply list_elem_of_singleton in Hin as ->. done.
Qed.

(** *** The loop of sends *)

Lemma send_Some ch r bs bs' :
  send ch r bs = Some bs' ↔ bs !! ch = Some [] ∧ bs' = <[ch := [r]]> bs.
Proof.
  unfold send. destruct (bs !! ch) as [b|] eqn:E; [|by intuition].
  case_decide as Hlen; destruct b as [|x b]; simpl in Hlen; try lia.
  - split; [by intros [= <-]|by intros [_ ->]].
  - split; [done|by intros [[=] _]].
Qed.

Lemma deliver_cons c r ch cs bs bs' es :
  deliver c r (ch :: cs) bs = Some (bs', es) ↔
  ∃ es', bs !! ch = Some [] ∧
    deliver c r cs (<[ch := [r]]> bs) = Some (bs', es') ∧ es = EvSend c ch r :: es'.
Proof.
  simpl. destruct (send ch r bs) as [bs1|] eqn:E.
  - apply send_Some in E as [E ->].
    destruct (deliver c r cs _) as [[bs2 es2]|]; split.
    + intros [= <- <-]. eauto.
    + by intros (es' & _ & [= <- <-] & ->).
    + done.
    + by intros (es' & _ & [=] & _).
  - split; [done|]. intros (es' & Hb & _).
    assert (Hs : send ch r bs = Some (<[ch := [r]]> bs)) by by apply send_Some.
    congruence.
Qed.

Lemma deliver_length c r cs bs bs' es :
  deliver c r cs bs = Some (bs', es) → length bs' = length bs.
Proof.
  revert bs es. induction cs as [|ch cs IH]; intros bs es H.
  - simpl in H. by simplify_eq.
  - apply deliver_cons in H as (es' & _ & H & _).
    rewrite (IH _ _ H). apply length_insert.
Qed.

Lemma deliver_other c r cs bs bs' es ch :
  deliver c r cs bs = Some (bs', es) → ch ∉ cs → bs' !! ch = bs !! ch.
Proof.
  revert bs es. induction cs as [|ch' cs IH]; intros bs es H Hn.
  - simpl in H. by simplify_eq.
  - apply deliver_cons in H as (es' & _ & H & _).
    apply not_elem_of_cons in Hn as [Hne Hn].
    rewrite (IH _ _ H Hn). by apply list_lookup_insert_ne.
Qed.

Lemma deliver_sent c r cs bs bs' es ch :
  deliver c r cs bs = Some (bs', es) → ch ∈ cs → bs' !! ch = Some [r].
Proof.
  revert bs es. induction cs as [|ch' cs IH]; intros bs es H Hin.
  - by apply elem_of_nil in Hin.
  - apply deliver_cons in H as (es' & E & H & _).
    destruct (decide (ch ∈ cs)) as [Hc|Hc]; [by eapply IH|].
    apply elem_of_cons in Hin as [->|Hin]; [|done].
    rewrite (deliver_other _ _ _ _ _ _ _ H Hc).
    apply list_lookup_insert_eq. by eapply lookup_lt_Some.
Qed.

(** The sends happen in the order of the list. *)
Lemma deliver_events c r cs bs bs' es :
  deliver c r cs bs = Some (bs', es) → es = (λ ch, EvSend c ch r) <$> cs.
Proof.
  revert bs es. induction cs as [|ch cs IH]; intros bs es H.
  - simpl in H. by simplify_eq.
  - apply deliver_cons in H as (es' & _ & H & ->). simpl. by rewrite (IH _ _ H).
Qed.

(** On distinct channels with empty buffers no send blocks. *)
Lemma deliver_ok c r cs bs :
  NoDup cs → (∀ ch, ch ∈ cs → bs !! ch = Some []) →
  ∃ bs', deliver c r cs bs = Some (bs', (λ ch, EvSend c ch r) <$> cs).
Proof.
  revert bs. induction cs as [|ch cs IH]; intros bs Hnd Hemp; [simpl; eauto|].
  apply NoDup_cons in Hnd as [Hn Hnd].
  destruct (IH (<[ch := [r]]> bs) Hnd) as [bs' H].
  { intros ch' Hin. rewrite list_lookup_insert_ne by (intros ->; done).
    apply Hemp. by right. }
  exists bs'. apply deliver_cons. eexists. split; [apply Hemp; by left|]. by split.
Qed.

Lemma doCall_lock_Ok c w w' es :
  doCall_lock c w = Ok (w', es) →
  ∃ tk, tasks w !! c = Some tk ∧ pc tk = AtLock ∧
    grp w' = (if forgotten (obj tk) then grp w else del_entry (grp w) (key tk)) ∧
    tasks w' = <[c := set_pc (if inline tk then AtReturn else Ended) tk]> (tasks w) ∧
    deliver c (result_of (obj tk)) (chans (obj tk)) (bufs w) = Some (bufs w', es) ∧
    es = (λ ch, EvSend c ch (result_of (obj tk))) <$> chans (obj tk).
Proof.
  unfold doCall_lock. intros H.
  destruct (tasks w !! c) as [tk|] eqn:Ec; [|done].
  destruct (pc tk) eqn:Ep; try done.
  destruct (deliver _ _ _ _) as [[bs es0]|] eqn:Ed; [|done].
  pose proof (deliver_events _ _ _ _ _ _ Ed) as Hes. simplify_eq.
  exists tk. done.
Qed.

Lemma wf_chans_NoDup w c tk :
  wf w → tasks w !! c = Some tk → NoDup (chans (obj tk)).
Proof.
  intros Hwf Hc. apply NoDup_alt. intros i j ch Hi Hj.
  by destruct (wf_chan_inj _ Hwf _ _ _ _ _ _ _ Hc Hc Hi Hj).
Qed.

(** *** Each operation preserves well-formedness *)

Lemma wf_shrink w g' :
  wf w → (m g' = None ↔ t g' = None) →
  (∀ k, get_call g' k = None ↔ get_exp g' k = None) →
  (∀ k c, get_call g' k = Some c → get_call (grp w) k = Some c) →
  wf {| grp := g'; tasks := tasks w; bufs := bufs w |}.
Proof.
  intros [Hm Hd Hr Hw Hl Hi He] Hm' Hd' Hsub. split; simpl; eauto.
Qed.

Lemma wf_del_entry_dom w k k' :
  wf w → get_call (del_entry (grp w) k) k' = None ↔ get_exp (del_entry (grp w) k) k' = None.
Proof.
  intros Hwf. rewrite del_entry_call, del_entry_exp. case_decide; [done|].
  apply (wf_dom _ Hwf).
Qed.

Lemma alter_as_insert {A} (f : A → A) (l : list A) c x :
  l !! c = Some x → alter f c l = <[c := f x]> l.
Proof.
  intros H. apply list_eq. intros i. destruct (decide (c = i)) as [->|Hne].
  - rewrite list_lookup_alter_eq, H, list_lookup_insert_eq; [done|].
    by eapply lookup_lt_Some.
  - by rewrite list_lookup_alter_ne, list_lookup_insert_ne.
Qed.

Lemma Do_lock_wf k d now now' w w' dec :
  wf w → Do_lock k d now now' w = Ok (w', dec) → wf w'.
Proof.
  intros Hwf H. pose proof (wf_lazy_init _ Hwf) as Hwf0.
  unfold Do_lock in H. destruct (joinable _ k now) as [c|] eqn:Ej.
  - destruct (tasks w !! c) as [tk|] eqn:Ec; [|done]. simplify_eq.
    eapply (wf_update _ c tk _ _ Hwf0); simpl; try done.
    + apply (wf_wg _ Hwf _ _ Ec).
    + apply (wf_maps _ Hwf0).
    + apply (wf_dom _ Hwf0).
    + intros k' c' Hk. split; [done|]. intros ->.
      destruct (wf_reg _ Hwf0 _ _ Hk) as (tk' & E & _ & ? & ?). simpl in E.
      by simplify_eq.
  - unfold create in H.
    destruct (put_entry _ k _ _) as [g'| |] eqn:Ep; [|done..]. simpl in H. simplify_eq.
    eapply (wf_create _ _ _ _ _ _ Hwf0); simpl; eauto.
    + apply lazy_init_maps, (wf_maps _ Hwf).
    + intros ch Hin. by apply elem_of_nil in Hin.
    + constructor.
Qed.

Lemma DoChan_lock_wf k d now now' w w' dec ch :
  wf w → DoChan_lock k d now now' w = Ok (w', dec, ch) → wf w'.
Proof.
  intros Hwf H. pose proof (wf_lazy_init _ (wf_make_chan _ Hwf)) as Hwf0. simpl in Hwf0.
  assert (Hfresh : ∀ c' tk', tasks w !! c' = Some tk' → length (bufs w) ∉ chans (obj tk')).
  { intros c' tk' E Hin. pose proof (wf_chan_lt _ Hwf _ _ _ E Hin). lia. }
  assert (Hnew : (bufs w ++ [[]]) !! length (bufs w) = Some (@nil Result)).
  { by rewrite lookup_app_r, Nat.sub_diag. }
  unfold DoChan_lock in H. destruct (joinable _ k now) as [c|] eqn:Ej.
  - destruct (tasks w !! c) as [tk|] eqn:Ec; [|done]. simplify_eq.
    eapply (wf_add_chan _ c tk _ (length (bufs w)) Hwf0); simpl; try done.
    rewrite length_app. simpl. lia.
  - unfold create in H. simpl in H.
    destruct (put_entry _ k _ _) as [g'| |] eqn:Ep; [|done..]. simpl in H. simplify_eq.
    eapply (wf_create _ _ _ _ _ _ Hwf0); simpl; eauto.
    + apply lazy_init_maps, (wf_maps _ Hwf).
    + intros ch Hin. apply list_elem_of_singleton in Hin as ->.
      split; [rewrite length_app; simpl; lia|]. split; [done|]. apply Hfresh.
    + apply NoDup_singleton.
Qed.

Lemma Forget_wf k w : wf w → wf (Forget k w).
Proof.
  intros Hwf. unfold Forget. destruct (get_call (grp w) k) as [c|] eqn:Ek.
  - destruct (wf_reg _ Hwf _ _ Ek) as (tk & Ec & Hkey & Hf & Hl).
    rewrite (alter_as_insert _ _ _ _ Ec).
    eapply (wf_update _ c tk _ _ Hwf); simpl; try done.
    + apply (wf_wg _ Hwf _ _ Ec).
    + apply del_entry_maps, (wf_maps _ Hwf).
    + intros k'. by apply wf_del_entry_dom.
    + intros k' c'. rewrite del_entry_call. case_decide; [done|].
      intros Hk. split; [done|]. intros ->.
      destruct (wf_reg _ Hwf _ _ Hk) as (tk' & E & ? & _). by simplify_eq.
  - apply wf_shrink; [done| | |].
    + apply del_entry_maps, (wf_maps _ Hwf).
    + intros k'. by apply wf_del_entry_dom.
    + intros k' c'. rewrite del_entry_call. by case_decide.
Qed.

Lemma doCall_fn_wf c v e w w' es :
  wf w → doCall_fn c v e w = Ok (w', es) → wf w'.
Proof.
  intros Hwf H. unfold doCall_fn in H.
  destruct (tasks w !! c) as [tk|] eqn:Ec; [|done].
  destruct (pc tk) eqn:Ep; try done. simplify_eq.
  pose proof (wf_wg _ Hwf _ _ Ec) as Hwg. rewrite Ep in Hwg.
  eapply (wf_update _ c tk _ _ Hwf); simpl; try done; try (by rewrite Ep).
  - apply (wf_maps _ Hwf).
  - apply (wf_dom _ Hwf).
  - intros k c' Hk. split; [done|]. intros ->.
    destruct (wf_reg _ Hwf _ _ Hk) as (tk' & E & _ & ? & ?). by simplify_eq.
Qed.

Lemma doCall_done_wf c w w' es :
  wf w → doCall_done c w = Ok (w', es) → wf w'.
Proof.
  intros Hwf H. unfold doCall_done in H.
  destruct (tasks w !! c) as [tk|] eqn:Ec; [|done].
  destruct (pc tk) eqn:Ep; try done.
  pose proof (wf_wg _ Hwf _ _ Ec) as Hwg. rewrite Ep in Hwg. simpl in Hwg.
  rewrite Hwg in H. simplify_eq.
  eapply (wf_update _ c tk _ _ Hwf); simpl; try done; try (by rewrite Ep).
  - apply (wf_maps _ Hwf).
  - apply (wf_dom _ Hwf).
  - intros k c' Hk. split; [done|]. intros ->.
    destruct (wf_reg _ Hwf _ _ Hk) as (tk' & E & _ & ? & ?). by simplify_eq.
Qed.

Lemma Do_return_wf c w w' es :
  wf w → Do_return c w = Ok (w', es) → wf w'.
Proof.
  intros Hwf H. unfold Do_return in H.
  destruct (tasks w !! c) as [tk|] eqn:Ec; [|done].
  destruct (pc tk) eqn:Ep; try done. simplify_eq.
  pose proof (wf_wg _ Hwf _ _ Ec) as Hwg. rewrite Ep in Hwg.
  eapply (wf_update _ c tk _ _ Hwf); simpl; try done; try (by rewrite Ep).
  - apply (wf_maps _ Hwf).
  - apply (wf_dom _ Hwf).
  - intros k c' Hk. split; [done|]. intros ->.
    destruct (wf_reg _ Hwf _ _ Hk) as (tk' & E & _ & ? & Hl). simplify_eq.
    by rewrite Ep in Hl.
Qed.

Lemma Do_wake_wf c w w' es :
  wf w → Do_wake c w = Ok (w', es) → wf w'.
Proof.
  intros Hwf H. unfold Do_wake in H.
  destruct (tasks w !! c) as [tk|] eqn:Ec; [|done].
  destruct (waiting tk) as [|n] eqn:En; [done|].
  destruct (wg (obj tk)) eqn:Eg; [|done]. simplify_eq.
  pose proof (wf_wg _ Hwf _ _ Ec) as Hwg.
  eapply (wf_update _ c tk _ _ Hwf); simpl; try done.
  - apply (wf_maps _ Hwf).
  - apply (wf_dom _ Hwf).
  - intros k c' Hk. split; [done|]. intros ->.
    destruct (wf_reg _ Hwf _ _ Hk) as (tk' & E & _ & ? & ?). by simplify_eq.
Qed.

Lemma doCall_lock_wf c w w' es :
  wf w → doCall_lock c w = Ok (w', es) → wf w'.
Proof.
  intros Hwf H. unfold doCall_lock in H.
  destruct (tasks w !! c) as [tk|] eqn:Ec; [|done].
  destruct (pc tk) eqn:Ep; try done.
  destruct (deliver _ _ _ _) as [[bs es0]|] eqn:Ed; [|done].
  pose proof (deliver_events _ _ _ _ _ _ Ed) as Hes. simplify_eq.
  pose proof (wf_wg _ Hwf _ _ Ec) as Hwg. rewrite Ep in Hwg. simpl in Hwg.
  set (tk' := set_pc (if inline tk then AtReturn else Ended) tk).
  set (g' := if forgotten (obj tk) then grp w else del_entry (grp w) (key tk)).
  assert (Hdead : live (pc tk') = false) by (unfold tk'; simpl; by destruct (inline tk)).
  assert (Hwf1 : wf {| grp := g'; tasks := <[c := tk']> (tasks w); bufs := bufs w |}).
  { eapply (wf_update _ c tk _ _ Hwf); simpl; try done.
    - by destruct (inline tk).
    - by destruct (inline tk).
    - unfold g'. destruct (forgotten (obj tk)); [apply (wf_maps _ Hwf)|].
      apply del_entry_maps, (wf_maps _ Hwf).
    - intros k. unfold g'. destruct (forgotten (obj tk)); [apply (wf_dom _ Hwf)|].
      by apply wf_del_entry_dom.
    - intros k c' Hk.
      assert (Hk0 : get_call (grp w) k = Some c' ∧ (forgotten (obj tk) = false → key tk ≠ k)).
      { unfold g' in Hk. destruct (forgotten (obj tk)); [done|].
        rewrite del_entry_call in Hk. by case_decide. }
      destruct Hk0 as [Hk0 Hkey]. split; [done|]. intros ->.
      destruct (wf_reg _ Hwf _ _ Hk0) as (tk0 & E & ? & ? & _). simplify_eq.
      exfalso. by apply Hkey. }
  apply (wf_bufs _ bs) in Hwf1; simpl in *; [done| |].
  - by rewrite (deliver_length _ _ _ _ _ _ Ed).
  - intros c' x ch Hx Hlv Hin. eapply deliver_other; [done|]. intros Hin'.
    apply lookup_upd in Hx as [(-> & -> & _)|[Hne Hx]].
    { clear -Hlv. unfold tk' in Hlv. simpl in Hlv. by destruct (inline tk). }
    apply list_elem_of_lookup in Hin as [i Hi], Hin' as [j Hj].
    by destruct (wf_chan_inj _ Hwf _ _ _ _ _ _ _ Hx Ec Hi Hj).
Qed.

Lemma recv_wf ch w w' es :
  wf w → recv ch w = Ok (w', es) → wf w'.
Proof.
  intros Hwf H. unfold recv in H.
  destruct (bufs w !! ch) as [[|r b]|] eqn:Eb; try done. simplify_eq.
  apply (wf_bufs w); [done| |].
  - by rewrite length_insert.
  - intros c tk ch' Hc Hlv Hin. apply list_lookup_insert_ne. intros ->.
    rewrite (wf_chan_empty _ Hwf _ _ _ Hc Hlv Hin) in Eb. done.
Qed.

Lemma step_wf a w w' es : wf w → step a w = Ok (w', es) → wf w'.
Proof.
  intros Hwf H. destruct a; simpl in H.
  - destruct (Do_lock _ _ _ _ _) as [[w1 dec]| |] eqn:E; [|done..].
    simpl in H. simplify_eq. eauto using Do_lock_wf.
  - destruct (DoChan_lock _ _ _ _ _) as [[[w1 dec] ch]| |] eqn:E; [|done..].
    simpl in H. simplify_eq. eauto using DoChan_lock_wf.
  - simplify_eq. by apply Forget_wf.
  - eauto using doCall_fn_wf.
  - eauto using doCall_done_wf.
  - eauto using doCall_lock_wf.
  - eauto using Do_return_wf.
  - eauto using Do_wake_wf.
  - eauto using recv_wf.
Qed.

Lemma run_cons_Ok a acts w w' evs :
  run (a :: acts) w = Ok (w', evs) ↔
  ∃ w1 e1 e2, step a w = Ok (w1, e1) ∧ run acts w1 = Ok (w', e2) ∧ evs = e1 ++ e2.
Proof.
  simpl. split.
  - intros H. destruct (step a w) as [[w1 e1]| |]; simpl in H; [|done..].
    destruct (run acts w1) as [[w2 e2]| |] eqn:Er; simpl in H; [|done..].
    simplify_eq. eauto 6.
  - intros (w1 & e1 & e2 & Hs & Hr & ->). rewrite Hs. simpl. by rewrite Hr.
Qed.

Lemma run_wf acts w w' evs : wf w → run acts w = Ok (w', evs) → wf w'.
Proof.
  revert w evs. induction acts as [|a acts IH]; intros w evs Hwf H.
  - simpl in H. by simplify_eq.
  - apply run_cons_Ok in H as (w1 & e1 & e2 & Hs & Hr & _).
    eauto using step_wf.
Qed.


(** ** Counting events *)

Lemma count_app f l1 l2 : count f (l1 ++ l2) = count f l1 + count f l2.
Proof. unfold count. by rewrite List.filter_app, length_app. Qed.

Lemma count_zero f l : (∀ e, e ∈ l → f e = false) → count f l = 0.
Proof.
  unfold count. induction l as [|x l IH]; simpl; intros H; [done|].
  rewrite (H x) by by left. apply IH. intros e He. apply H. by right.
Qed.

Lemma count_zero_elem f l e : count f l = 0 → e ∈ l → f e = false.
Proof.
  unfold count. induction l as [|x l IH]; simpl; intros H He.
  - by apply elem_of_nil in He.
  - destruct (f x) eqn:Ex; [done|].
    apply elem_of_cons in He as [->|He]; [done|by apply IH].
Qed.



Lemma is_join_call c e : is_join c e = true → ev_call e = Some c.
Proof.
  destruct e as [c' j|c' j ch|? ? ?|? ? ?|? ? ?|? ?]; simpl; try done;
    destruct j; try done; intros H; apply bool_decide_eq_true in H; by subst.
Qed.

Lemma is_call_call c e : is_call c e = true → ev_call e = Some c.
Proof.
  destruct e; simpl; try done. intros H. apply bool_decide_eq_true in H. by subst.
Qed.

Lemma wrap64_succ x : wrap64 (wrap64 x + 1) = wrap64 (x + 1).
Proof.
  unfold wrap64. f_equal.
  replace ((x + 2 ^ 63) mod 2 ^ 64 - 2 ^ 63 + 1 + 2 ^ 63)%Z
    with ((x + 2 ^ 63) mod 2 ^ 64 + 1)%Z by lia.
  rewrite Zplus_mod_idemp_l. f_equal. lia.
Qed.

Lemma wrap64_small x : (MinInt64 ≤ x ≤ MaxInt64)%Z → wrap64 x = x.
Proof.
  unfold wrap64, MinInt64, MaxInt64. intros H.
  rewrite Z.mod_small; lia.
Qed.

(** Sends on the channels [cs], one each: how many go to [ch]. *)
Lemma count_sends_notin c r ch cs :
  ch ∉ cs → count (is_send ch) ((λ x, EvSend c x r) <$> cs) = 0.
Proof.
  intros Hn. apply count_zero. intros e (x & -> & Hx)%list_elem_of_fmap. simpl.
  apply bool_decide_eq_false. by intros ->.
Qed.

Lemma count_sends_in c r ch cs :
  NoDup cs → ch ∈ cs → count (is_send ch) ((λ x, EvSend c x r) <$> cs) = 1.
Proof.
  induction cs as [|x cs IH]; intros Hnd Hin; [by apply elem_of_nil in Hin|].
  apply NoDup_cons in Hnd as [Hx Hnd]. rewrite fmap_cons.
  change (EvSend c x r :: ?l) with ([EvSend c x r] ++ l). rewrite count_app.
  apply elem_of_cons in Hin as [->|Hin].
  - rewrite count_sends_notin by done. unfold count. simpl.
    by rewrite bool_decide_eq_true_2.
  - rewrite IH by done. unfold count. simpl.
    rewrite bool_decide_eq_false_2; [done|]. by intros ->.
Qed.

(** Events that are not about a call, and send on none of its channels,
    do not change its history. *)
Lemma hist_task_frame c tk evs es :
  hist_task c tk evs →
  (∀ e, e ∈ es → ev_call e ≠ Some c) →
  (∀ e ch, e ∈ es → ch ∈ chans (obj tk) → is_send ch e = false) →
  hist_task c tk (evs ++ es).
Proof.
  intros [Hd Hn Hc Hr Hs Ht Hch] Hcall Hsend.
  assert (Hmem : ∀ e, ev_call e = Some c → e ∈ evs ++ es → e ∈ evs).
  { intros e He [Hin|Hin]%elem_of_app; [done|]. by destruct (Hcall _ Hin). }
  split.
  - rewrite Hd. unfold joins. rewrite count_app, (count_zero _ es); [by rewrite Nat.add_0_r|].
    intros e He. destruct (is_join c e) eqn:E; [|done].
    by destruct (Hcall _ He (is_join_call _ _ E)).
  - rewrite count_app, (count_zero _ es); [by rewrite Nat.add_0_r|].
    intros e He. destruct (is_call c e) eqn:E; [|done].
    by destruct (Hcall _ He (is_call_call _ _ E)).
  - intros v e He. apply Hc, Hmem; done.
  - intros j r He. apply Hr, Hmem; done.
  - intros ch r He. apply Hs, Hmem; done.
  - intros ch Hin. rewrite count_app, (count_zero _ es); [rewrite Nat.add_0_r; eauto|].
    intros e He. eauto.
  - intros j ch He. eapply Hch, Hmem; done.
Qed.

(** ** Preservation of the history invariant *)

Lemma hist_init : hist init [].
Proof.
  split; simpl.
  - intros c tk H. by rewrite lookup_nil in H.
  - intros e c H. by apply elem_of_nil in H.
  - intros ch b r H. by rewrite lookup_nil in H.
  - intros ch r H. by apply elem_of_nil in H.
Qed.

(** The history does not mention the registry. *)
Lemma hist_grp w evs g' :
  hist w evs → hist {| grp := g'; tasks := tasks w; bufs := bufs w |} evs.
Proof. intros [H1 H2 H3 H4]. split; done. Qed.

Lemma hist_make_chan w evs :
  hist w evs → hist {| grp := grp w; tasks := tasks w; bufs := bufs w ++ [[]] |} evs.
Proof.
  intros [H1 H2 H3 H4]. split; simpl; try done.
  intros ch b r Hb Hr. apply lookup_snoc_inv in Hb as [[_ ->]|[_ Hb]]; [|eauto].
  by apply elem_of_nil in Hr.
Qed.

Lemma fresh_chan_unsent w evs ch :
  hist w evs → (∀ c tk, tasks w !! c = Some tk → ch ∉ chans (obj tk)) →
  count (is_send ch) evs = 0.
Proof.
  intros Hh Hfresh. apply count_zero. intros e He.
  destruct e as [| | |c ch' r| |]; simpl; try done.
  apply bool_decide_eq_false. intros ->.
  pose proof (hist_alloc _ _ Hh _ c He eq_refl) as Hlt.
  apply lookup_lt_is_Some_2 in Hlt as [tk Hc].
  destruct (h_send _ _ _ (hist_task_of _ _ Hh _ _ Hc) _ _ He) as (_ & Hin & _).
  by eapply Hfresh.
Qed.

(** One task changes, with events about its call only. *)
Lemma hist_update w evs c0 tk0 tk0' es g' bs' :
  wf w → hist w evs → tasks w !! c0 = Some tk0 →
  (∀ e, e ∈ es → ev_call e = Some c0) →
  (∀ e ch, e ∈ es → is_send ch e = true → ch ∈ chans (obj tk0)) →
  hist_task c0 tk0' (evs ++ es) →
  (∀ ch b r, bs' !! ch = Some b → r ∈ b →
     (∃ b0, bufs w !! ch = Some b0 ∧ r ∈ b0) ∨ ∃ c, EvSend c ch r ∈ es) →
  hist {| grp := g'; tasks := <[c0 := tk0']> (tasks w); bufs := bs' |} (evs ++ es).
Proof.
  intros Hwf [Ht Ha Hb Hr] Hc0 Hcall Hsend Hnew Hbufs. split; simpl.
  - intros c tk Hc. apply lookup_upd in Hc as [(-> & -> & _)|[Hne Hc]]; [done|].
    apply hist_task_frame; [eauto| |].
    + intros e He. rewrite (Hcall _ He). congruence.
    + intros e ch He Hin. destruct (is_send ch e) eqn:E; [|done].
      apply list_elem_of_lookup in Hin as [i Hi].
      pose proof (Hsend _ _ He E) as Hin0. apply list_elem_of_lookup in Hin0 as [j Hj].
      by destruct (wf_chan_inj _ Hwf _ _ _ _ _ _ _ Hc Hc0 Hi Hj).
  - intros e c [He|He]%elem_of_app Hec; rewrite length_insert; [eauto|].
    rewrite (Hcall _ He) in Hec. simplify_eq. by eapply lookup_lt_Some.
  - intros ch b r Hch Hin. destruct (Hbufs _ _ _ Hch Hin) as [(b0 & Hb0 & Hr0)|[c Hs]].
    + destruct (Hb _ _ _ Hb0 Hr0) as [c Hs]. exists c. apply elem_of_app. by left.
    + exists c. apply elem_of_app. by right.
  - intros ch r [He|He]%elem_of_app.
    + destruct (Hr _ _ He) as [c Hs]. exists c. apply elem_of_app. by left.
    + by specialize (Hcall _ He).
Qed.

(** A call is allocated, with one event about its creation. *)
Lemma hist_create w evs new e0 g' :
  wf w → hist w evs →
  ev_call e0 = Some (length (tasks w)) →
  is_join (length (tasks w)) e0 = false →
  pc new = AtFn → dups (obj new) = 0%Z →
  (match e0 with
   | EvDo _ _ => True
   | EvChan _ _ ch => ch ∈ chans (obj new)
   | _ => False
   end) →
  (∀ ch c tk, ch ∈ chans (obj new) → tasks w !! c = Some tk → ch ∉ chans (obj tk)) →
  hist {| grp := g'; tasks := tasks w ++ [new]; bufs := bufs w |} (evs ++ [e0]).
Proof.
  intros Hwf Hh Hec Hej Hpc Hdups He0 Hfresh.
  assert (Hold : ∀ e, e ∈ evs → ev_call e ≠ Some (length (tasks w))).
  { intros e He Hc. pose proof (hist_alloc _ _ Hh _ _ He Hc). lia. }
  assert (Hmem : ∀ e, e ∈ evs ++ [e0] → ev_call e = Some (length (tasks w)) → e = e0).
  { intros e [He|He]%elem_of_app Hc; [by destruct (Hold _ He)|].
    by apply list_elem_of_singleton in He. }
  destruct Hh as [Ht Ha Hb Hr]. split; simpl.
  - intros c tk Hc. apply lookup_snoc_inv in Hc as [[-> ->]|[Hlt Hc]].
    + split.
      * rewrite Hdups. unfold joins. rewrite count_app, count_zero.
        -- unfold count. simpl. by rewrite Hej.
        -- intros e He. destruct (is_join _ e) eqn:E; [|done].
           by destruct (Hold _ He (is_join_call _ _ E)).
      * rewrite Hpc. simpl. rewrite count_app, count_zero.
        -- unfold count. simpl. by destruct e0.
        -- intros e He. destruct (is_call _ e) eqn:E; [|done].
           by destruct (Hold _ He (is_call_call _ _ E)).
      * intros v e He. apply Hmem in He; [|done]. subst e0. done.
      * intros j r He. apply Hmem in He; [|done]. subst e0. done.
      * intros ch r He. apply Hmem in He; [|done]. subst e0. done.
      * intros ch Hin. rewrite Hpc. simpl. rewrite count_app.
        rewrite (fresh_chan_unsent w); [|by split|by eauto].
        unfold count. simpl. by destruct e0.
      * intros j ch He. apply Hmem in He; [|done]. by subst e0.
    + apply hist_task_frame; [eauto| |].
      * intros e ->%list_elem_of_singleton. rewrite Hec. intros [=]. lia.
      * intros e ch ->%list_elem_of_singleton _. by destruct e0.
  - intros e c [He|He]%elem_of_app Hc; rewrite length_app; simpl.
    + specialize (Ha _ _ He Hc). lia.
    + apply list_elem_of_singleton in He as ->. rewrite Hec in Hc. simplify_eq. lia.
  - intros ch b r Hch Hin. destruct (Hb _ _ _ Hch Hin) as [c Hs].
    exists c. apply elem_of_app. by left.
  - intros ch r [He|He]%elem_of_app.
    + destruct (Hr _ _ He) as [c Hs]. exists c. apply elem_of_app. by left.
    + apply list_elem_of_singleton in He as <-. done.
Qed.

Lemma count_snoc f l e : count f (l ++ [e]) = count f l + (if f e then 1 else 0).
Proof. rewrite count_app. unfold count. simpl. by destruct (f e). Qed.

Lemma hist_task_join c tk tk' evs e0 :
  hist_task c tk evs → live (pc tk) = true → pc tk' = pc tk →
  val (obj tk') = val (obj tk) → err (obj tk') = err (obj tk) →
  dups (obj tk') = wrap64 (dups (obj tk) + 1) →
  (e0 = EvDo c true ∧ chans (obj tk') = chans (obj tk)) ∨
  (∃ ch, e0 = EvChan c true ch ∧ chans (obj tk') = chans (obj tk) ++ [ch] ∧
         count (is_send ch) evs = 0) →
  hist_task c tk' (evs ++ [e0]).
Proof.
  intros [Hd Hn Hc Hr Hs Ht Hch] Hlive Hpc Hval Herr Hdups He0.
  assert (Hj : is_join c e0 = true ∧ is_call c e0 = false ∧ ∀ ch, is_send ch e0 = false).
  { destruct He0 as [[-> _]|(ch & -> & _)]; simpl; by rewrite bool_decide_eq_true_2. }
  destruct Hj as (Hj & Hcl & Hsd).
  assert (Hmem : ∀ e, e ∈ evs ++ [e0] → is_join c e = false → e ∈ evs).
  { intros e [He|He]%elem_of_app Hf; [done|].
    apply list_elem_of_singleton in He. congruence. }
  split.
  - rewrite Hdups, Hd. unfold joins. rewrite count_snoc, Hj, wrap64_succ.
    f_equal. lia.
  - rewrite count_snoc, Hcl, Hpc. lia.
  - intros v e He. rewrite Hval, Herr. by apply Hc, Hmem.
  - intros j r He. rewrite Hval, Herr, Hpc.
    assert (He' : EvReturn c j r ∈ evs) by by apply Hmem.
    destruct (Hr _ _ He') as (H1 & H2 & H3 & H4). repeat split; try done.
    destruct j; [done|]. destruct H4 as [H4 _]. by rewrite H4 in Hlive.
  - intros ch r He.
    assert (He' : EvSend c ch r ∈ evs) by by apply Hmem.
    destruct (Hs _ _ He') as (H1 & _). by rewrite H1 in Hlive.
  - intros ch Hin. rewrite count_snoc, Hsd, Hpc, Hlive, Nat.add_0_r.
    destruct He0 as [[_ E]|(ch' & _ & E & Hz)]; rewrite E in Hin.
    + rewrite (Ht _ Hin). by rewrite Hlive.
    + apply elem_of_app in Hin as [Hin|Hin].
      * rewrite (Ht _ Hin). by rewrite Hlive.
      * apply list_elem_of_singleton in Hin as ->. done.
  - intros j ch He. apply elem_of_app in He as [He|He%list_elem_of_singleton].
    + specialize (Hch _ _ He).
      destruct He0 as [[_ ->]|(ch' & _ & -> & _)]; [done|]. apply elem_of_app. by left.
    + destruct He0 as [[? _]|(ch' & ? & E & _)]; simplify_eq.
      rewrite E. apply elem_of_app. right. by left.
Qed.

Lemma joinable_live w k now c :
  wf w → joinable (lazy_init (grp w)) k now = Some c →
  ∃ tk, tasks w !! c = Some tk ∧ key tk = k ∧
        forgotten (obj tk) = false ∧ live (pc tk) = true.
Proof.
  intros Hwf [Hj _]%joinable_Some. rewrite get_call_lazy_init in Hj.
  by apply (wf_reg _ Hwf).
Qed.

Lemma Do_lock_hist k d now now' w w' dec evs :
  wf w → hist w evs → Do_lock k d now now' w = Ok (w', dec) →
  hist w' (evs ++ [decision_event dec]).
Proof.
  intros Hwf Hh H. unfold Do_lock in H.
  destruct (joinable _ k now) as [c|] eqn:Ej.
  - destruct (joinable_live _ _ _ _ Hwf Ej) as (tk & Ec & _ & _ & Hlive).
    rewrite Ec in H. simplify_eq. simpl.
    eapply (hist_update w); try done.
    + by intros e ->%list_elem_of_singleton.
    + by intros e ch ->%list_elem_of_singleton.
    + eapply hist_task_join; try done; [eapply hist_task_of; eauto|]. left. done.
    + intros ch b r Hb Hr. left. eauto.
  - unfold create in H.
    destruct (put_entry _ k _ _) as [g'| |] eqn:Ep; [|done..]. simpl in H. simplify_eq.
    simpl. apply (hist_create w); simpl; try done.
    intros ch c tk Hin. by apply elem_of_nil in Hin.
Qed.

Lemma DoChan_lock_hist k d now now' w w' dec ch evs :
  wf w → hist w evs → DoChan_lock k d now now' w = Ok (w', dec, ch) →
  hist w' (evs ++ [chan_event dec ch]).
Proof.
  intros Hwf Hh H.
  pose proof (wf_make_chan _ Hwf) as Hwf1. pose proof (hist_make_chan _ _ Hh) as Hh1.
  assert (Hfresh : ∀ c' tk', tasks w !! c' = Some tk' → length (bufs w) ∉ chans (obj tk')).
  { intros c' tk' E Hin. pose proof (wf_chan_lt _ Hwf _ _ _ E Hin). lia. }
  unfold DoChan_lock in H. destruct (joinable _ k now) as [c|] eqn:Ej.
  - destruct (joinable_live _ _ _ _ Hwf Ej) as (tk & Ec & _ & _ & Hlive).
    rewrite Ec in H. simplify_eq. simpl.
    eapply (hist_update _ _ _ _ _ _ _ _ Hwf1 Hh1); simpl; try done.
    + by intros e ->%list_elem_of_singleton.
    + by intros e ch ->%list_elem_of_singleton.
    + eapply hist_task_join; try done; [eapply hist_task_of; eauto|]. right.
      eexists. split; [done|]. split; [done|]. by eapply fresh_chan_unsent.
    + intros ch b r Hb Hr. left. eauto.
  - unfold create in H. simpl in H.
    destruct (put_entry _ k _ _) as [g'| |] eqn:Ep; [|done..]. simpl in H. simplify_eq.
    simpl. apply (hist_create _ _ _ _ _ Hwf1 Hh1); simpl; try done.
    + by left.
    + intros ch c tk ->%list_elem_of_singleton. apply Hfresh.
Qed.

Lemma Forget_hist k w evs : wf w → hist w evs → hist (Forget k w) evs.
Proof.
  intros Hwf Hh. unfold Forget. destruct (get_call (grp w) k) as [c|] eqn:Ek.
  - destruct (wf_reg _ Hwf _ _ Ek) as (tk & Ec & _).
    rewrite (alter_as_insert _ _ _ _ Ec). rewrite <- (app_nil_r evs).
    eapply (hist_update w); try done.
    + intros e He. by apply elem_of_nil in He.
    + intros e ch He. by apply elem_of_nil in He.
    + rewrite app_nil_r. destruct (hist_task_of _ _ Hh _ _ Ec). split; done.
    + intros ch b r Hb Hr. left. eauto.
  - by apply hist_grp.
Qed.

Lemma doCall_fn_hist c v e w w' es evs :
  wf w → hist w evs → doCall_fn c v e w = Ok (w', es) → hist w' (evs ++ es).
Proof.
  intros Hwf Hh H. unfold doCall_fn in H.
  destruct (tasks w !! c) as [tk|] eqn:Ec; [|done].
  destruct (pc tk) eqn:Ep; try done. simplify_eq.
  destruct (hist_task_of _ _ Hh _ _ Ec) as [Hd Hn Hc Hr Hs Ht Hch].
  rewrite Ep in *. simpl in *.
  eapply (hist_update w); try done.
  - by intros e0 ->%list_elem_of_singleton.
  - by intros e0 ch ->%list_elem_of_singleton.
  - split; simpl.
    + rewrite Hd. unfold joins. by rewrite count_snoc, Nat.add_0_r.
    + rewrite count_snoc, Hn. simpl. by rewrite bool_decide_eq_true_2.
    + intros v' e' He. mem_snoc He; [|done].
      apply (count_zero_elem _ _ _ Hn) in He. simpl in He.
      by rewrite bool_decide_eq_true_2 in He.
    + intros j r He. mem_snoc He. by destruct (Hr _ _ He).
    + intros ch r He. mem_snoc He. by destruct (Hs _ _ He).
    + intros ch Hin. rewrite count_snoc, Nat.add_0_r. eauto.
    + intros j ch He. mem_snoc He. eauto.
  - intros ch b r Hb Hin. left. eauto.
Qed.

Lemma doCall_done_hist c w w' es evs :
  wf w → hist w evs → doCall_done c w = Ok (w', es) → hist w' (evs ++ es).
Proof.
  intros Hwf Hh H. unfold doCall_done in H.
  destruct (tasks w !! c) as [tk|] eqn:Ec; [|done].
  destruct (pc tk) eqn:Ep; try done.
  destruct (wg (obj tk)) as [|n]; [done|]. simplify_eq.
  destruct (hist_task_of _ _ Hh _ _ Ec) as [Hd Hn Hc Hr Hs Ht Hch].
  rewrite Ep in *. simpl in *.
  eapply (hist_update w); try done.
  - intros e0 He. by apply elem_of_nil in He.
  - intros e0 ch He. by apply elem_of_nil in He.
  - rewrite app_nil_r. split; simpl; try done;
      intros ? ? He; first [by destruct (Hr _ _ He)|by destruct (Hs _ _ He)].
  - intros ch b r Hb Hin. left. eauto.
Qed.

Lemma doCall_lock_hist c w w' es evs :
  wf w → hist w evs → doCall_lock c w = Ok (w', es) → hist w' (evs ++ es).
Proof.
  intros Hwf Hh H. unfold doCall_lock in H.
  destruct (tasks w !! c) as [tk|] eqn:Ec; [|done].
  destruct (pc tk) eqn:Ep; try done.
  destruct (deliver _ _ _ _) as [[bs es0]|] eqn:Ed; [|done].
  pose proof (deliver_events _ _ _ _ _ _ Ed) as Hes. simplify_eq.
  destruct (hist_task_of _ _ Hh _ _ Ec) as [Hd Hn Hc Hr Hs Ht Hch].
  rewrite Ep in *. simpl in *.
  pose proof (wf_chans_NoDup _ _ _ Hwf Ec) as Hnd.
  assert (Hdead : ∀ b : bool, live (if b then AtReturn else Ended) = false) by by intros [|].
  assert (Hmem : ∀ e0, e0 ∈ evs ++ ((λ ch, EvSend c ch (result_of (obj tk))) <$> chans (obj tk)) →
     (∀ ch, is_send ch e0 = false) → e0 ∈ evs).
  { intros e0 [He|He]%elem_of_app Hns; [done|].
    apply list_elem_of_fmap in He as (ch & -> & _). specialize (Hns ch). simpl in Hns.
    by rewrite bool_decide_eq_true_2 in Hns. }
  eapply (hist_update w); try done.
  - by intros e0 (ch & -> & _)%list_elem_of_fmap.
  - intros e0 ch (ch' & -> & Hin)%list_elem_of_fmap. simpl.
    by intros ->%bool_decide_eq_true.
  - split; simpl.
    + rewrite Hd. unfold joins. rewrite count_app, (count_zero _ (_ <$> _)); [by rewrite Nat.add_0_r|].
      by intros e0 (ch & -> & _)%list_elem_of_fmap.
    + rewrite count_app, (count_zero _ (_ <$> _)), Hn; [by destruct (inline tk)|].
      by intros e0 (ch & -> & _)%list_elem_of_fmap.
    + intros v e He. by apply Hc, Hmem.
    + intros j r He. apply Hmem in He; [|done].
      destruct (Hr _ _ He) as (_ & ? & ? & Hj).
      split; [by destruct (inline tk)|]. split; [done|]. split; [done|].
      destruct j; [done|]. by destruct Hj.
    + intros ch r [He|He]%elem_of_app.
      * by destruct (Hs _ _ He).
      * apply list_elem_of_fmap in He as (ch' & [= <- <-] & Hin). by rewrite Hdead.
    + intros ch Hin. rewrite count_app, (Ht _ Hin), count_sends_in, Hdead; done.
    + intros j ch He. apply Hmem in He; [eauto|done].
  - intros ch b r Hb Hin.
    destruct (decide (ch ∈ chans (obj tk))) as [Hc'|Hc'].
    + right. exists c. rewrite (deliver_sent _ _ _ _ _ _ _ Ed Hc') in Hb. simplify_eq.
      apply list_elem_of_singleton in Hin as ->.
      apply list_elem_of_fmap. eauto.
    + left. rewrite (deliver_other _ _ _ _ _ _ _ Ed Hc') in Hb. eauto.
Qed.

Lemma Do_return_hist c w w' es evs :
  wf w → hist w evs → Do_return c w = Ok (w', es) → hist w' (evs ++ es).
Proof.
  intros Hwf Hh H. unfold Do_return in H.
  destruct (tasks w !! c) as [tk|] eqn:Ec; [|done].
  destruct (pc tk) eqn:Ep; try done. simplify_eq.
  destruct (hist_task_of _ _ Hh _ _ Ec) as [Hd Hn Hc Hr Hs Ht Hch].
  rewrite Ep in *. simpl in *.
  eapply (hist_update w); try done.
  - by intros e0 ->%list_elem_of_singleton.
  - by intros e0 ch ->%list_elem_of_singleton.
  - split; simpl.
    + rewrite Hd. unfold joins. by rewrite count_snoc, Nat.add_0_r.
    + by rewrite count_snoc, Hn.
    + intros v e He. mem_snoc He. eauto.
    + intros j r He. mem_snoc He; [|done].
      destruct (Hr _ _ He) as (_ & ? & ? & Hj). repeat split; try done.
      destruct j; [done|]. by destruct Hj.
    + intros ch r He. mem_snoc He. eauto.
    + intros ch Hin. rewrite count_snoc, Nat.add_0_r. eauto.
    + intros j ch He. mem_snoc He. eauto.
  - intros ch b r Hb Hin. left. eauto.
Qed.

Lemma Do_wake_hist c w w' es evs :
  wf w → hist w evs → Do_wake c w = Ok (w', es) → hist w' (evs ++ es).
Proof.
  intros Hwf Hh H. unfold Do_wake in H.
  destruct (tasks w !! c) as [tk|] eqn:Ec; [|done].
  destruct (waiting tk) as [|n] eqn:En; [done|].
  destruct (wg (obj tk)) eqn:Eg; [|done]. simplify_eq.
  destruct (hist_task_of _ _ Hh _ _ Ec) as [Hd Hn Hc Hr Hs Ht Hch].
  assert (Hsig : signalled (pc tk) = true).
  { pose proof (wf_wg _ Hwf _ _ Ec) as Hwg. rewrite Eg in Hwg.
    by destruct (signalled (pc tk)). }
  eapply (hist_update w); try done.
  - by intros e0 ->%list_elem_of_singleton.
  - by intros e0 ch ->%list_elem_of_singleton.
  - split; simpl.
    + rewrite Hd. unfold joins. by rewrite count_snoc, Nat.add_0_r.
    + by rewrite count_snoc, Hn, Nat.add_0_r.
    + intros v e He. mem_snoc He. eauto.
    + intros j r He. mem_snoc He; [eauto|done].
    + intros ch r He. mem_snoc He. eauto.
    + intros ch Hin. rewrite count_snoc, Nat.add_0_r. eauto.
    + intros j ch He. mem_snoc He. eauto.
  - intros ch b r Hb Hin. left. eauto.
Qed.

Lemma recv_hist ch w w' es evs :
  wf w → hist w evs → recv ch w = Ok (w', es) → hist w' (evs ++ es).
Proof.
  intros Hwf [Ht Ha Hb Hr] H. unfold recv in H.
  destruct (bufs w !! ch) as [[|r b]|] eqn:Eb; try done. simplify_eq.
  split; simpl.
  - intros c tk Hc. apply hist_task_frame; [eauto| |].
    + by intros e ->%list_elem_of_singleton.
    + by intros e ch' ->%list_elem_of_singleton.
  - intros e c He Hc. mem_snoc He; eauto.
  - intros ch' b' r' Hb' Hin.
    assert (∃ b0, bufs w !! ch' = Some b0 ∧ r' ∈ b0) as (b0 & Hb0 & Hr0).
    { apply lookup_upd in Hb' as [(-> & -> & _)|[_ Hb']]; [|eauto].
      exists (r :: b). split; [done|by right]. }
    destruct (Hb _ _ _ Hb0 Hr0) as [c Hs]. exists c. apply elem_of_app. by left.
  - intros ch' r' He. mem_snoc He.
    + destruct (Hr _ _ He) as [c Hs]. exists c. apply elem_of_app. by left.
    + edestruct Hb as [c Hs]; [exact Eb|by left|]. exists c. apply elem_of_app. by left.
Qed.

Lemma step_hist a w w' es evs :
  wf w → hist w evs → step a w = Ok (w', es) → hist w' (evs ++ es).
Proof.
  intros Hwf Hh H. destruct a; simpl in H.
  - destruct (Do_lock _ _ _ _ _) as [[w1 dec]| |] eqn:E; [|done..].
    simpl in H. simplify_eq. eapply Do_lock_hist in E; done.
  - destruct (DoChan_lock _ _ _ _ _) as [[[w1 dec] ch]| |] eqn:E; [|done..].
    simpl in H. simplify_eq. eapply DoChan_lock_hist in E; done.
  - simplify_eq. rewrite app_nil_r. by apply Forget_hist.
  - eauto using doCall_fn_hist.
  - eauto using doCall_done_hist.
  - eauto using doCall_lock_hist.
  - eauto using Do_return_hist.
  - eauto using Do_wake_hist.
  - eauto using recv_hist.
Qed.

Lemma run_hist acts w w' es evs :
  wf w → hist w evs → run acts w = Ok (w', es) → wf w' ∧ hist w' (evs ++ es).
Proof.
  revert w evs es. induction acts as [|a acts IH]; intros w evs es Hwf Hh H.
  - simpl in H. simplify_eq. by rewrite app_nil_r.
  - apply run_cons_Ok in H as (w1 & e1 & e2 & Hs & Hr & ->).
    rewrite app_assoc. eapply IH; [|by eapply step_hist|done]. by eapply step_wf.
Qed.

(** Every execution from the zero-value [Group] ends in a well-formed
    state whose history matches the events. *)
Lemma run_init acts w evs : run acts init = Ok (w, evs) → wf w ∧ hist w evs.
Proof. intros H. eapply (run_hist _ _ _ _ []); [apply wf_init|apply hist_init|done]. Qed.

(** * The validity clock *)

Lemma quot_Second_bound d : is_int64 d → (-9223372036 ≤ d ÷ Second ≤ 9223372036)%Z.
Proof.
  unfold is_int64, MinInt64, MaxInt64, Second. intros [H1 H2].
  pose proof (Z.quot_rem' d 1000000000) as Hq.
  pose proof (Z.rem_bound_abs d 1000000000 ltac:(lia)) as Hr.
  destruct (Z.le_ge_cases 0 d) as [Hs|Hs].
  - pose proof (Z.rem_nonneg d 1000000000 ltac:(lia) Hs). lia.
  - pose proof (Z.rem_nonpos d 1000000000 ltac:(lia) Hs). lia.
Qed.

(** C6. [getValidTime] maps the zero duration to [math.MaxInt64], the
    greatest clock reading there is, so that the join test
    [expiry > now] succeeds at every reading below it; it maps a nonzero
    duration to the current Unix second plus the duration truncated
    (toward zero) to whole seconds, in 64-bit arithmetic, which is the
    exact sum whenever that fits (as for every clock reading between 0
    and 2^62). *)
Theorem getValidTime_spec (now validTime : Z) :
  is_int64 now → is_int64 validTime →
  (validTime = 0%Z →
     getValidTime now validTime = MaxInt64 ∧
     ∀ g k c now', get_call g k = Some c →
       get_exp g k = Some (getValidTime now validTime) →
       is_int64 now' → now' ≠ MaxInt64 → joinable g k now' = Some c) ∧
  (validTime ≠ 0%Z →
     getValidTime now validTime = wrap64 (now + validTime ÷ Second) ∧
     (is_int64 (now + validTime ÷ Second) →
        getValidTime now validTime = (now + validTime ÷ Second)%Z) ∧
     ((0 ≤ now ≤ 2 ^ 62)%Z → is_int64 (now + validTime ÷ Second))).
Proof.
  intros Hnow Hd. unfold getValidTime. split.
  - intros ->. simpl. split; [done|].
    intros g k c now' Hc He [_ Hn] Hne. apply joinable_Some. split; [done|].
    unfold get_time. rewrite He. simpl. lia.
  - intros Hnz. apply Z.eqb_neq in Hnz. rewrite Hnz. split; [done|]. split.
    + intros Hfit. by apply wrap64_small.
    + intros Hrange. pose proof (quot_Second_bound _ Hd).
      unfold is_int64, MinInt64, MaxInt64. lia.
Qed.

Lemma getValidTime_spec_witness :
  getValidTime 1700000000 0 = MaxInt64 ∧
  getValidTime 1700000000 2500000000 = 1700000002%Z.
Proof.
  assert (H1 : is_int64 1700000000) by (unfold is_int64, MinInt64, MaxInt64; lia).
  assert (H2 : is_int64 0) by (unfold is_int64, MinInt64, MaxInt64; lia).
  assert (H3 : is_int64 2500000000) by (unfold is_int64, MinInt64, MaxInt64; lia).
  split.
  - exact (proj1 (proj1 (getValidTime_spec 1700000000 0 H1 H2) eq_refl)).
  - refine (proj1 (proj2 (proj2 (getValidTime_spec 1700000000 2500000000 H1 H3)
      ltac:(lia))) _).
    vm_compute. split; discriminate.
Defined.

(** * The two branches of the decision under the lock *)

Lemma put_entry_other g k c x g' :
  put_entry g k c x = Ok g' →
  get_call g' k = Some c ∧ get_exp g' k = Some x ∧
  ∀ k', k' ≠ k → get_call g' k' = get_call g k' ∧ get_exp g' k' = get_exp g k'.
Proof.
  intros H. rewrite (put_entry_call _ _ _ _ _ k H), (put_entry_exp _ _ _ _ _ k H).
  rewrite !decide_True by done. split; [done|]. split; [done|].
  intros k' Hne. rewrite (put_entry_call _ _ _ _ _ k' H), (put_entry_exp _ _ _ _ _ k' H).
  by rewrite !decide_False by done.
Qed.

Lemma joinable_lazy_init w k now :
  wf w → joinable (lazy_init (grp w)) k now = joinable (grp w) k now.
Proof.
  intros Hwf. unfold joinable, get_time.
  rewrite get_call_lazy_init, get_exp_lazy_init; [done|apply (wf_maps _ Hwf)].
Qed.

Lemma create_ok k d now' isinline cs w bs :
  wf w →
  ∃ w1, create k d now' isinline cs (lazy_init (grp w))
          {| grp := grp w; tasks := tasks w; bufs := bs |}
        = Ok (w1, Created (length (tasks w))) ∧
        created k (getValidTime now' d) isinline cs w w1 ∧ bufs w1 = bs.
Proof.
  intros Hwf. unfold create. simpl.
  destruct (lazy_init_maps (grp w) (wf_maps _ Hwf)) as [Hm Ht].
  destruct (put_entry_ok _ k (length (tasks w)) (getValidTime now' d) Hm Ht) as [g' Hp].
  rewrite Hp. simpl. eexists. split; [done|]. split; [|done].
  destruct (put_entry_other _ _ _ _ _ Hp) as (H1 & H2 & H3).
  split; [done|]. split; [done|]. split; [done|]. simpl.
  intros k' Hne. destruct (H3 _ Hne) as [-> ->].
  rewrite get_call_lazy_init, get_exp_lazy_init; [done|apply (wf_maps _ Hwf)].
Qed.

Lemma lazy_init_id g c k : get_call g k = Some c → lazy_init g = g.
Proof. unfold get_call, lazy_init. by destruct (m g). Qed.

Lemma decide_join k d now now' w c :
  wf w → get_call (grp w) k = Some c → (get_time (grp w) k > now)%Z →
  ∃ tk, tasks w !! c = Some tk ∧
    Do_lock k d now now' w =
      Ok ({| grp := grp w;
             tasks := <[c := set_waiting (S (waiting tk))
                              (set_obj (inc_dups (obj tk)) tk)]> (tasks w);
             bufs := bufs w |}, Joined c) ∧
    DoChan_lock k d now now' w =
      Ok ({| grp := grp w;
             tasks := <[c := set_obj (add_chan (length (bufs w))
                              (inc_dups (obj tk))) tk]> (tasks w);
             bufs := bufs w ++ [[]] |}, Joined c, length (bufs w)).
Proof.
  intros Hwf Hc Hgt.
  destruct (wf_reg _ Hwf _ _ Hc) as (tk & Ec & _). exists tk. split; [done|].
  assert (Hj : joinable (lazy_init (grp w)) k now = Some c).
  { rewrite joinable_lazy_init by done. by apply joinable_Some. }
  unfold Do_lock, DoChan_lock. rewrite Hj, Ec, (lazy_init_id _ _ _ Hc). done.
Qed.

Lemma decide_create k d now now' w :
  wf w → get_call (grp w) k = None ∨ (get_time (grp w) k ≤ now)%Z →
  ∃ w1 w2,
    Do_lock k d now now' w = Ok (w1, Created (length (tasks w))) ∧
    created k (getValidTime now' d) true [] w w1 ∧ bufs w1 = bufs w ∧
    DoChan_lock k d now now' w =
      Ok (w2, Created (length (tasks w)), length (bufs w)) ∧
    created k (getValidTime now' d) false [length (bufs w)] w w2 ∧
    bufs w2 = bufs w ++ [[]].
Proof.
  intros Hwf Hno.
  assert (Hj : joinable (lazy_init (grp w)) k now = None).
  { rewrite joinable_lazy_init by done.
    destruct (joinable (grp w) k now) as [c|] eqn:E; [|done].
    apply joinable_Some in E as [E1 E2]. destruct Hno as [Hno|Hno]; [congruence|lia]. }
  unfold Do_lock, DoChan_lock. rewrite Hj.
  destruct (create_ok k d now' true [] w (bufs w) Hwf) as (w1 & E1 & Hc1 & Hb1).
  destruct (create_ok k d now' false [length (bufs w)] w (bufs w ++ [[]]) Hwf)
    as (w2 & E2 & Hc2 & Hb2).
  exists w1, w2. destruct w as [g ts bs]. simpl in *. rewrite E1, E2. done.
Qed.

(** * The zero-value group *)

Lemma delete_absent {V} (mm : gmap string V) k : mm !! k = None → delete k mm = mm.
Proof.
  intros H. apply map_eq. intros k'. rewrite lookup_delete. by case_decide; subst.
Qed.

Lemma del_entry_absent g k :
  get_call g k = None → get_exp g k = None → del_entry g k = g.
Proof.
  unfold get_call, get_exp, del_entry. destruct g as [[mm|] [tm|]]; simpl; intros H1 H2;
    rewrite ?delete_absent by done; done.
Qed.

(** C9. On the zero-value [Group] (both maps nil) [Do] and [DoChan] do
    not panic: they allocate both maps and register the new call.
    [Forget] of a key with no registered call, on nil maps or on
    allocated ones, changes nothing and returns. *)
Theorem zero_value_safe (k : string) (d now now' : Z) (w : world) :
  wf w → get_call (grp w) k = None →
  (∃ w1, Do_lock k d now now' init = Ok (w1, Created 0) ∧
     grp w1 = {| m := Some {[k := 0]}; t := Some {[k := getValidTime now' d]} |}) ∧
  (∃ w1, DoChan_lock k d now now' init = Ok (w1, Created 0, 0) ∧
     grp w1 = {| m := Some {[k := 0]}; t := Some {[k := getValidTime now' d]} |}) ∧
  Forget k init = init ∧
  Forget k w = w.
Proof.
  intros Hwf Hk. repeat split.
  - eexists. split; reflexivity.
  - eexists. split; reflexivity.
  - unfold Forget. rewrite Hk. destruct w as [g ts bs]. simpl in *.
    rewrite del_entry_absent; [done..|]. by apply (wf_dom _ Hwf).
Qed.

Lemma zero_value_safe_witness :
  wf init ∧ Forget "key" init = init ∧
  ∃ w1, Do_lock "key" 9000000000 5 5 init = Ok (w1, Created 0) ∧
        grp w1 = {| m := Some {["key" := 0]}; t := Some {["key" := 14%Z]} |}.
Proof.
  pose proof (zero_value_safe "key" 9000000000 5 5 init wf_init eq_refl)
    as (H1 & _ & H2 & _).
  split; [exact wf_init|]. split; [exact H2|]. exact H1.
Defined.

(** * Durations below one second *)

(** C10. A nonzero validity duration of less than a second (in
    absolute value) truncates to zero whole seconds, so the call that
    [Do] or [DoChan] creates is stored with the creation-time Unix second
    as its expiry, and the join test fails at every clock reading that
    is not earlier than that second: as long as the entry stands, [Do]
    and [DoChan] create a new call instead of joining it. *)
Theorem subsecond_never_joinable (k : string) (d now0 now : Z) (w w1 : world)
    (c : nat) :
  wf w → is_int64 now → d ≠ 0%Z → (- Second < d < Second)%Z →
  (Do_lock k d now0 now w = Ok (w1, Created c) ∨
   ∃ ch, DoChan_lock k d now0 now w = Ok (w1, Created c, ch)) →
  getValidTime now d = now ∧
  get_call (grp w1) k = Some c ∧ get_exp (grp w1) k = Some now ∧
  ∀ w2 d' now1 now1', wf w2 → get_exp (grp w2) k = Some now → (now ≤ now1)%Z →
    joinable (grp w2) k now1 = None ∧
    (∃ w3, Do_lock k d' now1 now1' w2 = Ok (w3, Created (length (tasks w2)))) ∧
    (∃ w3, DoChan_lock k d' now1 now1' w2 =
             Ok (w3, Created (length (tasks w2)), length (bufs w2))).
Proof.
  intros Hwf Hnow Hnz Hd Hcr.
  assert (Hv : getValidTime now d = now).
  { unfold getValidTime. apply Z.eqb_neq in Hnz. rewrite Hnz.
    assert (Hq : (d ÷ Second = 0)%Z).
    { apply Z.quot_small_iff; unfold Second in *; lia. }
    rewrite Hq, Z.add_0_r. by apply wrap64_small. }
  split; [done|].
  assert (Hreg : get_call (grp w1) k = Some c ∧ get_exp (grp w1) k = Some now).
  { destruct (joinable (lazy_init (grp w)) k now0) as [c0|] eqn:Ej.
    - destruct (joinable_live _ _ _ _ Hwf Ej) as (tk & Ec & _).
      destruct Hcr as [H|[ch H]]; unfold Do_lock, DoChan_lock in H;
        rewrite Ej, Ec in H; done.
    - destruct (create_ok k d now true [] w (bufs w) Hwf) as (x1 & E1 & Hc1 & _).
      destruct (create_ok k d now false [length (bufs w)] w (bufs w ++ [[]]) Hwf)
        as (x2 & E2 & Hc2 & _).
      destruct w as [g ts bs]. simpl in *.
      destruct Hcr as [H|[ch H]]; unfold Do_lock, DoChan_lock in H;
        simpl in H; rewrite Ej in H; simpl in H.
      + rewrite E1 in H. simplify_eq. destruct Hc1 as (_ & ? & Hx & _).
        rewrite Hv in Hx. done.
      + rewrite E2 in H. simpl in H. simplify_eq. destruct Hc2 as (_ & ? & Hx & _).
        rewrite Hv in Hx. done. }
  split; [apply Hreg|]. split; [apply Hreg|].
  intros w2 d' now1 now1' Hwf2 He Hle.
  assert (Hle' : (get_time (grp w2) k ≤ now1)%Z) by (unfold get_time; by rewrite He).
  destruct (decide_create k d' now1 now1' w2 Hwf2 (or_intror Hle'))
    as (x1 & x2 & H1 & _ & _ & H2 & _).
  split; [|eauto].
  destruct (joinable (grp w2) k now1) as [c'|] eqn:E; [|done].
  apply joinable_Some in E as [_ E]. lia.
Qed.

Lemma subsecond_never_joinable_witness :
  ∃ w1, Do_lock "k" 500000000 7 7 init = Ok (w1, Created 0) ∧
        get_exp (grp w1) "k" = Some 7%Z ∧ joinable (grp w1) "k" 7 = None.
Proof.
  destruct (decide_create "k" 500000000 7 7 init wf_init (or_introl eq_refl))
    as (w1 & _ & H1 & _).
  exists w1. split; [exact H1|].
  assert (Hi : is_int64 7) by (unfold is_int64, MinInt64, MaxInt64; lia).
  destruct (subsecond_never_joinable "k" 500000000 7 7 init w1 0 wf_init Hi
              ltac:(lia) ltac:(unfold Second; lia) (or_introl H1))
    as (_ & _ & H3 & H4).
  split; [exact H3|].
  exact (proj1 (H4 w1 0%Z 7%Z 7%Z (Do_lock_wf _ _ _ _ _ _ _ wf_init H1) H3 ltac:(lia))).
Defined.

(** * How a call evolves along an execution *)

Lemma evolves_refl tk : evolves tk tk.
Proof. split; done. Qed.

Lemma evolves_trans tk1 tk2 tk3 : evolves tk1 tk2 → evolves tk2 tk3 → evolves tk1 tk3.
Proof.
  intros [K1 I1 R1 F1 C1 V1] [K2 I2 R2 F2 C2 V2]. split.
  - congruence.
  - congruence.
  - lia.
  - eauto.
  - by etrans.
  - intros Hs. destruct (V1 Hs) as [<- <-]. apply V2.
    destruct (pc tk1), (pc tk2); simpl in *; try done; lia.
Qed.

(** One step: every call stays allocated and evolves, and its program
    point changes only by its own next statement. *)
Lemma step_evolves a w w' es c tk :
  step a w = Ok (w', es) → tasks w !! c = Some tk →
  ∃ tk', tasks w' !! c = Some tk' ∧ evolves tk tk' ∧
         (pc tk' = pc tk ∨ moves c a (pc tk) (pc tk')).
Proof.
  intros H Hc.
  assert (Hupd : ∀ c0 tk0 tk0' g' bs',
    tasks w !! c0 = Some tk0 →
    w' = {| grp := g'; tasks := <[c0 := tk0']> (tasks w); bufs := bs' |} →
    (c0 = c → evolves tk0 tk0' ∧ (pc tk0' = pc tk0 ∨ moves c a (pc tk0) (pc tk0'))) →
    ∃ tk', tasks w' !! c = Some tk' ∧ evolves tk tk' ∧
           (pc tk' = pc tk ∨ moves c a (pc tk) (pc tk'))).
  { intros c0 tk0 tk0' g' bs' E0 -> Hev. simpl. destruct (decide (c0 = c)) as [->|Hne].
    - simplify_eq. exists tk0'. rewrite list_lookup_insert_eq by eauto using lookup_lt_Some.
      destruct (Hev eq_refl). done.
    - exists tk. rewrite list_lookup_insert_ne by done.
      split; [done|]. split; [apply evolves_refl|by left]. }
  assert (Hsame : tasks w' = tasks w →
    ∃ tk', tasks w' !! c = Some tk' ∧ evolves tk tk' ∧
           (pc tk' = pc tk ∨ moves c a (pc tk) (pc tk'))).
  { intros ->. exists tk. split; [done|]. split; [apply evolves_refl|by left]. }
  assert (Hnew : ∀ new, tasks w' = tasks w ++ [new] →
    ∃ tk', tasks w' !! c = Some tk' ∧ evolves tk tk' ∧
           (pc tk' = pc tk ∨ moves c a (pc tk) (pc tk'))).
  { intros new ->. exists tk. split; [by apply lookup_app_l_Some|].
    split; [apply evolves_refl|by left]. }
  destruct a; simpl in H.
  - destruct (Do_lock _ _ _ _ w) as [[w1 dec]| |] eqn:E; simpl in H; [|done..].
    simplify_eq. unfold Do_lock, create in E.
    destruct (joinable _ _ _) as [c0|].
    + destruct (tasks w !! c0) as [tk0|] eqn:E0; [|done]. simplify_eq.
      eapply (Hupd c0 tk0); [done|reflexivity|]. intros _. split; [by split|by left].
    + destruct (put_entry _ _ _ _); simpl in E; [|done..]. simplify_eq.
      by eapply Hnew.
  - destruct (DoChan_lock _ _ _ _ w) as [[[w1 dec] ch]| |] eqn:E; simpl in H; [|done..].
    simplify_eq. unfold DoChan_lock, create in E.
    destruct (joinable _ _ _) as [c0|].
    + destruct (tasks w !! c0) as [tk0|] eqn:E0; [|done]. simplify_eq.
      eapply (Hupd c0 tk0); [done|reflexivity|]. intros _. split; [|by left].
      split; simpl; try done. by apply prefix_app_r.
    + simpl in E. destruct (put_entry _ _ _ _); simpl in E; [|done..]. simplify_eq.
      by eapply Hnew.
  - simplify_eq. unfold Forget in *.
    destruct (get_call (grp w) k) as [c0|]; [|by apply Hsame].
    destruct (tasks w !! c0) as [tk0|] eqn:E0.
    + rewrite (alter_as_insert _ _ _ _ E0) in *.
      eapply (Hupd c0 tk0); [done|reflexivity|]. intros _. split; [by split|by left].
    + apply Hsame. simpl. apply list_eq. intros i.
      destruct (decide (c0 = i)) as [->|Hne].
      * by rewrite list_lookup_alter_eq, E0.
      * by rewrite list_lookup_alter_ne.
  - unfold doCall_fn in H. destruct (tasks w !! c0) as [tk0|] eqn:E0; [|done].
    destruct (pc tk0) eqn:Ep; try done. simplify_eq.
    eapply (Hupd c0 tk0); [done|reflexivity|]. intros ->. rewrite Ep. split; [|right; constructor].
    split; simpl; try done; rewrite Ep; simpl; try done; lia.
  - unfold doCall_done in H. destruct (tasks w !! c0) as [tk0|] eqn:E0; [|done].
    destruct (pc tk0) eqn:Ep; try done.
    destruct (wg (obj tk0)); [done|]. simplify_eq.
    eapply (Hupd c0 tk0); [done|reflexivity|]. intros ->. rewrite Ep. split; [|right; constructor].
    split; simpl; try done; rewrite Ep; simpl; try done; lia.
  - unfold doCall_lock in H. destruct (tasks w !! c0) as [tk0|] eqn:E0; [|done].
    destruct (pc tk0) eqn:Ep; try done.
    destruct (deliver _ _ _ _) as [[bs0 es0]|]; [|done]. simplify_eq.
    eapply (Hupd c0 tk0); [done|reflexivity|]. intros ->. rewrite Ep. simpl. split.
    + split; simpl; try done. rewrite Ep. destruct (inline tk0); simpl; lia.
    + right. constructor. by destruct (inline tk0).
  - unfold Do_return in H. destruct (tasks w !! c0) as [tk0|] eqn:E0; [|done].
    destruct (pc tk0) eqn:Ep; try done. simplify_eq.
    eapply (Hupd c0 tk0); [done|reflexivity|]. intros ->. rewrite Ep. split; [|right; constructor].
    split; simpl; try done; rewrite Ep; simpl; try done; lia.
  - unfold Do_wake in H. destruct (tasks w !! c0) as [tk0|] eqn:E0; [|done].
    destruct (waiting tk0); [done|]. destruct (wg (obj tk0)); [|done]. simplify_eq.
    eapply (Hupd c0 tk0); [done|reflexivity|]. intros _. split; [by split|by left].
  - unfold recv in H. destruct (bufs w !! ch) as [[|r b]|]; try done. simplify_eq.
    by apply Hsame.
Qed.

Lemma run_app l1 l2 w w' evs :
  run (l1 ++ l2) w = Ok (w', evs) ↔
  ∃ w1 e1 e2, run l1 w = Ok (w1, e1) ∧ run l2 w1 = Ok (w', e2) ∧ evs = e1 ++ e2.
Proof.
  revert w evs. induction l1 as [|a l1 IH]; intros w evs.
  - simpl. split; [eauto 6|]. by intros (? & ? & ? & [= <- <-] & ? & ->).
  - rewrite <- app_comm_cons, run_cons_Ok. split.
    + intros (w1 & e1 & e2 & Hs & Hr & ->).
      apply IH in Hr as (w2 & e3 & e4 & H1 & H2 & ->).
      exists w2, (e1 ++ e3), e4. rewrite run_cons_Ok, app_assoc. eauto 10.
    + intros (w2 & e & e4 & (w1 & e1 & e3 & Hs & H1 & ->)%run_cons_Ok & H2 & ->).
      exists w1, e1, (e3 ++ e4). rewrite IH, app_assoc. eauto 10.
Qed.

Lemma run_evolves acts w w' es c tk :
  run acts w = Ok (w', es) → tasks w !! c = Some tk →
  ∃ tk', tasks w' !! c = Some tk' ∧ evolves tk tk'.
Proof.
  revert w es tk. induction acts as [|a acts IH]; intros w es tk H Hc.
  - simpl in H. simplify_eq. eauto using evolves_refl.
  - apply run_cons_Ok in H as (w1 & e1 & e2 & Hs & Hr & ->).
    destruct (step_evolves _ _ _ _ _ _ Hs Hc) as (tk1 & Hc1 & Hev1 & _).
    destruct (IH _ _ _ Hr Hc1) as (tk' & Hc' & Hev'). eauto using evolves_trans.
Qed.

(** * What the events say about the result of a call *)

Lemma count_pos_inv f l : 0 < count f l → ∃ e, e ∈ l ∧ f e = true.
Proof.
  unfold count. induction l as [|x l IH]; simpl; [lia|].
  destruct (f x) eqn:E.
  - intros _. exists x. split; [by left|done].
  - intros H. destruct (IH H) as (e & He & Hf). exists e. split; [by right|done].
Qed.


(** What a channel returned for call [c] yields is what [doCall] of [c]
    sent. *)
Lemma recv_result w evs c tk j ch r :
  wf w → hist w evs → tasks w !! c = Some tk →
  EvChan c j ch ∈ evs → EvRecv ch r ∈ evs →
  EvSend c ch r ∈ evs ∧ r = result_of (obj tk) ∧ live (pc tk) = false.
Proof.
  intros Hwf Hh Hc Hch Hrecv.
  destruct (hist_recv _ _ Hh _ _ Hrecv) as [c' Hs].
  pose proof (hist_alloc _ _ Hh _ c' Hs eq_refl) as Hlt.
  apply lookup_lt_is_Some_2 in Hlt as [tk' Hc'].
  destruct (h_send _ _ _ (hist_task_of _ _ Hh _ _ Hc') _ _ Hs) as (Hdead & Hin' & Hr).
  pose proof (h_chan _ _ _ (hist_task_of _ _ Hh _ _ Hc) _ _ Hch) as Hin.
  apply list_elem_of_lookup in Hin as [i Hi], Hin' as [i' Hi'].
  destruct (wf_chan_inj _ Hwf _ _ _ _ _ _ _ Hc Hc' Hi Hi') as [<- _]. by simplify_eq.
Qed.

(** Once [fn] has run for a call, the one [EvCall] event carries what
    the call stores. *)
Lemma started_call c tk evs :
  hist_task c tk evs → started (pc tk) = true →
  EvCall c (val (obj tk)) (err (obj tk)) ∈ evs.
Proof.
  intros Hh Hs. pose proof (h_calls _ _ _ Hh) as Hn. rewrite Hs in Hn.
  destruct (count_pos_inv (is_call c) evs ltac:(lia)) as (e & He & Hf).
  destruct e as [| |c' v e'| | |]; simpl in Hf; try done.
  apply bool_decide_eq_true in Hf as ->.
  by destruct (h_call _ _ _ Hh _ _ He) as [<- <-].
Qed.

(** * Calls that can no longer be joined *)

(** A caller joins only a call that is registered, hence live and not
    forgotten. *)
Lemma join_registered a w w' es e c :
  wf w → step a w = Ok (w', es) → e ∈ es → is_join c e = true →
  ∃ tk, tasks w !! c = Some tk ∧ forgotten (obj tk) = false ∧ live (pc tk) = true.
Proof.
  intros Hwf H He Hj.
  assert (Hnone : ∀ (P : Prop), e ∈ [] → P) by (intros P Hx; by apply elem_of_nil in Hx).
  destruct a; simpl in H.
  - destruct (Do_lock _ _ _ _ w) as [[w1 dec]| |] eqn:E; simpl in H; [|done..].
    simplify_eq. apply list_elem_of_singleton in He as ->.
    destruct dec as [c0|c0]; simpl in Hj; [|done]. apply bool_decide_eq_true in Hj as ->.
    unfold Do_lock in E. destruct (joinable _ _ _) as [c0|] eqn:Ej.
    + destruct (joinable_live _ _ _ _ Hwf Ej) as (tk & Ec & _ & ? & ?).
      rewrite Ec in E. simplify_eq. eauto.
    + unfold create in E. destruct (put_entry _ _ _ _); simpl in E; done.
  - destruct (DoChan_lock _ _ _ _ w) as [[[w1 dec] ch]| |] eqn:E; simpl in H; [|done..].
    simplify_eq. apply list_elem_of_singleton in He as ->.
    destruct dec as [c0|c0]; simpl in Hj; [|done]. apply bool_decide_eq_true in Hj as ->.
    unfold DoChan_lock in E. destruct (joinable _ _ _) as [c0|] eqn:Ej.
    + destruct (joinable_live _ _ _ _ Hwf Ej) as (tk & Ec & _ & ? & ?).
      rewrite Ec in E. simplify_eq. eauto.
    + unfold create in E. simpl in E. destruct (put_entry _ _ _ _); simpl in E; done.
  - simplify_eq. by apply Hnone.
  - unfold doCall_fn in H. repeat case_match; simplify_eq;
      apply list_elem_of_singleton in He as ->; done.
  - unfold doCall_done in H. repeat case_match; simplify_eq; by apply Hnone.
  - destruct (doCall_lock_Ok _ _ _ _ H) as (? & _ & _ & _ & _ & _ & ->).
    apply list_elem_of_fmap in He as (ch & -> & _); done.
  - unfold Do_return in H. repeat case_match; simplify_eq;
      apply list_elem_of_singleton in He as ->; done.
  - unfold Do_wake in H. repeat case_match; simplify_eq;
      apply list_elem_of_singleton in He as ->; done.
  - unfold recv in H. repeat case_match; simplify_eq;
      apply list_elem_of_singleton in He as ->; done.
Qed.

Lemma retired_evolves tk tk' : evolves tk tk' → retired tk → retired tk'.
Proof.
  intros Hev [Hf|Hl]; [left; by apply (ev_forgotten _ _ Hev)|right].
  pose proof (ev_rank _ _ Hev). destruct (pc tk), (pc tk'); simpl in *; try done; lia.
Qed.

Lemma retired_unregistered w c tk k :
  wf w → tasks w !! c = Some tk → retired tk → get_call (grp w) k ≠ Some c.
Proof.
  intros Hwf Hc Hret Hk. destruct (wf_reg _ Hwf _ _ Hk) as (tk' & Hc' & _ & Hf & Hl).
  simplify_eq. destruct Hret; congruence.
Qed.

Lemma run_no_join acts w w' evs c tk :
  wf w → tasks w !! c = Some tk → retired tk → run acts w = Ok (w', evs) →
  ∀ e, e ∈ evs → is_join c e = false.
Proof.
  revert w evs tk. induction acts as [|a acts IH]; intros w evs tk Hwf Hc Hret H e He.
  - simpl in H. simplify_eq. by apply elem_of_nil in He.
  - apply run_cons_Ok in H as (w1 & e1 & e2 & Hs & Hr & ->).
    destruct (step_evolves _ _ _ _ _ _ Hs Hc) as (tk1 & Hc1 & Hev & _).
    apply elem_of_app in He as [He|He].
    + destruct (is_join c e) eqn:Ej; [|done].
      destruct (join_registered _ _ _ _ _ _ Hwf Hs He Ej) as (tk0 & ? & ? & ?).
      simplify_eq. destruct Hret; congruence.
    + eapply (IH w1); eauto using step_wf, retired_evolves.
Qed.

Lemma not_joined dec c k d now now' w w1 tk :
  wf w → tasks w !! c = Some tk → retired tk →
  (Do_lock k d now now' w = Ok (w1, dec) ∨
   ∃ ch, DoChan_lock k d now now' w = Ok (w1, dec, ch)) →
  dec ≠ Joined c.
Proof.
  intros Hwf Hc Hret H ->.
  assert (Hj : joinable (lazy_init (grp w)) k now = Some c).
  { destruct H as [H|[ch H]]; unfold Do_lock, DoChan_lock, create in H;
      destruct (joinable _ _ _) as [c0|]; simpl in H;
      try (destruct (put_entry _ _ _ _); simpl in H; done);
      destruct (tasks w !! c0); by simplify_eq. }
  rewrite joinable_lazy_init in Hj by done. apply joinable_Some in Hj as [Hj _].
  by eapply retired_unregistered.
Qed.

(** The critical section of [doCall], spelled out. *)
(** C8. A call has completed when the critical section of its
    [doCall] has run.  From then on the call is in the registry under no
    key and stays out of it: no later [Do] or [DoChan] joins it, in the
    state that the critical section left or in any state reached from
    there.  If the call was not forgotten, its key has no entry when the
    critical section returns, so [Do] and [DoChan] on that key then
    create a new call. *)
Theorem completed_never_joined (acts : list action) (w0 w : world)
    (evs0 es : list event) (c : nat) (tk0 : task) :
  run acts init = Ok (w0, evs0) → tasks w0 !! c = Some tk0 →
  doCall_lock c w0 = Ok (w, es) →
  (forgotten (obj tk0) = false →
     get_call (grp w) (key tk0) = None ∧
     ∀ d now now', ∃ w1 w2,
       Do_lock (key tk0) d now now' w = Ok (w1, Created (length (tasks w))) ∧
       DoChan_lock (key tk0) d now now' w =
         Ok (w2, Created (length (tasks w)), length (bufs w))) ∧
  ∀ acts' w' evs', run acts' w = Ok (w', evs') →
    (∃ tk', tasks w' !! c = Some tk' ∧ live (pc tk') = false) ∧
    (∀ k, get_call (grp w') k ≠ Some c) ∧
    (∀ e, e ∈ evs' → is_join c e = false) ∧
    (∀ k d now now' w1 dec,
       Do_lock k d now now' w' = Ok (w1, dec) ∨
       (∃ ch, DoChan_lock k d now now' w' = Ok (w1, dec, ch)) →
       dec ≠ Joined c).
Proof.
  intros Hrun Hc Hlock. destruct (run_init _ _ _ Hrun) as [Hwf0 _].
  pose proof (doCall_lock_wf _ _ _ _ Hwf0 Hlock) as Hwf.
  destruct (doCall_lock_Ok _ _ _ _ Hlock) as (tk & Hc' & Hpc & Hg & Hts & _ & _).
  rewrite Hc in Hc'. injection Hc' as <-.
  assert (Hc1 : tasks w !! c = Some (set_pc (if inline tk0 then AtReturn else Ended) tk0)).
  { rewrite Hts. apply list_lookup_insert_eq. by eapply lookup_lt_Some. }
  assert (Hret : retired (set_pc (if inline tk0 then AtReturn else Ended) tk0)).
  { right. simpl. by destruct (inline tk0). }
  split.
  - intros Hf. rewrite Hf in Hg.
    assert (Hk : get_call (grp w) (key tk0) = None).
    { rewrite Hg, del_entry_call. by rewrite decide_True. }
    split; [done|]. intros d now now'.
    destruct (decide_create (key tk0) d now now' w Hwf (or_introl Hk))
      as (w1 & w2 & H1 & _ & _ & H2 & _). eauto.
  - intros acts' w' evs' Hrun'.
    destruct (run_evolves _ _ _ _ _ _ Hrun' Hc1) as (tk' & Hc2 & Hev).
    pose proof (retired_evolves _ _ Hev Hret) as Hret'.
    pose proof (run_wf _ _ _ _ Hwf Hrun') as Hwf'.
    split; [|split; [|split]].
    + exists tk'. split; [done|]. pose proof (ev_rank _ _ Hev) as Hr. simpl in Hr.
      destruct (inline tk0), (pc tk'); simpl in *; try done; lia.
    + intros k. exact (retired_unregistered _ _ _ _ Hwf' Hc2 Hret').
    + exact (run_no_join _ _ _ _ _ _ Hwf Hc1 Hret Hrun').
    + intros k d now now' w1 dec H. exact (not_joined _ _ _ _ _ _ _ _ _ Hwf' Hc2 Hret' H).
Qed.

Lemma completed_never_joined_witness :
  run done_schedule init = Ok (done_world, done_events) ∧
  doCall_lock 0 done_world = Ok (evicted_world, []) ∧
  get_call (grp evicted_world) "k" = None ∧
  ∃ w1, Do_lock "k" 0 4 4 evicted_world = Ok (w1, Created 1).
Proof.
  assert (E : run done_schedule init = Ok (done_world, done_events))
    by (vm_compute; reflexivity).
  assert (L : doCall_lock 0 done_world = Ok (evicted_world, []))
    by (vm_compute; reflexivity).
  split; [exact E|]. split; [exact L|].
  pose proof (completed_never_joined done_schedule done_world evicted_world
    done_events [] 0 _ E eq_refl L) as [H _].
  destruct (H eq_refl) as [H1 H2]. split; [exact H1|].
  destruct (H2 0%Z 4%Z 4%Z) as (w1 & _ & H3 & _). exists w1. exact H3.
Defined.

(** * Program order of [doCall] *)








(** * [Forget] allocates nothing *)


(** * A stale completion *)

(** C1 on that schedule: before the completion handling of call 0 the
    registry maps ["k"] to call 1, which is live, not forgotten and not
    expired at second 1; call 0 is not forgotten; its completion handling
    leaves the registry without an entry for ["k"], and a third [Do] at
    second 1 creates call 2 while call 1 is still running. *)
Lemma stale_completion_evicts_newer :
  run stale_schedule init = Ok (stale_world, stale_events) ∧
  get_call (grp stale_world) "k" = Some 1 ∧
  get_exp (grp stale_world) "k" = Some 2%Z ∧
  (∃ tk0, tasks stale_world !! 0 = Some tk0 ∧
     forgotten (obj tk0) = false ∧ pc tk0 = AtLock) ∧
  (∃ tk1, tasks stale_world !! 1 = Some tk1 ∧ tasks stale_after !! 1 = Some tk1 ∧
     forgotten (obj tk1) = false ∧ pc tk1 = AtFn) ∧
  doCall_lock 0 stale_world = Ok (stale_after, []) ∧
  get_call (grp stale_after) "k" = None ∧
  ∃ w2, Do_lock "k" Second 1 1 stale_after = Ok (w2, Created 2).
Proof.
  split; [vm_compute; reflexivity|]. split; [vm_compute; reflexivity|].
  split; [vm_compute; reflexivity|].
  split; [eexists; repeat split; vm_compute; reflexivity|].
  split; [eexists; repeat split; vm_compute; reflexivity|].
  split; [vm_compute; reflexivity|]. split; [vm_compute; reflexivity|].
  eexists. vm_compute. reflexivity.
Qed.

(** * The registry in every reachable state *)

(** X1. In every state reached from the zero-value [Group] the two maps
    are nil together and have the same keys; every registered call is
    allocated, registered under the key its [doCall] will delete, not
    forgotten, and has not run its completion handling; no call is
    registered under two keys. *)
Theorem registry_invariant (acts : list action) (w : world) (evs : list event) :
  run acts init = Ok (w, evs) →
  (m (grp w) = None ↔ t (grp w) = None) ∧
  (∀ k, is_Some (get_call (grp w) k) ↔ is_Some (get_exp (grp w) k)) ∧
  (∀ k c, get_call (grp w) k = Some c →
     ∃ tk, tasks w !! c = Some tk ∧ key tk = k ∧
           forgotten (obj tk) = false ∧ live (pc tk) = true) ∧
  (∀ k1 k2 c, get_call (grp w) k1 = Some c → get_call (grp w) k2 = Some c →
     k1 = k2).
Proof.
  intros Hrun. destruct (run_init _ _ _ Hrun) as [Hwf _].
  split; [apply (wf_maps _ Hwf)|]. split; [|split].
  - intros k. rewrite <- !not_eq_None_Some. by rewrite (wf_dom _ Hwf).
  - apply (wf_reg _ Hwf).
  - intros k1 k2 c H1 H2.
    destruct (wf_reg _ Hwf _ _ H1) as (tk1 & E1 & <- & _).
    destruct (wf_reg _ Hwf _ _ H2) as (tk2 & E2 & <- & _). by simplify_eq.
Qed.

Lemma registry_invariant_witness :
  run stale_schedule init = Ok (stale_world, stale_events) ∧
  ∀ k c, get_call (grp stale_world) k = Some c →
    ∃ tk, tasks stale_world !! c = Some tk ∧ key tk = k ∧
          forgotten (obj tk) = false ∧ live (pc tk) = true.
Proof.
  assert (E : run stale_schedule init = Ok (stale_world, stale_events))
    by (vm_compute; reflexivity).
  split; [exact E|].
  exact (proj1 (proj2 (proj2 (registry_invariant _ _ _ E)))).
Defined.

(** * No panic *)

Lemma lock_total k d now now' w :
  wf w →
  (∃ w1 dec, Do_lock k d now now' w = Ok (w1, dec)) ∧
  (∃ w1 dec ch, DoChan_lock k d now now' w = Ok (w1, dec, ch)).
Proof.
  intros Hwf.
  assert (Hcase : (∃ c, get_call (grp w) k = Some c ∧ (get_time (grp w) k > now)%Z) ∨
                  (get_call (grp w) k = None ∨ (get_time (grp w) k ≤ now)%Z)).
  { destruct (get_call (grp w) k) as [c|]; [|by right; left].
    destruct (Z_gt_dec (get_time (grp w) k) now); [left; eauto|right; right; lia]. }
  destruct Hcase as [(c & Ek & Hgt)|Hno].
  - destruct (decide_join k d now now' w c Hwf Ek Hgt) as (tk & _ & H1 & H2).
    split; [by eexists _, _|by eexists _, _, _].
  - destruct (decide_create k d now now' w Hwf Hno) as (w1 & w2 & H1 & _ & _ & H2 & _).
    split; [by eexists _, _|by eexists _, _, _].
Qed.

Lemma step_no_panic a w : wf w → step a w ≠ Panic.
Proof.
  intros Hwf. destruct a; simpl.
  - destruct (proj1 (lock_total k validTime now now' w Hwf)) as (w1 & dec & ->). done.
  - destruct (proj2 (lock_total k validTime now now' w Hwf)) as (w1 & dec & ch & ->). done.
  - done.
  - unfold doCall_fn. repeat case_match; done.
  - unfold doCall_done. destruct (tasks w !! c) as [tk|] eqn:Ec; [|done].
    destruct (pc tk) eqn:Ep; try done.
    pose proof (wf_wg _ Hwf _ _ Ec) as Hwg. rewrite Ep in Hwg. simpl in Hwg.
    by rewrite Hwg.
  - unfold doCall_lock. repeat case_match; done.
  - unfold Do_return. repeat case_match; done.
  - unfold Do_wake. repeat case_match; done.
  - unfold recv. repeat case_match; done.
Qed.

Lemma run_no_panic acts w : wf w → run acts w ≠ Panic.
Proof.
  revert w. induction acts as [|a acts IH]; intros w Hwf; [done|]. simpl.
  destruct (step a w) as [[w1 e1]| |] eqn:Es; simpl;
    [|by destruct (step_no_panic a w Hwf)|done].
  pose proof (IH w1 (step_wf _ _ _ _ Hwf Es)) as Hn.
  destruct (run acts w1) as [[w2 e2]| |]; done.
Qed.

(** X2. No schedule panics: starting from the zero-value [Group], and
    continuing from any state reached from it, no assignment hits a nil
    map and no wait-group counter goes negative.  In every such state
    the critical sections of [Do] and [DoChan] run to their end. *)
Theorem never_panics (acts acts' : list action) (w : world) (evs : list event) :
  run acts init = Ok (w, evs) →
  run acts' w ≠ Panic ∧
  ∀ k d now now',
    (∃ w1 dec, Do_lock k d now now' w = Ok (w1, dec)) ∧
    (∃ w1 dec ch, DoChan_lock k d now now' w = Ok (w1, dec, ch)).
Proof.
  intros Hrun. destruct (run_init _ _ _ Hrun) as [Hwf _].
  split; [by apply run_no_panic|]. intros k d now now'. by apply lock_total.
Qed.

Lemma never_panics_witness :
  run stale_schedule init = Ok (stale_world, stale_events) ∧
  run [AWgDone 0; AWgDone 1; ADo "k" 0 5 5] stale_world ≠ Panic.
Proof.
  assert (E : run stale_schedule init = Ok (stale_world, stale_events))
    by (vm_compute; reflexivity).
  split; [exact E|].
  exact (proj1 (never_panics _ [AWgDone 0; AWgDone 1; ADo "k" 0 5 5] _ _ E)).
Defined.

(** * Registration happens at creation only *)

Lemma lock_cases k d now now' w :
  wf w →
  (∃ c tk, get_call (grp w) k = Some c ∧ (get_time (grp w) k > now)%Z ∧
     tasks w !! c = Some tk ∧
     Do_lock k d now now' w =
       Ok ({| grp := grp w;
              tasks := <[c := set_waiting (S (waiting tk))
                               (set_obj (inc_dups (obj tk)) tk)]> (tasks w);
              bufs := bufs w |}, Joined c) ∧
     DoChan_lock k d now now' w =
       Ok ({| grp := grp w;
              tasks := <[c := set_obj (add_chan (length (bufs w))
                               (inc_dups (obj tk))) tk]> (tasks w);
              bufs := bufs w ++ [[]] |}, Joined c, length (bufs w))) ∨
  (∃ w1 w2,
     (get_call (grp w) k = None ∨ (get_time (grp w) k ≤ now)%Z) ∧
     Do_lock k d now now' w = Ok (w1, Created (length (tasks w))) ∧
     created k (getValidTime now' d) true [] w w1 ∧ bufs w1 = bufs w ∧
     DoChan_lock k d now now' w =
       Ok (w2, Created (length (tasks w)), length (bufs w)) ∧
     created k (getValidTime now' d) false [length (bufs w)] w w2 ∧
     bufs w2 = bufs w ++ [[]]).
Proof.
  intros Hwf.
  assert (Hcase : (∃ c, get_call (grp w) k = Some c ∧ (get_time (grp w) k > now)%Z) ∨
                  (get_call (grp w) k = None ∨ (get_time (grp w) k ≤ now)%Z)).
  { destruct (get_call (grp w) k) as [c|]; [|by right; left].
    destruct (Z_gt_dec (get_time (grp w) k) now); [left; eauto|right; right; lia]. }
  destruct Hcase as [(c & Ek & Hgt)|Hno].
  - destruct (decide_join k d now now' w c Hwf Ek Hgt) as (tk & Hc & H1 & H2).
    left. exists c, tk. done.
  - destruct (decide_create k d now now' w Hwf Hno) as (w1 & w2 & H).
    right. exists w1, w2. done.
Qed.

(** A step registers only the call it allocates. *)
Lemma step_registers a w w' es k c :
  wf w → step a w = Ok (w', es) → get_call (grp w') k = Some c →
  get_call (grp w) k = Some c ∨ tasks w !! c = None.
Proof.
  intros Hwf H Hk.
  assert (Hnew : ∀ k0 x b cs w1, created k0 x b cs w w1 → get_call (grp w1) k = Some c →
    get_call (grp w) k = Some c ∨ tasks w !! c = None).
  { intros k0 x b cs w1 (_ & H1 & _ & H2) Hk1. destruct (decide (k = k0)) as [->|Hne].
    - right. rewrite H1 in Hk1. simplify_eq. by apply lookup_ge_None.
    - left. by rewrite <- (proj1 (H2 _ Hne)). }
  destruct a; simpl in H.
  - destruct (lock_cases k0 validTime now now' w Hwf)
      as [(c0 & tk & _ & _ & _ & E & _)|(w1 & w2 & _ & E & Hcr & _)];
      rewrite E in H; simpl in H; simplify_eq; [by left|by eapply Hnew].
  - destruct (lock_cases k0 validTime now now' w Hwf)
      as [(c0 & tk & _ & _ & _ & _ & E)|(w1 & w2 & _ & _ & _ & _ & E & Hcr & _)];
      rewrite E in H; simpl in H; simplify_eq; [by left|by eapply Hnew].
  - simplify_eq. unfold Forget in Hk. simpl in Hk. rewrite del_entry_call in Hk.
    case_decide; [done|by left].
  - unfold doCall_fn in H. repeat case_match; simplify_eq; by left.
  - unfold doCall_done in H. repeat case_match; simplify_eq; by left.
  - destruct (doCall_lock_Ok _ _ _ _ H) as (tk & _ & _ & Hg & _). rewrite Hg in Hk.
    destruct (forgotten (obj tk)); [by left|].
    rewrite del_entry_call in Hk. case_decide; [done|by left].
  - unfold Do_return in H. repeat case_match; simplify_eq; by left.
  - unfold Do_wake in H. repeat case_match; simplify_eq; by left.
  - unfold recv in H. repeat case_match; simplify_eq; by left.
Qed.

(** A caller joins only a call found in the registry. *)
Lemma join_needs_entry a w w' es e c :
  wf w → step a w = Ok (w', es) → e ∈ es → is_join c e = true →
  ∃ k, get_call (grp w) k = Some c.
Proof.
  intros Hwf H He Hj.
  destruct a; simpl in H.
  - destruct (lock_cases k validTime now now' w Hwf)
      as [(c0 & tk & Ek & _ & _ & E & _)|(w1 & w2 & _ & E & _)];
      rewrite E in H; simpl in H; simplify_eq;
      apply list_elem_of_singleton in He as ->; simpl in Hj; [|done].
    apply bool_decide_eq_true in Hj as ->. eauto.
  - destruct (lock_cases k validTime now now' w Hwf)
      as [(c0 & tk & Ek & _ & _ & _ & E)|(w1 & w2 & _ & _ & _ & _ & E & _)];
      rewrite E in H; simpl in H; simplify_eq;
      apply list_elem_of_singleton in He as ->; simpl in Hj; [|done].
    apply bool_decide_eq_true in Hj as ->. eauto.
  - simplify_eq. by apply elem_of_nil in He.
  - unfold doCall_fn in H. repeat case_match; simplify_eq;
      apply list_elem_of_singleton in He as ->; done.
  - unfold doCall_done in H. repeat case_match; simplify_eq; by apply elem_of_nil in He.
  - destruct (doCall_lock_Ok _ _ _ _ H) as (? & _ & _ & _ & _ & _ & ->).
    apply list_elem_of_fmap in He as (ch & -> & _); done.
  - unfold Do_return in H. repeat case_match; simplify_eq;
      apply list_elem_of_singleton in He as ->; done.
  - unfold Do_wake in H. repeat case_match; simplify_eq;
      apply list_elem_of_singleton in He as ->; done.
  - unfold recv in H. repeat case_match; simplify_eq;
      apply list_elem_of_singleton in He as ->; done.
Qed.

Lemma run_stays_unregistered acts w w' evs c tk :
  wf w → tasks w !! c = Some tk → (∀ k, get_call (grp w) k ≠ Some c) →
  run acts w = Ok (w', evs) →
  (∀ k, get_call (grp w') k ≠ Some c) ∧ ∀ e, e ∈ evs → is_join c e = false.
Proof.
  revert w evs tk. induction acts as [|a acts IH]; intros w evs tk Hwf Hc Hno H.
  - simpl in H. simplify_eq. split; [done|]. intros e He. by apply elem_of_nil in He.
  - apply run_cons_Ok in H as (w1 & e1 & e2 & Hs & Hr & ->).
    destruct (step_evolves _ _ _ _ _ _ Hs Hc) as (tk1 & Hc1 & _).
    assert (Hno1 : ∀ k, get_call (grp w1) k ≠ Some c).
    { intros k Hk. destruct (step_registers _ _ _ _ _ _ Hwf Hs Hk) as [Hk0|Hn].
      - by apply (Hno k).
      - congruence. }
    destruct (IH w1 e2 tk1 (step_wf _ _ _ _ Hwf Hs) Hc1 Hno1 Hr) as [H1 H2].
    split; [done|]. intros e [He|He]%elem_of_app; [|by apply H2].
    destruct (is_join c e) eqn:Ej; [|done].
    destruct (join_needs_entry _ _ _ _ _ _ Hwf Hs He Ej) as [k Hk]. by destruct (Hno k).
Qed.

(** X3. A call enters the registry only when [Do] or [DoChan] allocates
    it: once an allocated call is registered under no key (after its
    completion, a [Forget], or its replacement by a call created after
    its expiry), it is registered under no key in every continuation and
    no caller joins it. *)
Theorem unregistered_forever (acts acts' : list action) (w w' : world)
    (evs evs' : list event) (c : nat) (tk : task) :
  run acts init = Ok (w, evs) → tasks w !! c = Some tk →
  (∀ k, get_call (grp w) k ≠ Some c) →
  run acts' w = Ok (w', evs') →
  (∀ k, get_call (grp w') k ≠ Some c) ∧ (∀ e, e ∈ evs' → is_join c e = false).
Proof.
  intros Hrun Hc Hno Hrun'. destruct (run_init _ _ _ Hrun) as [Hwf _].
  by eapply run_stays_unregistered.
Qed.

Lemma unregistered_forever_witness :
  run stale_schedule init = Ok (stale_world, stale_events) ∧
  (∀ k, get_call (grp stale_world) k ≠ Some 0) ∧
  run [AComplete 0] stale_world = Ok (stale_after, []) ∧
  ∀ k, get_call (grp stale_after) k ≠ Some 0.
Proof.
  assert (E : run stale_schedule init = Ok (stale_world, stale_events))
    by (vm_compute; reflexivity).
  assert (E' : run [AComplete 0] stale_world = Ok (stale_after, []))
    by (vm_compute; reflexivity).
  assert (Hno : ∀ k, get_call (grp stale_world) k ≠ Some 0).
  { intros k Hk.
    destruct (wf_reg _ (proj1 (run_init _ _ _ E)) _ _ Hk) as (tk0 & E0 & Hkey & _).
    vm_compute in E0. injection E0 as <-. simpl in Hkey. subst k.
    vm_compute in Hk. discriminate Hk. }
  split; [exact E|]. split; [exact Hno|]. split; [exact E'|].
  exact (proj1 (unregistered_forever stale_schedule [AComplete 0] stale_world
    stale_after stale_events [] 0 _ E eq_refl Hno E')).
Defined.

(** * Composing [Forget] *)

Lemma del_entry_idem g k : del_entry (del_entry g k) k = del_entry g k.
Proof.
  unfold del_entry. simpl. destruct (m g), (t g); simpl; by rewrite ?delete_delete_eq.
Qed.

Lemma del_entry_comm g k1 k2 :
  del_entry (del_entry g k1) k2 = del_entry (del_entry g k2) k1.
Proof.
  unfold del_entry. simpl. destruct (m g), (t g); simpl;
    by rewrite ?(delete_delete _ k1 k2).
Qed.

Lemma mark_comm (l : list task) c1 c2 :
  alter (λ tk, set_obj (mark_forgotten (obj tk)) tk) c1
    (alter (λ tk, set_obj (mark_forgotten (obj tk)) tk) c2 l) =
  alter (λ tk, set_obj (mark_forgotten (obj tk)) tk) c2
    (alter (λ tk, set_obj (mark_forgotten (obj tk)) tk) c1 l).
Proof.
  destruct (decide (c1 = c2)) as [->|Hne]; [done|]. by apply list_alter_alter_ne.
Qed.

(** X4. [Forget] is idempotent, two [Forget]s commute, and [Forget]
    of one key leaves the entries of every other key as they are. *)
Theorem Forget_compose (k1 k2 : string) (w : world) :
  Forget k1 (Forget k1 w) = Forget k1 w ∧
  Forget k1 (Forget k2 w) = Forget k2 (Forget k1 w) ∧
  (k1 ≠ k2 →
     get_call (grp (Forget k1 w)) k2 = get_call (grp w) k2 ∧
     get_exp (grp (Forget k1 w)) k2 = get_exp (grp w) k2).
Proof.
  split; [|split].
  - unfold Forget at 1. simpl.
    rewrite del_entry_call, decide_True, del_entry_idem by done.
    by unfold Forget.
  - destruct (decide (k1 = k2)) as [->|Hne]; [done|].
    unfold Forget. simpl. rewrite !del_entry_call, !decide_False by done.
    rewrite (del_entry_comm _ k2 k1). f_equal.
    destruct (get_call (grp w) k1), (get_call (grp w) k2); simpl; try done.
    apply mark_comm.
  - intros Hne. unfold Forget. simpl.
    by rewrite del_entry_call, del_entry_exp, !decide_False.
Qed.

Lemma Forget_compose_witness :
  Forget "a" (Forget "b" stale_world) = Forget "b" (Forget "a" stale_world) ∧
  get_call (grp (Forget "a" stale_world)) "k" = Some 1.
Proof.
  destruct (Forget_compose "a" "b" stale_world) as (_ & H2 & _).
  destruct (Forget_compose "a" "k" stale_world) as (_ & _ & H3).
  split; [exact H2|]. rewrite (proj1 (H3 ltac:(discriminate))). reflexivity.
Defined.

(** * The validity window *)

(** X5. For a nonzero duration whose expiry does not overflow, a call
    stored with the expiry computed at clock second [now] is joinable at
    the reading [now1] exactly when [now1 < now + validTime / 1s] (the
    division truncating toward zero).  So it is joinable in its own
    creation second only if the duration is at least one second, and a
    duration of [n] whole seconds stops admitting joiners at second
    [now + n], whatever fraction of the creation second had elapsed. *)
Theorem validity_window (g : Group) (k : string) (c : nat) (now d now1 : Z) :
  d ≠ 0%Z → is_int64 (now + d ÷ Second) →
  get_call g k = Some c → get_exp g k = Some (getValidTime now d) →
  (joinable g k now1 = Some c ↔ (now1 < now + d ÷ Second)%Z) ∧
  (joinable g k now = Some c ↔ (Second ≤ d)%Z).
Proof.
  intros Hnz Hfit Hc He.
  assert (Hv : getValidTime now d = (now + d ÷ Second)%Z).
  { unfold getValidTime. apply Z.eqb_neq in Hnz. rewrite Hnz. by apply wrap64_small. }
  assert (Hj : ∀ x, joinable g k x = Some c ↔ (x < now + d ÷ Second)%Z).
  { intros x. rewrite joinable_Some. unfold get_time. rewrite He, Hv. simpl.
    split; [intros [_ ?]; lia|intros ?; split; [done|lia]]. }
  split; [apply Hj|]. rewrite Hj.
  assert (Hq : (0 < d ÷ Second ↔ Second ≤ d)%Z).
  { unfold Second. pose proof (Z.quot_rem' d 1000000000) as Hqr.
    pose proof (Z.rem_bound_abs d 1000000000 ltac:(lia)) as Hr.
    destruct (Z.le_ge_cases 0 d) as [Hs|Hs].
    - pose proof (Z.rem_nonneg d 1000000000 ltac:(lia) Hs). lia.
    - pose proof (Z.rem_nonpos d 1000000000 ltac:(lia) Hs). lia. }
  rewrite <- Hq. lia.
Qed.

Lemma validity_window_witness :
  ∃ g, get_call g "k" = Some 0 ∧
    (joinable g "k" 100 = Some 0 ↔ (Second ≤ 1500000000)%Z) ∧
    (joinable g "k" 101 = Some 0 ↔ (101 < 100 + 1500000000 ÷ Second)%Z).
Proof.
  pose (g := {| m := Some {["k" := 0]};
                t := Some {["k" := getValidTime 100 1500000000]} |}).
  exists g.
  assert (Hnz : 1500000000%Z ≠ 0%Z) by discriminate.
  assert (Hfit : is_int64 (100 + 1500000000 ÷ Second)) by (vm_compute; split; discriminate).
  assert (Hc : get_call g "k" = Some 0) by reflexivity.
  assert (He : get_exp g "k" = Some (getValidTime 100 1500000000)) by reflexivity.
  split; [exact Hc|].
  split.
  - exact (proj2 (validity_window g "k" 0 100 1500000000 100 Hnz Hfit Hc He)).
  - exact (proj1 (validity_window g "k" 0 100 1500000000 101 Hnz Hfit Hc He)).
Defined.

(** * Duplicate suppression, end to end *)

Lemma snoc_lookup {A} (l : list A) x : (l ++ [x]) !! length l = Some x.
Proof. by rewrite lookup_app_r, Nat.sub_diag. Qed.

Lemma snoc_insert {A} (l : list A) x y : <[length l := y]> (l ++ [x]) = l ++ [y].
Proof.
  rewrite insert_app_r_alt by done. by rewrite Nat.sub_diag.
Qed.

Lemma last_join l b g tk k d now now' :
  get_call g k = Some (length l) → (get_time g k > now)%Z →
  step (ADo k d now now') (with_last l b g tk) =
    Ok (with_last l b g (join_task tk), [EvDo (length l) true]).
Proof.
  intros Hc Hgt. simpl. unfold Do_lock. simpl.
  rewrite (lazy_init_id _ _ _ Hc).
  rewrite (proj2 (joinable_Some g k now (length l)) (conj Hc Hgt)).
  rewrite snoc_lookup. simpl. unfold with_last. by rewrite snoc_insert.
Qed.

Lemma last_joins l b g k args : ∀ tk,
  get_call g k = Some (length l) →
  Forall (λ a, (get_time g k > a.1.2)%Z) args →
  run (do_calls k args) (with_last l b g tk) =
    Ok (with_last l b g (Nat.iter (length args) join_task tk),
        replicate (length args) (EvDo (length l) true)).
Proof.
  induction args as [|a args IH]; intros tk Hc Hall; [done|].
  apply Forall_cons in Hall as [Ha Hall].
  change (do_calls k (a :: args)) with (ADo k a.1.1 a.1.2 a.2 :: do_calls k args).
  change (length (a :: args)) with (S (length args)). rewrite Nat.iter_succ_r.
  apply run_cons_Ok. eexists _, _, _. split; [by apply last_join|].
  split; [by apply IH|]. done.
Qed.

Lemma last_fn l b g tk v e :
  pc tk = AtFn →
  step (AFn (length l) v e) (with_last l b g tk) =
    Ok (with_last l b g (set_pc AtDone (set_obj (set_result v e (obj tk)) tk)),
        [EvCall (length l) v e]).
Proof.
  intros Hp. simpl. unfold doCall_fn. simpl. rewrite snoc_lookup, Hp.
  unfold with_last. by rewrite snoc_insert.
Qed.

Lemma last_done l b g tk n :
  pc tk = AtDone → wg (obj tk) = S n →
  step (AWgDone (length l)) (with_last l b g tk) =
    Ok (with_last l b g (set_pc AtLock (set_obj (set_wg n (obj tk)) tk)), []).
Proof.
  intros Hp Hw. simpl. unfold doCall_done. simpl. rewrite snoc_lookup, Hp, Hw.
  unfold with_last. by rewrite snoc_insert.
Qed.

Lemma last_wakes l b g n : ∀ tk r,
  wg (obj tk) = 0 → waiting tk = n + r →
  run (replicate n (AWake (length l))) (with_last l b g tk) =
    Ok (with_last l b g (set_waiting r tk),
        replicate n (EvReturn (length l) true
          {| Val := val (obj tk); Err := err (obj tk); Shared := true |})).
Proof.
  induction n as [|n IH]; intros tk r Hw Hn.
  - simpl in *. subst r. by destruct tk.
  - rewrite !replicate_S. apply run_cons_Ok.
    exists (with_last l b g (set_waiting (n + r) tk)),
      [EvReturn (length l) true
         {| Val := val (obj tk); Err := err (obj tk); Shared := true |}],
      (replicate n (EvReturn (length l) true
         {| Val := val (obj tk); Err := err (obj tk); Shared := true |})).
    split.
    { simpl. unfold Do_wake. simpl. rewrite snoc_lookup, Hn, Hw. simpl.
      unfold with_last. by rewrite snoc_insert. }
    split; [|done]. by apply (IH (set_waiting (n + r) tk) r).
Qed.

Lemma last_complete l b g tk :
  pc tk = AtLock → chans (obj tk) = [] → forgotten (obj tk) = false →
  step (AComplete (length l)) (with_last l b g tk) =
    Ok (with_last l b (del_entry g (key tk))
          (set_pc (if inline tk then AtReturn else Ended) tk), []).
Proof.
  intros Hp Hc Hf. simpl. unfold doCall_lock. simpl.
  rewrite snoc_lookup, Hp, Hc, Hf. simpl. unfold with_last. by rewrite snoc_insert.
Qed.

Lemma last_return l b g tk :
  pc tk = AtReturn →
  step (AReturn (length l)) (with_last l b g tk) =
    Ok (with_last l b g (set_pc Ended tk),
        [EvReturn (length l) false (result_of (obj tk))]).
Proof.
  intros Hp. simpl. unfold Do_return. simpl. rewrite snoc_lookup, Hp.
  unfold with_last. by rewrite snoc_insert.
Qed.

Lemma run_cons_step a acts w w1 w2 e1 e2 :
  step a w = Ok (w1, e1) → run acts w1 = Ok (w2, e2) →
  run (a :: acts) w = Ok (w2, e1 ++ e2).
Proof. intros H1 H2. apply run_cons_Ok. eauto 6. Qed.

Lemma run_app_step l1 l2 w w1 w2 e1 e2 :
  run l1 w = Ok (w1, e1) → run l2 w1 = Ok (w2, e2) →
  run (l1 ++ l2) w = Ok (w2, e1 ++ e2).
Proof. intros H1 H2. apply run_app. eauto 6. Qed.

Lemma iter_join n tk :
  Nat.iter n join_task tk =
  {| obj := {| wg := wg (obj tk); val := val (obj tk); err := err (obj tk);
               forgotten := forgotten (obj tk); dups := bump n (dups (obj tk));
               chans := chans (obj tk) |};
     key := key tk; pc := pc tk; inline := inline tk; waiting := n + waiting tk |}.
Proof.
  induction n as [|n IH]; simpl.
  - by destruct tk as [[] ? ? ? ?].
  - rewrite IH. reflexivity.
Qed.

Lemma bump_small n x :
  (0 ≤ x)%Z → (x + Z.of_nat n ≤ MaxInt64)%Z → bump n x = (x + Z.of_nat n)%Z.
Proof.
  intros Hx. induction n as [|n IH]; intros Hn; simpl; [lia|].
  fold (bump n x). rewrite IH by lia. rewrite wrap64_small; [lia|].
  unfold is_int64, MinInt64, MaxInt64 in *. lia.
Qed.

(** X6. Duplicate suppression, end to end.  From any reachable state in
    which the key is absent or expired, when one [Do] originates a call,
    any number [n] of further [Do] callers arrive before the expiry it
    stored, and the operation returns [(v, e)]: one call is allocated,
    the operation runs once, each of the [n] joiners returns
    [(v, e, true)], the originator returns [(v, e, dups > 0)] where
    [dups] is [n] (for [n] below 2^63), and afterwards the key is absent
    from the registry while every other key is as before.  With [n = 0]
    this is the sequential use: the result is returned unshared and
    nothing is retained. *)
Theorem Do_coalesces (acts0 : list action) (w : world) (evs0 : list event)
    (k : string) (d0 now0 now0' : Z) (args : list (Z * Z * Z))
    (v : any) (e : error) :
  run acts0 init = Ok (w, evs0) →
  get_call (grp w) k = None ∨ (get_time (grp w) k ≤ now0)%Z →
  Forall (λ a, (getValidTime now0' d0 > a.1.2)%Z) args →
  ∃ w',
    run (coalesced_schedule k d0 now0 now0' args (length (tasks w)) v e) w =
      Ok (w', coalesced_events (length (tasks w)) (length args) v e) ∧
    get_call (grp w') k = None ∧
    (∀ k', k' ≠ k → get_call (grp w') k' = get_call (grp w) k' ∧
                    get_exp (grp w') k' = get_exp (grp w) k') ∧
    bufs w' = bufs w ∧ length (tasks w') = S (length (tasks w)) ∧
    ((Z.of_nat (length args) < 2 ^ 63)%Z →
       bump (length args) 0 = Z.of_nat (length args)).
Proof.
  intros Hrun Hno Hall. destruct (run_init _ _ _ Hrun) as [Hwf _].
  destruct (decide_create k d0 now0 now0' w Hwf Hno)
    as (w1 & _ & Hdo & (Hts & Hk & Hx & Hother) & Hb & _).
  set (n := length args). set (c := length (tasks w)).
  set (tk0 := {| obj := new_call []; key := k; pc := AtFn; inline := true;
                 waiting := 0 |}) in *.
  destruct w1 as [g1 ts1 bs1]. simpl in Hts, Hk, Hx, Hother, Hb. subst ts1 bs1.
  change (MkWorld g1 (tasks w ++ [tk0]) (bufs w))
    with (with_last (tasks w) (bufs w) g1 tk0) in Hdo.
  assert (Hall' : Forall (λ a, (get_time g1 k > a.1.2)%Z) args).
  { unfold get_time. by rewrite Hx. }
  pose proof (last_joins (tasks w) (bufs w) g1 k args tk0 Hk Hall') as Hj.
  rewrite iter_join in Hj. simpl in Hj. fold n c in Hj.
  set (o1 := {| wg := 1; val := Nil; err := None; forgotten := false;
                dups := bump n 0; chans := [] |}) in *.
  set (tk1 := MkTask o1 k AtFn true (n + 0)) in *.
  set (tk2 := MkTask (set_result v e o1) k AtDone true (n + 0)).
  set (tk3 := MkTask (set_wg 0 (set_result v e o1)) k AtLock true (n + 0)).
  set (tk4 := MkTask (set_wg 0 (set_result v e o1)) k AtLock true 0).
  set (tk5 := MkTask (set_wg 0 (set_result v e o1)) k AtReturn true 0).
  set (tk6 := MkTask (set_wg 0 (set_result v e o1)) k Ended true 0).
  pose proof (last_fn (tasks w) (bufs w) g1 tk1 v e eq_refl) as Hfn.
  pose proof (last_done (tasks w) (bufs w) g1 tk2 0 eq_refl eq_refl) as Hdn.
  pose proof (last_wakes (tasks w) (bufs w) g1 n tk3 0 eq_refl eq_refl) as Hwk.
  pose proof (last_complete (tasks w) (bufs w) g1 tk4 eq_refl eq_refl eq_refl) as Hcp.
  pose proof (last_return (tasks w) (bufs w) (del_entry g1 k) tk5 eq_refl) as Hrt.
  exists (with_last (tasks w) (bufs w) (del_entry g1 k) tk6). split.
  - unfold coalesced_schedule, coalesced_events. fold n c.
    change (EvDo c false :: ?x) with ([EvDo c false] ++ x).
    eapply run_cons_step; [simpl; rewrite Hdo; reflexivity|].
    eapply run_app_step; [exact Hj|].
    change ([AFn c v e; AWgDone c] ++ ?x) with (AFn c v e :: AWgDone c :: x).
    change ([EvCall c v e] ++ ?x) with ([EvCall c v e] ++ [] ++ x).
    eapply run_cons_step; [exact Hfn|].
    eapply run_cons_step; [exact Hdn|].
    eapply run_app_step; [exact Hwk|].
    change [AComplete c; AReturn c] with (AComplete c :: AReturn c :: []).
    change [EvReturn c false ?r] with ([] ++ [EvReturn c false r] ++ []).
    eapply run_cons_step; [exact Hcp|].
    eapply run_cons_step; [exact Hrt|]. reflexivity.
  - simpl. split; [by rewrite del_entry_call, decide_True|]. split; [|split; [done|split]].
    + intros k' Hne. rewrite del_entry_call, del_entry_exp, !decide_False by done.
      by apply Hother.
    + rewrite length_app. simpl. lia.
    + intros Hn. rewrite bump_small; unfold MaxInt64; lia.
Qed.

Lemma Do_coalesces_witness :
  ∃ w',
    run (coalesced_schedule "key" 100000000000 0 0
           [(100000000000, 0, 0); (100000000000, 99, 99)]%Z 0 (Str "bar") None) init =
      Ok (w', coalesced_events 0 2 (Str "bar") None) ∧
    get_call (grp w') "key" = None.
Proof.
  assert (Hall : Forall (λ a : Z * Z * Z, (getValidTime 0 100000000000 > a.1.2)%Z)
                   [(100000000000, 0, 0); (100000000000, 99, 99)]%Z).
  { repeat constructor. }
  destruct (Do_coalesces [] init [] "key" 100000000000 0 0 _ (Str "bar") None
              eq_refl (or_introl eq_refl) Hall) as (w' & H1 & H2 & _).
  exists w'. split; [exact H1|exact H2].
Defined.

(** * [DoChan] used alone *)

Lemma last_complete_one l b g tk ch :
  pc tk = AtLock → chans (obj tk) = [ch] → forgotten (obj tk) = false →
  b !! ch = Some [] →
  step (AComplete (length l)) (with_last l b g tk) =
    Ok (with_last l (<[ch := [result_of (obj tk)]]> b) (del_entry g (key tk))
          (set_pc (if inline tk then AtReturn else Ended) tk),
        [EvSend (length l) ch (result_of (obj tk))]).
Proof.
  intros Hp Hc Hf Hb. simpl. unfold doCall_lock. simpl.
  rewrite snoc_lookup, Hp, Hc, Hf. simpl.
  rewrite (proj2 (send_Some ch _ b _) (conj Hb eq_refl)).
  unfold with_last. by rewrite snoc_insert.
Qed.

(** X7. [DoChan] used alone: from any reachable state in which the
    key is absent or expired, [DoChan] returns a new channel, the
    operation runs once in the spawned [doCall], and the channel yields
    exactly [Result{v, e, false}]; afterwards the key is absent from
    the registry, every other key is as before, and the channel is
    empty. *)
Theorem DoChan_alone (acts0 : list action) (w : world) (evs0 : list event)
    (k : string) (d now now' : Z) (v : any) (e : error) :
  run acts0 init = Ok (w, evs0) →
  get_call (grp w) k = None ∨ (get_time (grp w) k ≤ now)%Z →
  ∃ w',
    run [ADoChan k d now now'; AFn (length (tasks w)) v e;
         AWgDone (length (tasks w)); AComplete (length (tasks w));
         ARecv (length (bufs w))] w =
      Ok (w', [EvChan (length (tasks w)) false (length (bufs w));
               EvCall (length (tasks w)) v e;
               EvSend (length (tasks w)) (length (bufs w))
                 {| Val := v; Err := e; Shared := false |};
               EvRecv (length (bufs w)) {| Val := v; Err := e; Shared := false |}]) ∧
    get_call (grp w') k = None ∧
    (∀ k', k' ≠ k → get_call (grp w') k' = get_call (grp w) k' ∧
                    get_exp (grp w') k' = get_exp (grp w) k') ∧
    bufs w' = bufs w ++ [[]].
Proof.
  intros Hrun Hno. destruct (run_init _ _ _ Hrun) as [Hwf _].
  destruct (decide_create k d now now' w Hwf Hno)
    as (_ & w2 & _ & _ & _ & Hdo & (Hts & Hk & Hx & Hother) & Hb).
  set (c := length (tasks w)) in *. set (ch := length (bufs w)) in *.
  set (r := {| Val := v; Err := e; Shared := false |}).
  set (o1 := new_call [ch]) in *.
  set (tk1 := MkTask o1 k AtFn false 0) in *.
  set (tk2 := MkTask (set_result v e o1) k AtDone false 0).
  set (tk3 := MkTask (set_wg 0 (set_result v e o1)) k AtLock false 0).
  set (tk4 := MkTask (set_wg 0 (set_result v e o1)) k Ended false 0).
  destruct w2 as [g2 ts2 bs2]. simpl in Hts, Hk, Hx, Hother, Hb. subst ts2 bs2.
  assert (Hch : (bufs w ++ [[]]) !! ch = Some (@nil Result)) by apply snoc_lookup.
  pose proof (last_fn (tasks w) (bufs w ++ [[]]) g2 tk1 v e eq_refl) as Hfn.
  pose proof (last_done (tasks w) (bufs w ++ [[]]) g2 tk2 0 eq_refl eq_refl) as Hdn.
  pose proof (last_complete_one (tasks w) (bufs w ++ [[]]) g2 tk3 ch
                eq_refl eq_refl eq_refl Hch) as Hcp.
  exists (with_last (tasks w) (bufs w ++ [[]]) (del_entry g2 k) tk4). split.
  - change [EvChan c false ch; EvCall c v e; EvSend c ch r; EvRecv ch r]
      with ([EvChan c false ch] ++ [EvCall c v e] ++ [] ++ [EvSend c ch r] ++
            [EvRecv ch r] ++ []).
    eapply run_cons_step; [simpl; rewrite Hdo; reflexivity|].
    eapply run_cons_step; [exact Hfn|].
    eapply run_cons_step; [exact Hdn|].
    eapply run_cons_step; [exact Hcp|].
    eapply run_cons_step; [|reflexivity].
    simpl. unfold recv. simpl. unfold ch. rewrite snoc_insert, snoc_lookup. simpl.
    by rewrite snoc_insert.
  - simpl. split; [by rewrite del_entry_call, decide_True|]. split; [|done].
    intros k' Hne. rewrite del_entry_call, del_entry_exp, !decide_False by done.
    by apply Hother.
Qed.

Lemma DoChan_alone_witness :
  ∃ w',
    run [ADoChan "key" 0 0 0; AFn 0 Nil (Some "some error"); AWgDone 0;
         AComplete 0; ARecv 0] init =
      Ok (w', [EvChan 0 false 0; EvCall 0 Nil (Some "some error");
               EvSend 0 0 {| Val := Nil; Err := Some "some error"; Shared := false |};
               EvRecv 0 {| Val := Nil; Err := Some "some error"; Shared := false |}]) ∧
    bufs w' = [[]].
Proof.
  destruct (DoChan_alone [] init [] "key" 0 0 0 Nil (Some "some error")
              eq_refl (or_introl eq_refl)) as (w' & H1 & _ & _ & H2).
  exists w'. split; [exact H1|exact H2].
Defined.

(** * Channels are used once *)

Lemma count_one f e : count f [e] = if f e then 1 else 0.
Proof. unfold count. simpl. by destruct (f e). Qed.

(** One step: what it adds to a buffer and receives from it is what it
    sends on the channel. *)
Lemma step_buf_balance a w w' es ch :
  wf w → step a w = Ok (w', es) →
  buffered w' ch + count (is_recv ch) es = buffered w ch + count (is_send ch) es.
Proof.
  intros Hwf H. unfold buffered.
  assert (Hsnoc : default [] ((bufs w ++ [[]]) !! ch) = default [] (bufs w !! ch)).
  { destruct (decide (ch < length (bufs w))) as [Hlt|Hge].
    - by rewrite lookup_app_l.
    - rewrite (proj2 (lookup_ge_None (bufs w) ch)) by lia.
      destruct ((bufs w ++ [[]]) !! ch) as [x|] eqn:E; [|done].
      apply lookup_snoc_inv in E as [[_ ->]|[? _]]; [done|lia]. }
  destruct a; simpl in H.
  - destruct (lock_cases k validTime now now' w Hwf)
      as [(c0 & tk & _ & _ & _ & E & _)|(w1 & w2 & _ & E & _ & Hb & _)];
      rewrite E in H; simpl in H; simplify_eq; simpl; rewrite ?Hb; done.
  - destruct (lock_cases k validTime now now' w Hwf)
      as [(c0 & tk & _ & _ & _ & _ & E)|(w1 & w2 & _ & _ & _ & _ & E & _ & Hb)];
      rewrite E in H; simpl in H; simplify_eq; simpl; rewrite ?Hb, Hsnoc; done.
  - simplify_eq. done.
  - unfold doCall_fn in H. repeat case_match; simplify_eq; done.
  - unfold doCall_done in H. repeat case_match; simplify_eq; done.
  - destruct (doCall_lock_Ok _ _ _ _ H) as (tk & Hc & Hp & _ & _ & Hd & ->).
    assert (Hnone : count (is_recv ch) ((λ x, EvSend c x (result_of (obj tk))) <$> chans (obj tk)) = 0).
    { apply count_zero. by intros e (x & -> & _)%list_elem_of_fmap. }
    rewrite Hnone, Nat.add_0_r.
    destruct (decide (ch ∈ chans (obj tk))) as [Hin|Hin].
    + rewrite (deliver_sent _ _ _ _ _ _ _ Hd Hin).
      rewrite (wf_chan_empty _ Hwf _ _ _ Hc) by (by rewrite ?Hp).
      rewrite count_sends_in; [done|by eapply wf_chans_NoDup|done].
    + rewrite (deliver_other _ _ _ _ _ _ _ Hd Hin), count_sends_notin by done. lia.
  - unfold Do_return in H. repeat case_match; simplify_eq; done.
  - unfold Do_wake in H. repeat case_match; simplify_eq; done.
  - unfold recv in H. destruct (bufs w !! ch0) as [[|r b]|] eqn:Eb; try done.
    simplify_eq. simpl. rewrite !count_one. simpl.
    destruct (decide (ch0 = ch)) as [->|Hne].
    + rewrite bool_decide_eq_true_2 by done.
      rewrite list_lookup_insert_eq by (by eapply lookup_lt_Some).
      rewrite Eb. simpl. lia.
    + rewrite bool_decide_eq_false_2 by done.
      by rewrite list_lookup_insert_ne.
Qed.

Lemma run_buf_balance acts w w' es ch :
  wf w → run acts w = Ok (w', es) →
  buffered w' ch + count (is_recv ch) es = buffered w ch + count (is_send ch) es.
Proof.
  revert w es. induction acts as [|a acts IH]; intros w es Hwf H.
  - simpl in H. by simplify_eq.
  - apply run_cons_Ok in H as (w1 & e1 & e2 & Hs & Hr & ->).
    pose proof (step_buf_balance _ _ _ _ ch Hwf Hs).
    pose proof (IH _ _ (step_wf _ _ _ _ Hwf Hs) Hr).
    rewrite !count_app. lia.
Qed.

(** In every execution a channel is sent to at most once. *)
Lemma sent_at_most_once w evs ch :
  wf w → hist w evs → count (is_send ch) evs ≤ 1.
Proof.
  intros Hwf Hh. destruct (count (is_send ch) evs) as [|n] eqn:E; [lia|].
  destruct (count_pos_inv (is_send ch) evs ltac:(lia)) as (e & He & Hs).
  destruct e as [| | |c ch' r| |]; simpl in Hs; try done.
  apply bool_decide_eq_true in Hs as ->.
  pose proof (hist_alloc _ _ Hh _ c He eq_refl) as Hlt.
  apply lookup_lt_is_Some_2 in Hlt as [tk Hc].
  pose proof (hist_task_of _ _ Hh _ _ Hc) as Ht.
  destruct (h_send _ _ _ Ht _ _ He) as (_ & Hin & _).
  rewrite (h_sent _ _ _ Ht _ Hin) in E. destruct (live (pc tk)); lia.
Qed.

(** X8. A channel made by [DoChan] is used once: in every execution at
    most one [Result] is ever sent on it, its buffer (of capacity 1)
    holds what was sent and not yet received, and so at most one
    [Result] is ever received from it. *)
Theorem channel_single_use (acts : list action) (w : world) (evs : list event)
    (ch : nat) :
  run acts init = Ok (w, evs) →
  count (is_send ch) evs ≤ 1 ∧
  buffered w ch + count (is_recv ch) evs = count (is_send ch) evs ∧
  count (is_recv ch) evs ≤ 1 ∧ buffered w ch ≤ 1.
Proof.
  intros Hrun. destruct (run_init _ _ _ Hrun) as [Hwf Hh].
  pose proof (sent_at_most_once _ _ ch Hwf Hh) as H1.
  pose proof (run_buf_balance _ _ _ _ ch wf_init Hrun) as H2.
  unfold buffered at 2 in H2. simpl in H2. lia.
Qed.

Lemma channel_single_use_witness :
  run failing_schedule init = Ok (failing_world, failing_events) ∧
  count (is_send 0) failing_events ≤ 1 ∧
  buffered failing_world 0 + count (is_recv 0) failing_events =
    count (is_send 0) failing_events.
Proof.
  assert (E : run failing_schedule init = Ok (failing_world, failing_events))
    by (vm_compute; reflexivity).
  destruct (channel_single_use _ _ _ 0 E) as (H1 & H2 & _).
  split; [exact E|]. split; [exact H1|exact H2].
Defined.

(** * Accounting for callers *)

(** One step changes one call, or allocates one, or changes none. *)
Lemma step_change a w w' es :
  wf w → step a w = Ok (w', es) →
  (∃ c tk tk', tasks w !! c = Some tk ∧ tasks w' = <[c := tk']> (tasks w) ∧
     change a c tk tk' es) ∨
  (∃ tk0 e0, tasks w' = tasks w ++ [tk0] ∧ es = [e0] ∧
     born (length (tasks w)) tk0 e0) ∨
  (tasks w' = tasks w ∧ ∀ e, e ∈ es → ev_call e = None).
Proof.
  intros Hwf H. destruct a; simpl in H.
  - destruct (lock_cases k validTime now now' w Hwf)
      as [(c0 & tk & _ & _ & Hc & E & _)|(w1 & w2 & _ & E & (Hts & _) & _)];
      rewrite E in H; simpl in H; simplify_eq.
    + left. exists c0, tk, (join_task tk). split; [done|]. split; [done|]. constructor.
    + right. left. eexists _, _. split; [exact Hts|]. split; [done|].
      split; [done|]. split; [done|]. by left.
  - destruct (lock_cases k validTime now now' w Hwf)
      as [(c0 & tk & _ & _ & Hc & _ & E)|(w1 & w2 & _ & _ & _ & _ & E & (Hts & _) & _)];
      rewrite E in H; simpl in H; simplify_eq.
    + left. eexists c0, tk, _. split; [done|]. split; [done|]. constructor.
    + right. left. eexists _, _. split; [exact Hts|]. split; [done|].
      split; [done|]. split; [done|]. right. eauto.
  - simplify_eq. unfold Forget. destruct (get_call (grp w) k) as [c|] eqn:Ek.
    + destruct (wf_reg _ Hwf _ _ Ek) as (tk & Hc & _). left.
      eexists c, tk, _. split; [done|]. simpl.
      split; [by apply alter_as_insert|]. constructor.
    + right. right. split; [done|]. intros e He. by apply elem_of_nil in He.
  - unfold doCall_fn in H. destruct (tasks w !! c) as [tk|] eqn:Ec; [|done].
    destruct (pc tk) eqn:Ep; try done. simplify_eq. left.
    eexists c, tk, _. split; [done|]. split; [done|]. by constructor.
  - unfold doCall_done in H. destruct (tasks w !! c) as [tk|] eqn:Ec; [|done].
    destruct (pc tk) eqn:Ep; try done. destruct (wg (obj tk)) as [|n]; [done|].
    simplify_eq. left. eexists c, tk, _. split; [done|]. split; [done|]. by constructor.
  - destruct (doCall_lock_Ok _ _ _ _ H) as (tk & Hc & Hp & _ & Hts & _ & ->). left.
    eexists c, tk, _. split; [done|]. split; [exact Hts|]. by constructor.
  - unfold Do_return in H. destruct (tasks w !! c) as [tk|] eqn:Ec; [|done].
    destruct (pc tk) eqn:Ep; try done. simplify_eq. left.
    eexists c, tk, _. split; [done|]. split; [done|]. by constructor.
  - unfold Do_wake in H. destruct (tasks w !! c) as [tk|] eqn:Ec; [|done].
    destruct (waiting tk) as [|n] eqn:En; [done|].
    destruct (wg (obj tk)); [|done]. simplify_eq. left.
    eexists c, tk, _. split; [done|]. split; [done|]. by constructor.
  - unfold recv in H. destruct (bufs w !! ch) as [[|r b]|]; try done. simplify_eq.
    right. right. split; [done|]. by intros e ->%list_elem_of_singleton.
Qed.

Lemma change_events a c tk tk' es e :
  change a c tk tk' es → e ∈ es → ev_call e = Some c.
Proof.
  intros Hch He. inversion Hch; subst;
    try (by apply elem_of_nil in He);
    try (apply list_elem_of_singleton in He as ->; done).
  by apply list_elem_of_fmap in He as (ch & -> & _).
Qed.

Lemma handed_app c l1 l2 : handed c (l1 ++ l2) = handed c l1 ++ handed c l2.
Proof. unfold handed. apply omap_app. Qed.

Lemma handed_none c es : (∀ e, e ∈ es → chan_of c e = None) → handed c es = [].
Proof.
  unfold handed. induction es as [|x es IH]; intros H; [done|]. simpl.
  rewrite (H x) by by left. apply IH. intros e He. apply H. by right.
Qed.

Lemma chan_of_call c e ch : chan_of c e = Some ch → ev_call e = Some c.
Proof.
  destruct e; simpl; try done. case_bool_decide; [by subst|done].
Qed.

Lemma pred_call (f : nat → event → bool) c e :
  (f = is_wake ∨ f = is_do_join ∨ f = is_orig_ret ∨
   f = (λ c, is_born c true) ∨ f = (λ c, is_born c false)) →
  f c e = true → ev_call e = Some c.
Proof.
  intros Hf.
  destruct e as [c' j|c' j ch|c' v e'|c' ch r|c' j r|ch r];
    destruct Hf as [Hf|[Hf|[Hf|[Hf|Hf]]]]; subst f; simpl; try done;
    destruct j; simpl; try done; by intros ->%bool_decide_eq_true.
Qed.

(** Events about other calls change no account of a call. *)
Lemma acct_frame c tk evs es :
  acct_task c tk evs → (∀ e, e ∈ es → ev_call e ≠ Some c) →
  acct_task c tk (evs ++ es).
Proof.
  intros [Hw Hc Hd Hn Hr Ho] Hother.
  assert (Hz : ∀ f, (∀ e, f e = true → ev_call e = Some c) → count f es = 0).
  { intros f Hf. apply count_zero. intros e He. destruct (f e) eqn:E; [|done].
    by destruct (Hother _ He (Hf _ E)). }
  split; try done.
  - rewrite !count_app, (Hz (is_wake c)), (Hz (is_do_join c)); [lia|..];
      intros e; apply (pred_call _ c e); auto.
  - rewrite handed_app, (handed_none c es), app_nil_r; [done|].
    intros e He. destruct (chan_of c e) eqn:E; [|done].
    by destruct (Hother _ He (chan_of_call _ _ _ E)).
  - rewrite count_app, (Hz (is_born c true)); [lia|].
    intros e. apply (pred_call (λ c, is_born c true) c e). auto.
  - rewrite count_app, (Hz (is_born c false)); [lia|].
    intros e. apply (pred_call (λ c, is_born c false) c e). auto 6.
  - rewrite count_app, (Hz (is_orig_ret c)); [lia|].
    intros e. apply (pred_call _ c e). auto.
Qed.

(** The accounts of the call that a step works on. *)
Lemma acct_change a c tk tk' evs es :
  acct_task c tk evs → change a c tk tk' es → acct_task c tk' (evs ++ es).
Proof.
  intros [Hw Hc Hd Hn Hr Ho] Hch.
  assert (Hsends : ∀ f x, (∀ ch r, f (EvSend c ch r) = false) →
    count f ((λ ch, EvSend c ch x) <$> chans (obj tk)) = 0).
  { intros f x Hf. apply count_zero. intros e (ch & -> & _)%list_elem_of_fmap. apply Hf. }
  inversion Hch; subst; simpl.
  - split; simpl; rewrite ?count_snoc, ?handed_app; simpl;
      rewrite ?bool_decide_eq_true_2, ?app_nil_r by done; try done; lia.
  - split; simpl; rewrite ?count_snoc, ?handed_app; simpl;
      rewrite ?bool_decide_eq_true_2, ?app_nil_r by done; try done; try lia.
    by rewrite Hc.
  - rewrite app_nil_r. by split.
  - split; simpl; rewrite ?count_snoc, ?handed_app; simpl;
      rewrite ?app_nil_r; try done; try lia.
    rewrite Ho. rewrite Nat.add_0_r. by destruct (pc tk).
  - rewrite app_nil_r. split; simpl; try done. rewrite Ho. by destruct (pc tk).
  - split; simpl; rewrite ?count_app, ?handed_app, ?Hsends by done; try lia.
    + rewrite (handed_none c (_ <$> _)), app_nil_r; [done|].
      by intros e (ch & -> & _)%list_elem_of_fmap.
    + by destruct (inline tk).
    + rewrite Ho. destruct (pc tk), (inline tk); simpl; try done.
  - split; simpl; rewrite ?count_snoc, ?handed_app; simpl;
      rewrite ?bool_decide_eq_true_2, ?app_nil_r by done; try done; try lia.
    rewrite Ho. destruct (pc tk) eqn:Ep; try done. rewrite (Hr eq_refl). done.
  - split; simpl; rewrite ?count_snoc, ?handed_app; simpl;
      rewrite ?bool_decide_eq_true_2, ?app_nil_r by done; try done; lia.
Qed.

Lemma acct_born c tk e0 evs :
  born c tk e0 → (∀ e, e ∈ evs → ev_call e ≠ Some c) →
  acct_task c tk (evs ++ [e0]).
Proof.
  intros (Hp & Hw & Hb) Hother.
  assert (Hz : ∀ f, (∀ e, f e = true → ev_call e = Some c) → count f evs = 0).
  { intros f Hf. apply count_zero. intros e He. destruct (f e) eqn:E; [|done].
    by destruct (Hother _ He (Hf _ E)). }
  assert (Hh : handed c evs = []).
  { apply handed_none. intros e He. destruct (chan_of c e) eqn:E; [|done].
    by destruct (Hother _ He (chan_of_call _ _ _ E)). }
  assert (Hz1 : count (is_wake c) evs = 0) by (apply Hz; intros e; apply (pred_call _ c e); auto).
  assert (Hz2 : count (is_do_join c) evs = 0) by (apply Hz; intros e; apply (pred_call _ c e); auto).
  assert (Hz3 : count (is_orig_ret c) evs = 0) by (apply Hz; intros e; apply (pred_call _ c e); auto).
  assert (Hz4 : count (is_born c true) evs = 0).
  { apply Hz. intros e. apply (pred_call (λ c, is_born c true) c e). auto. }
  assert (Hz5 : count (is_born c false) evs = 0).
  { apply Hz. intros e. apply (pred_call (λ c, is_born c false) c e). auto 6. }
  destruct Hb as [(Hi & -> & Hc)|(ch & Hi & -> & Hc)];
    split; rewrite ?count_snoc, ?handed_app, ?Hz1, ?Hz2, ?Hz3, ?Hz4, ?Hz5, ?Hh, ?Hp, ?Hi,
      ?Hw, ?Hc; simpl; rewrite ?bool_decide_eq_true_2 by done; done.
Qed.

Lemma step_acct a w w' es evs :
  wf w → hist w evs → acct w evs → step a w = Ok (w', es) → acct w' (evs ++ es).
Proof.
  intros Hwf Hh Ha H c tk' Hc'.
  destruct (step_change _ _ _ _ Hwf H)
    as [(c0 & tk0 & tk0' & Hc0 & Hts & Hch)|[(tk0 & e0 & Hts & -> & Hb)|[Hts Hnone]]];
    rewrite Hts in Hc'.
  - apply lookup_upd in Hc' as [(-> & -> & _)|[Hne Hc']].
    + eapply acct_change; eauto.
    + apply acct_frame; [by apply Ha|]. intros e He.
      rewrite (change_events _ _ _ _ _ _ Hch He). congruence.
  - apply lookup_snoc_inv in Hc' as [[-> ->]|[Hlt Hc']].
    + apply acct_born; [done|]. intros e He Hcall.
      pose proof (hist_alloc _ _ Hh _ _ He Hcall). lia.
    + apply acct_frame; [by apply Ha|]. intros e ->%list_elem_of_singleton.
      destruct Hb as (_ & _ & [(_ & -> & _)|(ch & _ & -> & _)]); simpl; intros [=]; lia.
  - apply acct_frame; [by apply Ha|]. intros e He. by rewrite (Hnone _ He).
Qed.

Lemma run_acct acts w w' es evs :
  wf w → hist w evs → acct w evs → run acts w = Ok (w', es) → acct w' (evs ++ es).
Proof.
  revert w evs es. induction acts as [|a acts IH]; intros w evs es Hwf Hh Ha H.
  - simpl in H. simplify_eq. by rewrite app_nil_r.
  - apply run_cons_Ok in H as (w1 & e1 & e2 & Hs & Hr & ->).
    rewrite app_assoc. eapply IH; [|by eapply step_hist|by eapply step_acct|done].
    by eapply step_wf.
Qed.

Lemma run_init_acct acts w evs : run acts init = Ok (w, evs) → acct w evs.
Proof.
  intros H. apply (run_acct acts init w evs [] wf_init hist_init); [|done].
  intros c tk Hc. by destruct c.
Qed.

(** X9. The [Do] callers that joined a call are all accounted for: at
    every moment the number still blocked in [c.wg.Wait()] plus the
    number that have returned equals the number that joined, and none
    has returned before the wait group was released. *)
Theorem waiters_accounted (acts : list action) (w : world) (evs : list event)
    (c : nat) (tk : task) :
  run acts init = Ok (w, evs) → tasks w !! c = Some tk →
  waiting tk + count (is_wake c) evs = count (is_do_join c) evs ∧
  (0 < count (is_wake c) evs → signalled (pc tk) = true ∧ wg (obj tk) = 0).
Proof.
  intros Hrun Hc. destruct (run_init _ _ _ Hrun) as [Hwf Hh].
  split; [apply (a_wait _ _ _ (run_init_acct _ _ _ Hrun _ _ Hc))|].
  intros (e & He & Hf)%count_pos_inv.
  destruct e as [| | | |c' [] r|]; simpl in Hf; try done.
  apply bool_decide_eq_true in Hf as ->.
  destruct (h_ret _ _ _ (hist_task_of _ _ Hh _ _ Hc) _ _ He) as (Hs & _).
  split; [done|]. by rewrite (wf_wg _ Hwf _ _ Hc), Hs.
Qed.

Lemma waiters_accounted_witness :
  run share_schedule init = Ok (share_world, share_events) ∧
  ∃ tk, tasks share_world !! 0 = Some tk ∧
    waiting tk + count (is_wake 0) share_events = count (is_do_join 0) share_events.
Proof.
  assert (E : run share_schedule init = Ok (share_world, share_events))
    by (vm_compute; reflexivity).
  split; [exact E|]. eexists. split; [reflexivity|].
  exact (proj1 (waiters_accounted share_schedule share_world share_events 0 _ E eq_refl)).
Defined.

(** X10. [c.chans] is exactly the list of channels that [DoChan]
    returned to the callers of the call (the originator's first), in
    the order they arrived; while the call is live none of them has been
    sent to, and once its completion handling has run each has been sent
    to exactly once. *)
Theorem chans_are_handed (acts : list action) (w : world) (evs : list event)
    (c : nat) (tk : task) :
  run acts init = Ok (w, evs) → tasks w !! c = Some tk →
  chans (obj tk) = handed c evs ∧
  ∀ ch, ch ∈ handed c evs →
    count (is_send ch) evs = if live (pc tk) then 0 else 1.
Proof.
  intros Hrun Hc. destruct (run_init _ _ _ Hrun) as [Hwf Hh].
  pose proof (a_chans _ _ _ (run_init_acct _ _ _ Hrun _ _ Hc)) as Hch.
  split; [done|]. intros ch Hin. rewrite <- Hch in Hin.
  by apply (h_sent _ _ _ (hist_task_of _ _ Hh _ _ Hc)).
Qed.

Lemma chans_are_handed_witness :
  run sinks_schedule init = Ok (sinks_world, sinks_events) ∧
  ∃ tk, tasks sinks_world !! 0 = Some tk ∧ chans (obj tk) = [0; 1] ∧
    handed 0 sinks_events = [0; 1].
Proof.
  assert (E : run sinks_schedule init = Ok (sinks_world, sinks_events))
    by (vm_compute; reflexivity).
  split; [exact E|]. eexists. split; [reflexivity|]. split; [reflexivity|].
  rewrite <- (proj1 (chans_are_handed sinks_schedule sinks_world sinks_events 0 _
    E eq_refl)). reflexivity.
Defined.

(** X11. Every allocated call has exactly one originator, a [Do] or a
    [DoChan]; an originating [Do] returns at most once, and it has
    returned exactly when its [doCall] is over and line 76 has run; a
    call created by [DoChan] has no returning originator. *)
Theorem one_originator (acts : list action) (w : world) (evs : list event)
    (c : nat) (tk : task) :
  run acts init = Ok (w, evs) → tasks w !! c = Some tk →
  count (is_born c true) evs + count (is_born c false) evs = 1 ∧
  count (is_born c true) evs = (if inline tk then 1 else 0) ∧
  count (is_orig_ret c) evs ≤ 1 ∧
  (count (is_orig_ret c) evs = 1 ↔ inline tk = true ∧ pc tk = Ended).
Proof.
  intros Hrun Hc.
  destruct (run_init_acct _ _ _ Hrun _ _ Hc) as [_ _ Hd Hn _ Ho].
  rewrite Hd, Hn, Ho. split; [by destruct (inline tk)|]. split; [done|].
  destruct (pc tk), (inline tk); simpl; split; try lia; split; try done;
    try (by intros [? ?]); lia.
Qed.

Lemma one_originator_witness :
  run share_schedule init = Ok (share_world, share_events) ∧
  count (is_born 0 true) share_events + count (is_born 0 false) share_events = 1 ∧
  count (is_orig_ret 0) share_events ≤ 1.
Proof.
  assert (E : run share_schedule init = Ok (share_world, share_events))
    by (vm_compute; reflexivity).
  destruct (one_originator share_schedule share_world share_events 0 _ E eq_refl)
    as (H1 & _ & H2 & _).
  split; [exact E|]. split; [exact H1|exact H2].
Defined.

(** * The join-or-create decision *)

Lemma joined_insert c cs n w tk tk' g bs :
  tasks w !! c = Some tk → g = grp w → attached cs n tk tk' →
  joined c cs n w {| grp := g; tasks := <[c := tk']> (tasks w); bufs := bs |}.
Proof.
  intros Hc -> Ha. split; [done|]. simpl. split; [apply length_insert|]. split.
  - intros c' Hne. by apply list_lookup_insert_ne.
  - exists tk, tk'. split; [done|]. split; [|done].
    apply list_lookup_insert_eq. by eapply lookup_lt_Some.
Qed.

(** C3. In every well-formed state (every state reached from the
    zero-value [Group] is one, [run_init]), [Do] and [DoChan] under the
    lock join exactly when the key is registered and its stored expiry
    is strictly greater than the clock reading.  A join leaves the
    registry and the number of allocated calls as they are and changes
    the registered call only: its [dups] is incremented (with 64-bit
    wrap-around), the caller is attached to it (one more waiter for
    [Do]; the new channel appended to [chans] for [DoChan], which
    returns it), and the call stays at its program point, so the
    operation is not run again.  In every other case they allocate a new
    call, store it under the key in place of whatever was there, and
    store the expiry computed by [getValidTime]; other keys are
    untouched. *)
Theorem join_or_create (k : string) (d now now' : Z) (w : world) :
  wf w →
  (∀ c, get_call (grp w) k = Some c → (get_time (grp w) k > now)%Z →
     ∃ w1 w2,
       Do_lock k d now now' w = Ok (w1, Joined c) ∧
       joined c [] 1 w w1 ∧ bufs w1 = bufs w ∧
       DoChan_lock k d now now' w = Ok (w2, Joined c, length (bufs w)) ∧
       joined c [length (bufs w)] 0 w w2 ∧ bufs w2 = bufs w ++ [[]]) ∧
  (get_call (grp w) k = None ∨ (get_time (grp w) k ≤ now)%Z →
     ∃ w1 w2,
       Do_lock k d now now' w = Ok (w1, Created (length (tasks w))) ∧
       created k (getValidTime now' d) true [] w w1 ∧ bufs w1 = bufs w ∧
       DoChan_lock k d now now' w =
         Ok (w2, Created (length (tasks w)), length (bufs w)) ∧
       created k (getValidTime now' d) false [length (bufs w)] w w2 ∧
       bufs w2 = bufs w ++ [[]]).
Proof.
  intros Hwf. split.
  - intros c Hc Hgt.
    destruct (decide_join k d now now' w c Hwf Hc Hgt) as (tk & Ec & H1 & H2).
    eexists _, _. split; [exact H1|]. split; [|split; [done|]].
    { apply (joined_insert c [] 1 w tk); [done|done|].
      unfold attached. simpl. rewrite app_nil_r, Nat.add_1_r. done. }
    split; [exact H2|]. split; [|done].
    apply (joined_insert c _ 0 w tk); [done|done|].
    unfold attached. simpl. rewrite Nat.add_0_r. done.
  - by apply decide_create.
Qed.

Lemma join_or_create_witness :
  run forget_schedule init = Ok (forget_world, forget_events) ∧
  (∃ w1 tk', Do_lock "key" 7 50 50 forget_world = Ok (w1, Joined 0) ∧
     tasks w1 !! 0 = Some tk' ∧ dups (obj tk') = 1%Z ∧ waiting tk' = 1 ∧
     get_exp (grp w1) "key" = Some 100%Z) ∧
  (∃ w2, DoChan_lock "key" 0 100 100 forget_world = Ok (w2, Created 1, 0) ∧
     get_call (grp w2) "key" = Some 1 ∧ get_exp (grp w2) "key" = Some MaxInt64).
Proof.
  assert (E : run forget_schedule init = Ok (forget_world, forget_events))
    by (vm_compute; reflexivity).
  split; [exact E|]. destruct (run_init _ _ _ E) as [Hwf _]. split.
  - destruct (proj1 (join_or_create "key" 7 50 50 forget_world Hwf) 0 eq_refl)
      as (w1 & _ & H1 & (Hg & _ & _ & tk & tk' & Hc & Hc' & Hd & _ & Hw & _) & _);
      [reflexivity|].
    exists w1, tk'. split; [exact H1|]. split; [exact Hc'|].
    vm_compute in Hc. injection Hc as <-. simpl in Hd, Hw.
    split; [exact Hd|]. split; [exact Hw|]. rewrite Hg. reflexivity.
  - destruct (proj2 (join_or_create "key" 0 100 100 forget_world Hwf))
      as (_ & w2 & _ & _ & _ & H2 & (_ & H3 & H4 & _) & _).
    { right. vm_compute. discriminate. }
    exists w2. split; [exact H2|]. split; [exact H3|exact H4].
Defined.

(** * The critical section of [doCall] never blocks *)

(** With the call at line 114, on distinct channels with empty buffers,
    the critical section runs to its end. *)
Lemma at_lock c tk w :
  tasks w !! c = Some tk → pc tk = AtLock → NoDup (chans (obj tk)) →
  (∀ ch, ch ∈ chans (obj tk) → bufs w !! ch = Some []) →
  ∃ bs,
    doCall_lock c w =
      Ok ({| grp := if forgotten (obj tk) then grp w else del_entry (grp w) (key tk);
             tasks := <[c := set_pc (if inline tk then AtReturn else Ended) tk]> (tasks w);
             bufs := bs |},
          (λ ch, EvSend c ch (result_of (obj tk))) <$> chans (obj tk)) ∧
    length bs = length (bufs w) ∧
    (∀ ch, ch ∈ chans (obj tk) → bs !! ch = Some [result_of (obj tk)]) ∧
    (∀ ch, ch ∉ chans (obj tk) → bs !! ch = bufs w !! ch).
Proof.
  intros Hc Hpc Hnd Hemp.
  destruct (deliver_ok c (result_of (obj tk)) _ _ Hnd Hemp) as [bs Hd].
  exists bs. split; [unfold doCall_lock; by rewrite Hc, Hpc, Hd|].
  split; [by eapply deliver_length|]. split.
  - intros ch Hin. by eapply deliver_sent.
  - intros ch Hin. by eapply deliver_other.
Qed.


(** * Completion handling *)



(** * The statements that serve the callers of a call *)

Lemma with_task_lookup c tk tk' w :
  tasks w !! c = Some tk → tasks (with_task c tk' w) !! c = Some tk'.
Proof. intros Hc. simpl. apply list_lookup_insert_eq. by eapply lookup_lt_Some. Qed.

Lemma with_task_twice c tk1 tk2 w :
  with_task c tk2 (with_task c tk1 w) = with_task c tk2 w.
Proof. unfold with_task. simpl. by rewrite list_insert_insert_eq. Qed.

Lemma with_task_same c tk w : tasks w !! c = Some tk → with_task c tk w = w.
Proof. intros Hc. unfold with_task. rewrite list_insert_id by done. by destruct w. Qed.

Lemma at_fn c v e tk w :
  tasks w !! c = Some tk → pc tk = AtFn →
  step (AFn c v e) w =
    Ok (with_task c (set_pc AtDone (set_obj (set_result v e (obj tk)) tk)) w,
        [EvCall c v e]).
Proof. intros Hc Hp. simpl. unfold doCall_fn. by rewrite Hc, Hp. Qed.

(** [fn] is called at line 111 and nowhere else. *)
Lemma fn_once c v e tk w :
  tasks w !! c = Some tk → started (pc tk) = true → step (AFn c v e) w = Stuck.
Proof. intros Hc Hp. simpl. unfold doCall_fn. rewrite Hc. by destruct (pc tk). Qed.

Lemma at_done c n tk w :
  tasks w !! c = Some tk → pc tk = AtDone → wg (obj tk) = S n →
  step (AWgDone c) w =
    Ok (with_task c (set_pc AtLock (set_obj (set_wg n (obj tk)) tk)) w, []).
Proof. intros Hc Hp Hw. simpl. unfold doCall_done. by rewrite Hc, Hp, Hw. Qed.

Lemma at_return c tk w :
  tasks w !! c = Some tk → pc tk = AtReturn →
  step (AReturn c) w =
    Ok (with_task c (set_pc Ended tk) w, [EvReturn c false (result_of (obj tk))]).
Proof. intros Hc Hp. simpl. unfold Do_return. by rewrite Hc, Hp. Qed.


(** Once the counter is zero, the callers blocked in [c.wg.Wait()]
    return one after the other, each with the stored value and error. *)
Lemma wake_some c n : ∀ r tk w,
  tasks w !! c = Some tk → wg (obj tk) = 0 → waiting tk = n + r →
  run (replicate n (AWake c)) w =
    Ok (with_task c (set_waiting r tk) w,
        replicate n (EvReturn c true
          {| Val := val (obj tk); Err := err (obj tk); Shared := true |})).
Proof.
  induction n as [|n IH]; intros r tk w Hc Hw Hn.
  - simpl in *. rewrite <- Hn.
    replace (set_waiting (waiting tk) tk) with tk by by destruct tk.
    by rewrite with_task_same.
  - change (replicate (S n) ?x) with (x :: replicate n x).
    apply run_cons_Ok.
    exists (with_task c (set_waiting (n + r) tk) w),
      [EvReturn c true {| Val := val (obj tk); Err := err (obj tk); Shared := true |}],
      (replicate n (EvReturn c true
         {| Val := val (obj tk); Err := err (obj tk); Shared := true |})).
    split; [|split; [|done]].
    + simpl. unfold Do_wake. rewrite Hc, Hw, Hn. done.
    + rewrite (IH r (set_waiting (n + r) tk) _ (with_task_lookup _ _ _ _ Hc) Hw eq_refl).
      by rewrite with_task_twice.
Qed.

Lemma wake_all c tk w :
  tasks w !! c = Some tk → wg (obj tk) = 0 →
  run (replicate (waiting tk) (AWake c)) w =
    Ok (with_task c (set_waiting 0 tk) w,
        replicate (waiting tk) (EvReturn c true
          {| Val := val (obj tk); Err := err (obj tk); Shared := true |})).
Proof. intros Hc Hw. apply wake_some; [done|done|lia]. Qed.

Lemma at_recv ch r w :
  bufs w !! ch = Some [r] → step (ARecv ch) w = Ok (received ch w, [EvRecv ch r]).
Proof. intros Hb. simpl. unfold recv. by rewrite Hb. Qed.

(** Receiving from distinct channels that hold one result each. *)
Lemma recv_all r cs : ∀ w,
  NoDup cs → (∀ ch, ch ∈ cs → bufs w !! ch = Some [r]) →
  ∃ bs,
    run (ARecv <$> cs) w =
      Ok ({| grp := grp w; tasks := tasks w; bufs := bs |}, (λ ch, EvRecv ch r) <$> cs) ∧
    (∀ ch, ch ∈ cs → bs !! ch = Some []) ∧
    (∀ ch, ch ∉ cs → bs !! ch = bufs w !! ch).
Proof.
  induction cs as [|ch cs IH]; intros w Hnd Hb.
  - exists (bufs w). simpl. split; [by destruct w|]. split; [|done].
    intros ch Hin. by apply elem_of_nil in Hin.
  - apply NoDup_cons in Hnd as [Hn Hnd].
    destruct (IH (received ch w) Hnd) as (bs & Hr & H1 & H2).
    { intros ch' Hin. simpl. rewrite list_lookup_insert_ne by (intros ->; done).
      apply Hb. by right. }
    exists bs. split; [|split].
    + rewrite !fmap_cons. apply run_cons_Ok. eexists _, _, _.
      split; [apply at_recv, Hb; by left|]. split; [exact Hr|done].
    + intros ch' [->|Hin]%elem_of_cons; [|by apply H1].
      rewrite (H2 _ Hn). simpl. apply list_lookup_insert_eq.
      eapply lookup_lt_Some, Hb. by left.
    + intros ch' [Hne Hnin]%not_elem_of_cons. rewrite (H2 _ Hnin). simpl.
      by apply list_lookup_insert_ne.
Qed.


(** * Results shared by coalesced callers *)



(** * A call served to its end *)

Lemma settle_run c tk w v e :
  wf w → tasks w !! c = Some tk → pc tk = AtFn →
  ∃ w',
    run (settle c tk v e) w = Ok (w', settle_events c tk v e) ∧
    grp w' = (if forgotten (obj tk) then grp w else del_entry (grp w) (key tk)) ∧
    (∀ ch, ch ∈ chans (obj tk) → bufs w' !! ch = Some []) ∧
    (∀ ch, ch ∉ chans (obj tk) → bufs w' !! ch = bufs w !! ch) ∧
    ∃ tk', tasks w' !! c = Some tk' ∧ pc tk' = Ended ∧ waiting tk' = 0 ∧
           val (obj tk') = v ∧ err (obj tk') = e.
Proof.
  intros Hwf Hc Hp.
  pose proof (wf_wg _ Hwf _ _ Hc) as Hwg. rewrite Hp in Hwg. simpl in Hwg.
  pose proof (wf_chans_NoDup _ _ _ Hwf Hc) as Hnd.
  assert (Hemp : ∀ ch, ch ∈ chans (obj tk) → bufs w !! ch = Some []).
  { intros ch Hin. eapply wf_chan_empty; eauto. by rewrite Hp. }
  set (tk1 := set_pc AtDone (set_obj (set_result v e (obj tk)) tk)).
  set (tk2 := set_pc AtLock (set_obj (set_wg 0 (obj tk1)) tk1)).
  set (tk3 := set_waiting 0 tk2).
  set (r := {| Val := v; Err := e; Shared := (dups (obj tk) >? 0)%Z |}).
  pose proof (at_fn c v e tk w Hc Hp) as S1. fold tk1 in S1.
  pose proof (at_done c 0 tk1 _ (with_task_lookup _ _ tk1 _ Hc) eq_refl Hwg) as S2.
  rewrite with_task_twice in S2. fold tk2 in S2.
  pose proof (wake_all c tk2 _ (with_task_lookup _ _ tk2 _ Hc) eq_refl) as S3.
  rewrite with_task_twice in S3. fold tk3 in S3.
  destruct (at_lock c tk3 (with_task c tk3 w) (with_task_lookup _ _ tk3 _ Hc)
    eq_refl Hnd Hemp) as (bs & S4 & _ & Hsent & Hother).
  change (result_of (obj tk3)) with r in S4, Hsent.
  change (chans (obj tk3)) with (chans (obj tk)) in S4, Hsent, Hother.
  change (forgotten (obj tk3)) with (forgotten (obj tk)) in S4.
  change (key tk3) with (key tk) in S4.
  change (inline tk3) with (inline tk) in S4.
  change (grp (with_task c tk3 w)) with (grp w) in S4.
  change (bufs (with_task c tk3 w)) with (bufs w) in Hother.
  change (tasks (with_task c tk3 w)) with (<[c := tk3]> (tasks w)) in S4.
  rewrite list_insert_insert_eq in S4.
  set (g4 := if forgotten (obj tk) then grp w else del_entry (grp w) (key tk)) in *.
  set (tk4 := set_pc (if inline tk then AtReturn else Ended) tk3) in *.
  set (w4 := {| grp := g4; tasks := <[c := tk4]> (tasks w); bufs := bs |}) in *.
  assert (Hc4 : tasks w4 !! c = Some tk4).
  { simpl. apply list_lookup_insert_eq. by eapply lookup_lt_Some. }
  set (tk5 := set_pc Ended tk3).
  set (w5 := {| grp := g4; tasks := <[c := tk5]> (tasks w); bufs := bs |}).
  assert (S5 : run (if inline tk then [AReturn c] else []) w4 =
               Ok (w5, if inline tk then [EvReturn c false r] else [])).
  { unfold w5, tk5, w4, tk4 in *. destruct (inline tk).
    - apply run_cons_Ok. eexists _, _, _. split; [by apply at_return|].
      split; [|done]. simpl. unfold with_task. simpl.
      by rewrite list_insert_insert_eq.
    - done. }
  destruct (recv_all r (chans (obj tk)) w5 Hnd Hsent) as (bs' & S6 & Hemp' & Hother').
  eexists. split; [|split; [|split; [|split]]].
  - unfold settle, settle_events.
    apply (run_cons_step _ _ _ _ _ _ _ S1), (run_cons_step _ _ _ _ _ _ _ S2),
      (run_app_step _ _ _ _ _ _ _ S3), (run_cons_step (AComplete c) _ _ _ _ _ _ S4),
      (run_app_step _ _ _ _ _ _ _ S5), S6.
  - done.
  - done.
  - intros ch Hin. simpl. by rewrite (Hother' _ Hin), <- (Hother _ Hin).
  - exists tk5. split; [|done]. simpl. apply list_lookup_insert_eq.
    by eapply lookup_lt_Some.
Qed.

(** * The operation runs once and its result is passed on unchanged *)

(** C7 as stated fails: when the operation returns a value together
    with an error, that value (not the zero value) is delivered with the
    error, to the joiner as to the originator. *)
Lemma error_with_value_counterexample :
  ¬ (∀ acts w evs c j r, run acts init = Ok (w, evs) →
       EvReturn c j r ∈ evs → Err r ≠ None → Val r = Nil).
Proof.
  intros H.
  assert (E : run partial_schedule init = Ok (partial_world, partial_events))
    by (vm_compute; reflexivity).
  assert (Hin : EvReturn 0 true {| Val := Str "partial"; Err := Some "E"; Shared := true |}
                  ∈ partial_events).
  { apply list_elem_of_lookup. by exists 3. }
  specialize (H _ _ _ _ _ _ E Hin). simpl in H.
  assert (Hne : Some "E"%string ≠ None) by discriminate.
  specialize (H Hne). discriminate H.
Qed.

(** C7, amended. In every execution the operation of a call is invoked
    at most once, and exactly once as soon as the call is past line 111,
    after which it cannot be invoked again; every result that [Do]
    returns, that [doCall] sends, or that a channel returned by [DoChan]
    yields carries exactly the value and the error which that one
    invocation returned.  And they are delivered: with the call at line
    111, where the blocked [Do] callers are all the [Do] callers that
    joined and [chans] holds all the channels handed out, whatever value
    and error the operation returns, the call runs to its end, every
    blocked [Do] caller returns that value and that error, the
    originating [Do] (if there is one) returns them, and every channel
    of the call is sent them and yields them. *)
Theorem operation_runs_once (acts : list action) (w : world)
    (evs : list event) (c : nat) (tk : task) :
  run acts init = Ok (w, evs) → tasks w !! c = Some tk →
  count (is_call c) evs = (if started (pc tk) then 1 else 0) ∧
  (∀ v e, EvCall c v e ∈ evs → v = val (obj tk) ∧ e = err (obj tk)) ∧
  (∀ j r, EvReturn c j r ∈ evs → EvCall c (Val r) (Err r) ∈ evs) ∧
  (∀ ch r, EvSend c ch r ∈ evs → EvCall c (Val r) (Err r) ∈ evs) ∧
  (∀ j ch r, EvChan c j ch ∈ evs → EvRecv ch r ∈ evs →
     EvCall c (Val r) (Err r) ∈ evs) ∧
  (started (pc tk) = true → ∀ v e, step (AFn c v e) w = Stuck) ∧
  (pc tk = AtFn →
     waiting tk = count (is_do_join c) evs ∧ chans (obj tk) = handed c evs ∧
     ∀ v e, ∃ w',
       run (settle c tk v e) w = Ok (w', settle_events c tk v e) ∧
       ∃ tk', tasks w' !! c = Some tk' ∧ pc tk' = Ended ∧ waiting tk' = 0 ∧
              val (obj tk') = v ∧ err (obj tk') = e).
Proof.
  intros Hrun Hc. destruct (run_init _ _ _ Hrun) as [Hwf Hh].
  pose proof (hist_task_of _ _ Hh _ _ Hc) as Ht.
  pose proof (run_init_acct _ _ _ Hrun _ _ Hc) as Ha.
  assert (Hdead : live (pc tk) = false → started (pc tk) = true) by by destruct (pc tk).
  split; [apply (h_calls _ _ _ Ht)|]. split; [apply (h_call _ _ _ Ht)|].
  split; [|split; [|split; [|split]]].
  - intros j r He. destruct (h_ret _ _ _ Ht _ _ He) as (Hs & -> & -> & _).
    apply started_call; [done|]. by destruct (pc tk).
  - intros ch r He. destruct (h_send _ _ _ Ht _ _ He) as (Hl & _ & ->).
    apply started_call; auto.
  - intros j ch r Hch Hrecv.
    destruct (recv_result _ _ _ _ _ _ _ Hwf Hh Hc Hch Hrecv) as (_ & -> & Hl).
    apply started_call; auto.
  - intros Hs v e. by apply (fn_once c v e tk).
  - intros Hp. split; [|split; [apply (a_chans _ _ _ Ha)|]].
    + rewrite <- (a_wait _ _ _ Ha).
      assert (Hz : count (is_wake c) evs = 0); [|lia].
      apply count_zero. intros e He. destruct (is_wake c e) eqn:Ew; [|done].
      destruct e as [| | | |c' [] r|]; simpl in Ew; try done.
      apply bool_decide_eq_true in Ew as ->.
      destruct (h_ret _ _ _ Ht _ _ He) as (Hs' & _). by rewrite Hp in Hs'.
    + intros v e.
      destruct (settle_run c tk w v e Hwf Hc Hp) as (w' & Hr & _ & _ & _ & Htk).
      eauto.
Qed.

Lemma operation_runs_once_witness :
  run pending_schedule init = Ok (pending_world, pending_events) ∧
  ∃ w',
    run [AFn 0 Nil (Some "some error"); AWgDone 0; AWake 0; AComplete 0; ARecv 0]
        pending_world =
      Ok (w', [EvCall 0 Nil (Some "some error");
               EvReturn 0 true {| Val := Nil; Err := Some "some error"; Shared := true |};
               EvSend 0 0 {| Val := Nil; Err := Some "some error"; Shared := true |};
               EvRecv 0 {| Val := Nil; Err := Some "some error"; Shared := true |}]).
Proof.
  assert (E : run pending_schedule init = Ok (pending_world, pending_events))
    by (vm_compute; reflexivity).
  split; [exact E|].
  pose proof (operation_runs_once pending_schedule pending_world pending_events
    0 _ E eq_refl) as (_ & _ & _ & _ & _ & _ & H).
  destruct (H eq_refl) as (_ & _ & H').
  destruct (H' Nil (Some "some error"%string)) as (w' & Hr & _).
  exists w'. exact Hr.
Defined.

(** * Forget *)



